(** * GoToSocial: activity-processing engine, caches and cursor paging

    A shallow embedding of the parts of the server that the specification
    makes claims about:

    - [Paging]: internal/paging (Boundary, Page, PageAsc, PageDesc, Next, Prev);
    - [Mutes]: the cached mute decision and Filter.StatusMuted;
    - [Cache]: the TTL cache, AccountCache and NotificationCache, over an
      explicit heap so that pointer sharing is visible;
    - [Workers]: the typed worker pool of internal/concurrency;
    - [FediAPI]: the federation dispatcher and its Create handlers, as
      programs of a small trace-and-error monad over the collaborators. *)

From Stdlib Require Import ZArith Lia.
From stdpp Require Import base option list sorting strings pretty gmap fin_maps.

Local Open Scope Z_scope.

(* ===================================================================== *)
(** ** internal/paging *)
(* ===================================================================== *)

Module Paging.

(** Order is a Go [int]; the iota block gives OrderAscending = 1 and
    OrderDescending = 2, and 0 means that no order was asked for. *)
Definition Order := Z.
Definition OrderAscending : Order := 1.
Definition OrderDescending : Order := 2.

Definition Ascending (i : Order) : bool := bool_decide (i = OrderAscending).
Definition Descending (i : Order) : bool := bool_decide (i = OrderDescending).
Definition None_ (i : Order) : bool := bool_decide (i = 0).

(** The two paging directions: an input sorted ascending is paged with
    PageAsc, one sorted descending with PageDesc. *)
Inductive Direction := Asc | Desc.

Section Generic.
(** The key type [T comparable] with its zero value [var z T]. *)
Context {T : Type} `{EqDecision T} (zeroT : T).

(** [zero(t)] of the paging package: comparison with the zero value. *)
Definition zero (t : T) : bool := bool_decide (t = zeroT).

Record Boundary := mkBoundary {
  Name : string;
  Value : T;
  BOrder : Order
}.

(** The zero [Boundary[T]{}]. *)
Definition noBoundary : Boundary := mkBoundary "" zeroT 0.

(** Boundary.New *)
Definition BoundaryNew (b : Boundary) (value : T) : Boundary :=
  mkBoundary (Name b) value (BOrder b).

(** The [for i := range in] scan of Boundary.Find, started at index [i]. *)
Fixpoint scan (v : T) (i : Z) (l : list T) : Z :=
  match l with
  | [] => -1
  | x :: rest => if decide (x = v) then i else scan v (i + 1) rest
  end.

(** Boundary.Find *)
Definition Find (b : Boundary) (l : list T) : Z :=
  if zero (Value b) then -1 else scan (Value b) 0 l.

Record Page := mkPage {
  Min : Boundary;
  Max : Boundary;
  Limit : Z
}.

(** Page.order *)
Definition order (p : Page) : Order :=
  if negb (bool_decide (BOrder (Min p) = 0)) then BOrder (Min p)
  else if negb (bool_decide (BOrder (Max p) = 0)) then BOrder (Max p)
  else 0.

(** The slice expressions [in[i:]] and [in[:j]] for in-range indices. *)
Definition sliceFrom (i : Z) (l : list T) : list T := drop (Z.to_nat i) l.
Definition sliceTo (j : Z) (l : list T) : list T := take (Z.to_nat j) l.

(** The in-place swap loop [for i < j { in[i], in[j] = in[j], in[i]; i++; j-- }].
    Each turn moves [i] and [j] one step closer, so [length l] turns are
    always enough; the first argument counts them down. *)
Fixpoint swapLoop (turns : nat) (i j : Z) (l : list T) : list T :=
  match turns with
  | O => l
  | S turns' =>
      if bool_decide (i < j) then
        match l !! Z.to_nat i, l !! Z.to_nat j with
        | Some a, Some b =>
            swapLoop turns' (i + 1) (j - 1)
              (<[Z.to_nat j := a]> (<[Z.to_nat i := b]> l))
        | _, _ => l
        end
      else l
  end.

(** [slices.Clone] followed by the swap loop from both ends. *)
Definition reverseClone (l : list T) : list T :=
  swapLoop (length l) 0 (Z.of_nat (length l) - 1) l.

Definition truncate (p : Page) (l : list T) : list T :=
  if bool_decide (0 < Limit p) && bool_decide (Limit p < Z.of_nat (length l))
  then sliceTo (Limit p) l
  else l.

(** The two reslicing steps shared by PageAsc and PageDesc: [bLo] opens
    the window and is looked for first, [bHi] closes it and is looked for
    in what is left. *)
Definition window (bLo bHi : Boundary) (input : list T) : list T :=
  let in1 :=
    if bool_decide (Find bLo input ≠ -1)
    then sliceFrom (Find bLo input + 1) input else input in
  if bool_decide (Find bHi in1 ≠ -1)
  then sliceTo (Find bHi in1) in1 else in1.

(** Page.PageAsc; the receiver is a pointer, [None] is the nil page. *)
Definition PageAsc (p : option Page) (input : list T) : list T :=
  match p with
  | None => input
  | Some p =>
      let in1 :=
        let minIdx := Find (Min p) input in
        if bool_decide (minIdx ≠ -1) then sliceFrom (minIdx + 1) input else input in
      let in2 :=
        let maxIdx := Find (Max p) in1 in
        if bool_decide (maxIdx ≠ -1) then sliceTo maxIdx in1 else in1 in
      let in3 :=
        if Descending (order p) && bool_decide (1 < Z.of_nat (length in2))
        then reverseClone in2 else in2 in
      truncate p in3
  end.

(** Page.PageDesc *)
Definition PageDesc (p : option Page) (input : list T) : list T :=
  match p with
  | None => input
  | Some p =>
      let in1 :=
        let maxIdx := Find (Max p) input in
        if bool_decide (maxIdx ≠ -1) then sliceFrom (maxIdx + 1) input else input in
      let in2 :=
        let minIdx := Find (Min p) in1 in
        if bool_decide (minIdx ≠ -1) then sliceTo minIdx in1 else in1 in
      let in3 :=
        if Ascending (order p) && bool_decide (1 < Z.of_nat (length in2))
        then reverseClone in2 else in2 in
      truncate p in3
  end.

(** Page.Next: [new(Page[T])] leaves Min as the zero boundary. *)
Definition Next (p : option Page) (max : T) : option Page :=
  match p with
  | None => None
  | Some p =>
      if zero max then None
      else Some (mkPage noBoundary (BoundaryNew (Max p) max) (Limit p))
  end.

(** Page.Prev *)
Definition Prev (p : option Page) (min : T) : option Page :=
  match p with
  | None => None
  | Some p =>
      if zero min then None
      else Some (mkPage (BoundaryNew (Min p) min) noBoundary (Limit p))
  end.

(** *** The paging loop of a client

    Page the whole sequence, take the last element of the page handed
    back as the candidate boundary (the zero value when the page is
    empty), derive the continuation page, and page the whole sequence
    again, until no continuation page is derived. [fuel] bounds the
    number of requests; [None] means the bound was hit. *)
Definition lastOrZero (page : list T) : T := default zeroT (last page).

Fixpoint pageLoop (pageFn : option Page → list T → list T)
    (contFn : option Page → T → option Page)
    (fuel : nat) (p : option Page) (keys : list T) : option (list (list T)) :=
  match fuel with
  | O => None
  | S fuel' =>
      let page := pageFn p keys in
      match contFn p (lastOrZero page) with
      | None => Some [page]
      | Some p' => cons page <$> pageLoop pageFn contFn fuel' (Some p') keys
      end
  end.

(** The first page request: a limit and no boundaries. *)
Definition firstPage (limit : Z) : Page := mkPage noBoundary noBoundary limit.

(** *** The paging contract in the specification's words

    Both boundary values are located in the input by exact match; the
    page is the sub-slice strictly between the two positions, a zero or
    absent boundary leaving its side open; it is reversed when the order
    asked for is not the order of the input, and cut to [Limit] elements
    when [Limit] is positive. *)
Definition located (b : Boundary) (input : list T) : option nat :=
  if zero (Value b) then None
  else fst <$> list_find (λ x, x = Value b) input.

Definition strictlyBetween (lo hi : option nat) (input : list T) : list T :=
  let upto := match hi with Some j => take j input | None => input end in
  match lo with Some i => drop (S i) upto | None => upto end.

Definition cutToLimit (limit : Z) (l : list T) : list T :=
  if bool_decide (0 < limit) then take (Z.to_nat limit) l else l.

Definition PageAscSpec (p : Page) (input : list T) : list T :=
  let s := strictlyBetween (located (Min p) input) (located (Max p) input) input in
  cutToLimit (Limit p) (if Descending (order p) then reverse s else s).

Definition PageDescSpec (p : Page) (input : list T) : list T :=
  let s := strictlyBetween (located (Max p) input) (located (Min p) input) input in
  cutToLimit (Limit p) (if Ascending (order p) then reverse s else s).

Definition pageOf (d : Direction) : option Page → list T → list T :=
  match d with Asc => PageAsc | Desc => PageDesc end.

Definition pageSpecOf (d : Direction) : Page → list T → list T :=
  match d with Asc => PageAscSpec | Desc => PageDescSpec end.

(** The boundary that opens the page in the input's own order, and the
    one that closes it. *)
Definition opening (d : Direction) (p : Page) : Boundary :=
  match d with Asc => Min p | Desc => Max p end.

Definition closing (d : Direction) (p : Page) : Boundary :=
  match d with Asc => Max p | Desc => Min p end.

(** The continuation that moves the opening boundary forward: Prev sets
    Min, Next sets Max. *)
Definition continueOf (d : Direction) : option Page → T → option Page :=
  match d with Asc => Prev | Desc => Next end.

(** The boundary that opens the page is located before the one that
    closes it, when both are located at all. *)
Definition inOrder (lo hi : option nat) : Prop :=
  match lo, hi with
  | Some i, Some j => (i < j)%nat
  | _, _ => True
  end.

(** Whether PageAsc (for [Asc]) or PageDesc (for [Desc]) reverses its
    window under the order [o]. *)
Definition reversesUnder (d : Direction) (o : Order) : bool :=
  match d with Asc => Descending o | Desc => Ascending o end.

(** Neither the order of the page, nor the order of the boundary that
    Prev (for [Asc]) or Next (for [Desc]) carries over into the
    continuation page, asks for a reversal. *)
Definition keepsInputOrder (d : Direction) (p : Page) : Prop :=
  reversesUnder d (order p) = false ∧
  reversesUnder d (BOrder (opening d p)) = false.

End Generic.

(** Identifiers are strings, their zero value is the empty string, and
    they sort the way Go compares strings. *)
Definition ascending (l : list string) : Prop :=
  StronglySorted (λ a b, String.ltb a b = true) l.

Definition descending (l : list string) : Prop :=
  StronglySorted (λ a b, String.ltb b a = true) l.

(** [paging.New(minID, sinceID, maxID, limit)] through MinID and MaxID. *)
Definition MinID (minID sinceID : string) : Boundary :=
  if bool_decide (sinceID ≠ "") then mkBoundary "since_id" sinceID OrderDescending
  else mkBoundary "min_id" minID OrderAscending.

Definition MaxID (maxID : string) : Boundary := mkBoundary "max_id" maxID 0.

Definition New (minID sinceID maxID : string) (limit : Z) : Page :=
  mkPage (MinID minID sinceID) (MaxID maxID) limit.

End Paging.

(* ===================================================================== *)
(** ** Mute decisions: the mutes cache entry and Filter.StatusMuted *)
(* ===================================================================== *)

Module Mutes.

(** Go's [time.Time], as the instant it denotes: the distance from the
    zero time (January 1, year 1, 00:00:00 UTC), which is what [IsZero],
    [After] and [Before] compare. *)
Definition Time := Z.
Definition zeroTime : Time := 0.
Definition IsZero (t : Time) : bool := bool_decide (t = zeroTime).
Definition After (t u : Time) : bool := bool_decide (u < t).
Definition Before (t u : Time) : bool := bool_decide (t < u).

(** cache.CachedMute *)
Record CachedMute := mkCachedMute {
  ItemID : string;
  RequesterID : string;
  Mute : bool;
  MuteExpiry : Time;
  Notifications : bool;
  NotificationExpiry : Time
}.

(** The zero [&cache.CachedMute{}]. *)
Definition emptyMute : CachedMute := mkCachedMute "" "" false zeroTime false zeroTime.

(** CachedMute.MuteExpired *)
Definition MuteExpired (m : CachedMute) (now : Time) : bool :=
  negb (IsZero (MuteExpiry m)) && negb (After (MuteExpiry m) now).

(** CachedMute.NotificationExpired *)
Definition NotificationExpired (m : CachedMute) (now : Time) : bool :=
  negb (IsZero (NotificationExpiry m)) && negb (After (NotificationExpiry m) now).

(** Modelled from the spec: gtsmodel.UserMute is not among the sources.
    The fields are those the loader reads: the time at which the mute
    expires (zero for none) and whether it mutes notifications. *)
Record UserMute := mkUserMute {
  ExpiresAt : Time;
  UMNotifications : bool
}.

(** The local variables of the loader callback. *)
Record Acc := mkAcc {
  muted : bool;
  muteExpiry : Time;
  notifs : bool;
  notifExpiry : Time
}.

(** One turn of [for _, mute := range userMutes]. *)
Definition loaderStep (now : Time) (a : Acc) (mute : UserMute) : Acc :=
  if negb (IsZero (ExpiresAt mute)) && Before (ExpiresAt mute) now then a
  else
    let muteExpiry' :=
      if negb (IsZero (ExpiresAt mute)) && After (ExpiresAt mute) (muteExpiry a)
      then ExpiresAt mute else muteExpiry a in
    if UMNotifications mute then
      mkAcc true muteExpiry' true
        (if After (ExpiresAt mute) (notifExpiry a) then ExpiresAt mute
         else notifExpiry a)
    else mkAcc true muteExpiry' (notifs a) (notifExpiry a).

(** The loader only ever records an expiry for a mute it counts. *)
Definition expiryCounted (a : Acc) : Prop :=
  muteExpiry a ≠ zeroTime → muted a = true.

(** The loader callback of getStatusMuteDetails once both storage lookups
    have succeeded: [threadMuted] is [threadMute != nil]. *)
Definition loadDetails (now : Time) (requesterID statusID : string)
    (threadMuted : bool) (userMutes : list UserMute) : CachedMute :=
  let a := foldl (loaderStep now) (mkAcc false zeroTime threadMuted zeroTime) userMutes in
  mkCachedMute statusID requesterID (muted a) (muteExpiry a) (notifs a) (notifExpiry a).

(** What the collaborators hand to one call of getStatusMuteDetails. *)
Record Env := mkEnv {
  clock : Time;                         (* time.Now() *)
  cached : option CachedMute;           (* the entry under (type, requester, item) *)
  threadMute : string + bool;           (* getStatusThreadMute: error, or found *)
  userMutes : string + list UserMute    (* getStatusRelatedUserMutes *)
}.

(** Modelled from the spec: StructCache.LoadOne is not among the sources.
    "Look up by a named index; on hit, return a defensive copy; on miss,
    invoke loaderFn, store the result, and return a copy." *)
Definition LoadOne (hit : option CachedMute) (loader : string + CachedMute)
    : string + CachedMute :=
  match hit with
  | Some m => inr m
  | None => loader
  end.

(** Filter.getStatusMuteDetails; [requester] is nil for an unauthenticated
    request. *)
Definition getStatusMuteDetails (requester : option string) (statusID : string)
    (env : Env) : option CachedMute * Time * option string :=
  match requester with
  | None => (Some emptyMute, zeroTime, None)
  | Some requesterID =>
      let now := clock env in
      let loader :=
        match threadMute env with
        | inl err => inl err
        | inr tm =>
            match userMutes env with
            | inl err => inl err
            | inr ums => inr (loadDetails now requesterID statusID tm ums)
            end
        end in
      match LoadOne (cached env) loader with
      | inl err => (None, now, Some err)
      | inr details => (Some details, now, None)
      end
  end.

(** Filter.StatusMuted: (muted, withExpiry, err). *)
Definition StatusMuted (requester : option string) (statusID : string) (env : Env)
    : bool * bool * option string :=
  match getStatusMuteDetails requester statusID env with
  | (Some details, now, None) =>
      if negb (Mute details) then (false, false, None)
      else if IsZero (MuteExpiry details) then (true, false, None)
      else (After (MuteExpiry details) now, true, None)
  | (_, _, Some err) => (false, false, Some ("error getting status mute details: " +:+ err))
  | (None, _, None) => (false, false, None)   (* never produced above *)
  end.

End Mutes.

(* ===================================================================== *)
(** ** internal/cache: the TTL cache and its account and notification wrappers *)
(* ===================================================================== *)

Module Cache.

(** What a call leaves behind: it returns, or it panics. *)
Inductive outcome (A : Type) : Type :=
  | Returns (a : A)
  | Panics (msg : string).
Arguments Returns {A} a.
Arguments Panics {A} msg.

Definition obind {A B} (x : outcome A) (f : A → outcome B) : outcome B :=
  match x with
  | Returns a => f a
  | Panics msg => Panics msg
  end.

(** Go pointers are addresses of heap cells; [None] is nil. *)
Abbreviation ptr := nat (only parsing).

(** Modelled from the spec: gtsmodel.Account is not among the sources. The
    fields are those the cache reads or writes, with the two attachment
    pointers as its associations ("an account's returned copy never shares
    its avatar-attachment pointer with the cached original"); the plain
    fields of the model are stood for by [DisplayName]. *)
Record Account := mkAccount {
  ID : string;
  URI : string;
  URL : string;
  DisplayName : string;
  AvatarMediaAttachment : option ptr;
  HeaderMediaAttachment : option ptr
}.

(** Modelled from the spec: gtsmodel.Notification is not among the
    sources. The fields are those the cache reads or writes: the ID, a
    plain field, and the three associations that the copy sets to nil. *)
Record Notification := mkNotification {
  NID : string;
  NotificationType : string;
  NStatus : option ptr;
  OriginAccount : option ptr;
  TargetAccount : option ptr
}.

(** The heap: allocated cells and the next free address ([&a], [new]). *)
Record Heap (V : Type) := mkHeap {
  cells : gmap ptr V;
  next : ptr
}.
Arguments mkHeap {V} cells next.
Arguments cells {V} h.
Arguments next {V} h.

Definition alloc {V} (v : V) (h : Heap V) : Heap V * ptr :=
  (mkHeap (<[next h := v]> (cells h)) (S (next h)), next h).

(** [*p = v] through a pointer held by a caller. *)
Definition store {V} (p : ptr) (v : V) (h : Heap V) : Heap V :=
  mkHeap (<[p := v]> (cells h)) (next h).

Definition Time := Z.

(** cache.entry, its value being the pointer that was handed to [set]. *)
Record entry := mkEntry {
  value : ptr;
  expiry : Time
}.

(** The surface copy with both attachments set to nil. *)
Definition strip (a : Account) : Account :=
  mkAccount (ID a) (URI a) (URL a) (DisplayName a) None None.

(** copyAccount: [a := *account], both attachments set to nil, [&a]. *)
Definition copyAccount (account : ptr) (h : Heap Account) : outcome (Heap Account * ptr) :=
  match cells h !! account with
  | None => Panics "invalid memory address or nil pointer dereference"
  | Some a => Returns (alloc (strip a) h)
  end.

(** copyNotification *)
Definition copyNotification (notif : ptr) (h : Heap Notification)
    : outcome (Heap Notification * ptr) :=
  match cells h !! notif with
  | None => Panics "invalid memory address or nil pointer dereference"
  | Some n =>
      Returns (alloc (mkNotification (NID n) (NotificationType n) None None None) h)
  end.

(** AccountCache with the hooks that NewAccount installs (no user hook):
    [cache] is Cache.cache, [ttl] is Cache.ttl. *)
Record AccountCache := mkAccountCache {
  cache : gmap string entry;
  ttl : Time;
  urls : gmap string string;
  uris : gmap string string
}.

(** The state that the operations of an account cache act on. *)
Record State := mkState {
  heap : Heap Account;
  ac : AccountCache
}.

(** NewAccount: Cache.init gives an empty map and a TTL of five minutes. *)
Definition NewAccount (h : Heap Account) : State :=
  mkState h (mkAccountCache ∅ (5 * 60 * 1000000000) ∅ ∅).

(** Cache.get: the hit extends the entry's expiry. *)
Definition get (key : string) (now : Time) (c : AccountCache)
    : AccountCache * option ptr :=
  match cache c !! key with
  | None => (c, None)
  | Some item =>
      (mkAccountCache (<[key := mkEntry (value item) (now + ttl c)]> (cache c))
         (ttl c) (urls c) (uris c),
       Some (value item))
  end.

(** AccountCache.getByID *)
Definition getByID (id : string) (now : Time) (s : State) : outcome (State * option ptr) :=
  match get id now (ac s) with
  | (c, None) => Returns (mkState (heap s) c, None)
  | (c, Some v) =>
      obind (copyAccount v (heap s)) (λ r,
        Returns (mkState (fst r) c, Some (snd r)))
  end.

(** AccountCache.GetByID (the mutex is held around getByID). *)
Definition GetByID (id : string) (now : Time) (s : State) : outcome (State * option ptr) :=
  getByID id now s.

(** AccountCache.GetByURL *)
Definition GetByURL (url : string) (now : Time) (s : State) : outcome (State * option ptr) :=
  match urls (ac s) !! url with
  | None => Returns (s, None)
  | Some id => getByID id now s
  end.

(** AccountCache.GetByURI *)
Definition GetByURI (uri : string) (now : Time) (s : State) : outcome (State * option ptr) :=
  match uris (ac s) !! uri with
  | None => Returns (s, None)
  | Some id => getByID id now s
  end.

(** The update hook set by SetUpdateCallback(nil): keep the URI and URL
    lookups in step with the account that replaces the cached one. *)
Definition updateHook (oldAcc newAcc : Account) (c : AccountCache) : AccountCache :=
  let uris1 :=
    if bool_decide (URI oldAcc ≠ URI newAcc)
    then <[URI newAcc := ID newAcc]> (delete (URI oldAcc) (uris c))
    else uris c in
  let urls1 :=
    if bool_decide (URL oldAcc ≠ URL newAcc) then
      let d := if bool_decide (URL oldAcc ≠ "") then delete (URL oldAcc) (urls c)
               else urls c in
      if bool_decide (URL newAcc ≠ "") then <[URL newAcc := ID newAcc]> d else d
    else urls c in
  mkAccountCache (cache c) (ttl c) urls1 uris1.

(** Cache.set, with its update hook reading both accounts from the heap. *)
Definition set (key : string) (v : ptr) (now : Time) (h : Heap Account)
    (c : AccountCache) : outcome AccountCache :=
  let write c' :=
    mkAccountCache (<[key := mkEntry v (now + ttl c')]> (cache c'))
      (ttl c') (urls c') (uris c') in
  match cache c !! key with
  | Some item =>
      match cells h !! value item, cells h !! v with
      | Some oldAcc, Some newAcc => Returns (write (updateHook oldAcc newAcc c))
      | _, _ => Panics "invalid memory address or nil pointer dereference"
      end
  | None => Returns (write c)
  end.

(** AccountCache.Set *)
Definition Set_ (account : option ptr) (now : Time) (s : State) : outcome State :=
  match account with
  | None => Panics "invalid account"
  | Some p =>
      match cells (heap s) !! p with
      | None => Panics "invalid memory address or nil pointer dereference"
      | Some a =>
          if bool_decide (ID a = "") || bool_decide (URI a = "")
          then Panics "invalid account"
          else
            obind (copyAccount p (heap s)) (λ r,
            obind (set (ID a) (snd r) now (fst r) (ac s)) (λ c,
              let c1 := mkAccountCache (cache c) (ttl c) (urls c)
                          (<[URI a := ID a]> (uris c)) in
              let c2 :=
                if bool_decide (URL a ≠ "")
                then mkAccountCache (cache c1) (ttl c1)
                       (<[URL a := ID a]> (urls c1)) (uris c1)
                else c1 in
              Returns (mkState (fst r) c2)))
      end
  end.

(** The three public lookups, by the key they take. *)
Inductive Key := ByID (id : string) | ByURI (uri : string) | ByURL (url : string).

Definition Get (k : Key) : Time → State → outcome (State * option ptr) :=
  match k with
  | ByID id => GetByID id
  | ByURI uri => GetByURI uri
  | ByURL url => GetByURL url
  end.

(** Every pointer held by the cache is an allocated cell, and allocation
    hands out addresses above every allocated cell. *)
Definition wellFormed (s : State) : Prop :=
  map_Forall (λ p _, (p < next (heap s))%nat) (cells (heap s)) ∧
  map_Forall (λ _ e, is_Some (cells (heap s) !! value e)) (cache (ac s)).

(** The key resolves to the identifier under which the entry is kept. *)
Definition resolves (k : Key) (c : AccountCache) (id : string) : Prop :=
  match k with
  | ByID i => i = id
  | ByURI uri => uris c !! uri = Some id
  | ByURL url => urls c !! url = Some id
  end.

(** The pointer is one the cache holds. *)
Definition cachedPtr (s : State) (p : ptr) : Prop :=
  ∃ k e, cache (ac s) !! k = Some e ∧ value e = p.

(** *** NotificationCache (over the TTL cache of go-cache, kept as a map) *)
Record NState := mkNState {
  nheap : Heap Notification;
  ncache : gmap string ptr
}.

(** NotificationCache.Put *)
Definition Put (notif : option ptr) (s : NState) : outcome NState :=
  match notif with
  | None => Panics "invalid notification"
  | Some p =>
      match cells (nheap s) !! p with
      | None => Panics "invalid memory address or nil pointer dereference"
      | Some n =>
          if bool_decide (NID n = "") then Panics "invalid notification"
          else
            obind (copyNotification p (nheap s)) (λ r,
              Returns (mkNState (fst r) (<[NID n := snd r]> (ncache s))))
      end
  end.

(** NotificationCache.GetByID *)
Definition NGetByID (id : string) (s : NState) : outcome (NState * option ptr) :=
  match ncache s !! id with
  | None => Returns (s, None)
  | Some v =>
      obind (copyNotification v (nheap s)) (λ r,
        Returns (mkNState (fst r) (ncache s), Some (snd r)))
  end.

(** *** The precondition of the insertions: a live, non-nil pointer to a
    value whose required keys are not empty *)
Definition live {V} (h : Heap V) (p : option ptr) : Prop :=
  ∀ q, p = Some q → is_Some (cells h !! q).

Definition validAccount (h : Heap Account) (account : option ptr) : bool :=
  match account ≫= λ p, cells h !! p with
  | Some a => negb (bool_decide (ID a = "")) && negb (bool_decide (URI a = ""))
  | None => false
  end.

Definition validNotification (h : Heap Notification) (notif : option ptr) : bool :=
  match notif ≫= λ p, cells h !! p with
  | Some n => negb (bool_decide (NID n = ""))
  | None => false
  end.

(** *** A worked example: an account with both attachments populated, held
    by a caller at address 0, is placed in a fresh cache. *)
Definition zork : Account :=
  mkAccount "01ZORK" "https://example.org/users/zork" "https://example.org/@zork"
    "zork" (Some 7%nat) (Some 8%nat).

Definition callerHeap : Heap Account := fst (alloc zork (mkHeap ∅ 0%nat)).

Definition afterSet : State :=
  match Set_ (Some 0%nat) 0 (NewAccount callerHeap) with
  | Returns s => s
  | Panics _ => NewAccount callerHeap
  end.

(** The first lookup of that account by its URI. *)
Definition zorkByURI : Key := ByURI "https://example.org/users/zork".

Definition firstGet : State * option ptr :=
  match Get zorkByURI 1 afterSet with
  | Returns r => r
  | Panics _ => (afterSet, None)
  end.

(** A notification cache with nothing in it. *)
Definition noNotifications : NState := mkNState (mkHeap ∅ 0%nat) ∅.

End Cache.

(* ===================================================================== *)
(** ** internal/concurrency: the typed worker pool *)
(* ===================================================================== *)

Module Workers.

(** Lines written through the log package. *)
Inductive LogLine :=
  | Tracef (prefix : string) (queued : nat) (msg : string)
  | Errorf (prefix : string) (err : string).

Section Pool.
(** The message type [MsgType] with its [%+v] rendering, and the state
    [W] that the processing function acts on. *)
Context {MsgType W : Type} (render : MsgType → string).

(** [func(context.Context, MsgType) error]: the state it leaves and the
    error it returns, nil being [None]. *)
Definition Processor := MsgType → W → W * option string.

(** What a function run by a worker leaves: it returns (nothing: the
    enqueued [func(ctx)] has no result), or it panics. *)
Inductive ran :=
  | Done (w : W) (log : list LogLine)
  | Panicked (msg : string).

(** A function handed to the runner: [func(ctx context.Context)]. *)
Definition WorkerFunc := W → list LogLine → ran.

Record WorkerPool := mkWorkerPool {
  process : option Processor;
  prefix : string;
  queued : list WorkerFunc      (* the runner's queue, oldest first *)
}.

(** SetProcessor *)
Definition SetProcessor (fn : Processor) (w : WorkerPool) : option WorkerPool :=
  match process w with
  | Some _ => None                       (* log.Panicf: already set *)
  | None => Some (mkWorkerPool (Some fn) (prefix w) (queued w))
  end.

(** The closure that Queue builds around [msg]. *)
Definition queuedFunc (w : WorkerPool) (msg : MsgType) : WorkerFunc :=
  λ world log,
    match process w with
    | None => Panicked "invalid memory address or nil pointer dereference"
    | Some fn =>
        match fn msg world with
        | (world', Some err) => Done world' (log ++ [Errorf (prefix w) err])
        | (world', None) => Done world' log
        end
    end.

(** WorkerPool.Queue: the trace line, then the runner's Enqueue. *)
Definition Queue (msg : MsgType) (w : WorkerPool) (log : list LogLine)
    : WorkerPool * list LogLine :=
  (mkWorkerPool (process w) (prefix w) (queued w ++ [queuedFunc w msg]),
   log ++ [Tracef (prefix w) (length (queued w)) (render msg)]).

Definition QueueAll (msgs : list MsgType) (w : WorkerPool) (log : list LogLine)
    : WorkerPool * list LogLine :=
  foldl (λ st msg, Queue msg (fst st) (snd st)) (w, log) msgs.

(** A worker of the runner (go-runners, outside the sources) takes the
    queued functions one at a time, oldest first, and calls each; a
    panic ends the run. *)
Fixpoint drain (fns : list WorkerFunc) (world : W) (log : list LogLine) : ran :=
  match fns with
  | [] => Done world log
  | fn :: rest =>
      match fn world log with
      | Done world' log' => drain rest world' log'
      | Panicked msg => Panicked msg
      end
  end.

(** *** In the specification's words

    Every message is handed to the processor, in turn; an error is
    written to the log and goes no further. *)
Fixpoint processEach (fn : Processor) (pfx : string) (msgs : list MsgType)
    (world : W) : W * list LogLine :=
  match msgs with
  | [] => (world, [])
  | msg :: rest =>
      let r := fn msg world in
      let r' := processEach fn pfx rest (fst r) in
      (fst r',
       match snd r with Some err => [Errorf pfx err] | None => [] end ++ snd r')
  end.
End Pool.

(** NewWorkerPool: no processor yet, nothing queued. *)
Definition NewWorkerPool {MsgType W : Type} (pfx : string) : WorkerPool (MsgType:=MsgType) (W:=W) :=
  mkWorkerPool None pfx [].

(** A processor for the worked example: it records every message it is
    handed and fails on one of them. *)
Definition recordFailingOn (bad : string) : Processor (MsgType:=string) (W:=list string) :=
  λ msg seen,
    (seen ++ [msg],
     if decide (msg = bad) then Some ("cannot process " +:+ msg) else None).

Definition examplePool : WorkerPool (MsgType:=string) (W:=list string) :=
  mkWorkerPool (Some (recordFailingOn "second")) "worker.Worker[string]" [].

End Workers.

(* ===================================================================== *)
(** ** internal/processing/workers: messages from the federation API *)
(* ===================================================================== *)

Module FediAPI.

(** *** Errors (gtserror) *)

(** An error with the two properties the handlers ask it about. *)
Record error := mkError {
  text : string;
  unretrievable : bool;     (* gtserror.IsUnretrievable *)
  notPermitted : bool       (* gtserror.NotPermitted *)
}.

(** gtserror.New / Newf without a wrapped error. *)
Definition Newf (msg : string) : error := mkError msg false false.

(** gtserror.Newf with a trailing [%w]: the message is extended and the
    wrapped error's properties stay visible through the chain. *)
Definition Wrapf (msg : string) (err : error) : error :=
  mkError (msg +:+ text err) (unretrievable err) (notPermitted err).

(** *** The models the handlers look into

    Modelled from the spec: the gtsmodel, ap and messages packages are not
    among the sources. Each record below holds the fields that the
    handlers read; a message is "a typed envelope carrying a verb tag, an
    object-type tag, the acting and target accounts, an optional
    already-parsed domain object, an optional canonical IRI and an
    optional raw external representation". *)

Record Account := mkAccount {
  AccountID_ : string;
  Username : string
}.

(** gtsmodel.Status; [PendingApproval] is a [*bool]. *)
Record Status := mkStatus {
  ID : string;
  URI : string;
  Local : option bool;
  InReplyToID : string;
  BoostOfID : string;
  PendingApproval : option bool;
  PreApproved : bool
}.

(** [new(gtsmodel.Status)] *)
Definition newStatus : Status := mkStatus "" "" None "" "" None false.

(** gtsmodel.StatusFave *)
Record StatusFave := mkStatusFave {
  FaveID : string;
  StatusID : string;
  FavePendingApproval : option bool;
  FavePreApproved : bool
}.

(** gtsmodel.Block *)
Record Block := mkBlock {
  AccountID : string;
  TargetAccountID : string
}.

(** gtsmodel.InteractionApproval *)
Record Approval := mkApproval {
  ApprovalURI : string
}.

(** ap.Statusable, by its JSON-LD id. *)
Record Statusable := mkStatusable {
  JSONLDId : string
}.

(** The dynamic type behind [fMsg.APObject interface{}]. *)
Inductive APObject :=
  | APStatusable (s : Statusable)
  | APOther (typeName : string).

(** The dynamic type behind [fMsg.GTSModel interface{}]. *)
Inductive Model :=
  | MStatus (s : Status)
  | MStatusFave (f : StatusFave)
  | MBlock (b : Block)
  | MOther (typeName : string).

(** The [%T] rendering used in the cast errors. *)
Definition typeOfModel (m : option Model) : string :=
  match m with
  | None => "<nil>"
  | Some (MStatus _) => "*gtsmodel.Status"
  | Some (MStatusFave _) => "*gtsmodel.StatusFave"
  | Some (MBlock _) => "*gtsmodel.Block"
  | Some (MOther n) => n
  end.

(** messages.FromFediAPI *)
Record FromFediAPI := mkFromFediAPI {
  APObjectType : string;
  APActivityType : string;
  APIRI : option string;
  APObject_ : option APObject;
  GTSModel : option Model;
  Requesting : Account;
  Receiving : Account
}.

(** *** Collaborators, as calls that leave a trace *)

Inductive Call :=
  (* federate *)
  | RefreshStatus (requestUser : string) (bare : Status) (statusable : Statusable)
  | GetStatusByURI (requestUser : string) (iri : string)
  | EnrichAnnounce (boost : Status) (requestUser : string)
  | AcceptInteraction (approval : Approval)
  (* utils *)
  | approveReply (status : Status)
  | approveFave (fave : StatusFave)
  | approveAnnounce (boost : Status)
  | incrementStatusesCount (account : Account) (status : Status)
  (* surface *)
  | notifyPendingReply (status : Status)
  | notifyPendingFave (fave : StatusFave)
  | notifyPendingAnnounce (boost : Status)
  | notifyFave (fave : StatusFave)
  | notifyAnnounce (boost : Status)
  | timelineAndNotifyStatus (status : Status)
  | invalidateStatusFromTimelines (statusID : string)
  (* state.DB, state.Timelines *)
  | PopulateStatusFave (fave : StatusFave)
  | HomeWipeItemsFromAccountID (timelineAccountID accountID : string)
  | ListWipeItemsFromAccountID (timelineAccountID accountID : string)
  | DeleteFollow (sourceAccountID targetAccountID : string)
  | DeleteFollowRequest (sourceAccountID targetAccountID : string).

Inductive Level := INFO | DEBUG | ERROR.

Inductive Event :=
  | Called (c : Call)
  | Logged (lvl : Level) (line : string).

Definition Trace := list Event.

(** The collaborator calls of a trace, in order, the log left out. *)
Definition calls (t : Trace) : list Call :=
  omap (λ e, match e with Called c => Some c | Logged _ _ => None end) t.

(** How the world answers: whether a call made after the history [t]
    fails, and what it hands back when it does not. *)
Record World := mkWorld {
  errOf : Trace → Call → option error;
  statusOf : Trace → Call → Status * option Statusable;
  approvalOf : Trace → Call → Approval;
  boostOf : Trace → Call → Status
}.

(** *** The handler monad: a trace is written, and a handler either
    returns a value or returns early with an error *)

Inductive res (A : Type) : Type :=
  | Ret (a : A)
  | Abort (err : error).
Arguments Ret {A} a.
Arguments Abort {A} err.

Definition M (A : Type) : Type := World → Trace → Trace * res A.

#[export] Instance M_ret : MRet M := λ A a _ t, (t, Ret a).

#[export] Instance M_bind : MBind M := λ A B f m w t,
  match m w t with
  | (t', Ret a) => f a w t'
  | (t', Abort err) => (t', Abort err)
  end.

(** [return err] *)
Definition abort {A} (err : error) : M A := λ _ t, (t, Abort err).

(** A call whose only result is an error. *)
Definition invoke (c : Call) : M (option error) :=
  λ w t, (t ++ [Called c], Ret (errOf w t c)).

(** A call with no result at all. *)
Definition perform (c : Call) : M unit :=
  λ _ t, (t ++ [Called c], Ret tt).

(** A call with a value and an error. *)
Definition invokeFor {A} (valueOf : World → Trace → Call → A) (c : Call)
    : M (error + A) :=
  λ w t, (t ++ [Called c],
          Ret (match errOf w t c with
               | Some err => inl err
               | None => inr (valueOf w t c)
               end)).

Definition log (lvl : Level) (line : string) : M unit :=
  λ _ t, (t ++ [Logged lvl line], Ret tt).

(** [if err := c; err != nil { log.Errorf(ctx, label+"%v", err) }] *)
Definition orLog (c : Call) (label : string) : M unit :=
  e ← invoke c;
  match e with
  | Some err => log ERROR (label +:+ text err)
  | None => mret tt
  end.

(** [if err := c; err != nil { return gtserror.Newf(label+"%w", err) }] *)
Definition orAbort (c : Call) (label : string) : M unit :=
  e ← invoke c;
  match e with
  | Some err => abort (Wrapf label err)
  | None => mret tt
  end.

(** [util.PtrOrValue(p, false)] *)
Definition PtrOrValue (p : option bool) (v : bool) : bool := default v p.

(** *** fediAPI.CreateStatus *)

(** The opening switch of CreateStatus: the status and the statusable it
    was built from, as RefreshStatus or GetStatusByURI hand them back. *)
Definition resolveStatus (fMsg : FromFediAPI) : M (Status * option Statusable) :=
  match APObject_ fMsg with
  | Some obj =>
      match obj with
      | APStatusable statusable =>
          let bareStatus :=
            mkStatus "" (JSONLDId statusable) (Some false) "" "" None false in
          r ← invokeFor statusOf
                (RefreshStatus (Username (Receiving fMsg)) bareStatus statusable);
          match r with
          | inl err =>
              abort (Wrapf ("error processing new status " +:+ URI bareStatus +:+ ": ") err)
          | inr v => mret v
          end
      | APOther typeName =>
          abort (Newf ("cannot cast " +:+ typeName +:+ " -> ap.Statusable"))
      end
  | None =>
      match APIRI fMsg with
      | Some iri =>
          r ← invokeFor statusOf (GetStatusByURI (Username (Receiving fMsg)) iri);
          match r with
          | inl err =>
              abort (Wrapf ("error dereferencing forwarded status " +:+ iri +:+ ": ") err)
          | inr v => mret v
          end
      | None => abort (Newf "neither APObjectModel nor APIri set")
      end
  end.

Definition CreateStatus (fMsg : FromFediAPI) : M unit :=
  r ← resolveStatus fMsg;
  let status := fst r in
  match snd r with
  | None =>
      (* Another thread beat us to creating this status. *)
      mret tt
  | Some _ =>
      let pendingApproval := PtrOrValue (PendingApproval status) false in
      if pendingApproval && negb (PreApproved status) then
        orLog (notifyPendingReply status) "error notifying pending reply: "
      else
        (if pendingApproval && PreApproved status then
           r ← invokeFor approvalOf (approveReply status);
           match r with
           | inl err => abort (Wrapf "error pre-approving reply: " err)
           | inr approval =>
               orAbort (AcceptInteraction approval)
                 "error federating pre-approval of reply: "
           end
         else mret tt);;
        orLog (incrementStatusesCount (Requesting fMsg) status)
          "error updating account stats: ";;
        (if bool_decide (InReplyToID status ≠ "")
         then perform (invalidateStatusFromTimelines (InReplyToID status))
         else mret tt);;
        orLog (timelineAndNotifyStatus status)
          "error timelining and notifying status: "
  end.

(** *** fediAPI.CreateLike *)

(** The cast of the model and PopulateStatusFave. *)
Definition resolveFave (fMsg : FromFediAPI) : M StatusFave :=
  match GTSModel fMsg with
  | Some (MStatusFave fave) =>
      orAbort (PopulateStatusFave fave) "error populating status fave: ";;
      mret fave
  | other =>
      abort (Newf (typeOfModel other +:+ " not parseable as *gtsmodel.StatusFave"))
  end.

Definition CreateLike (fMsg : FromFediAPI) : M unit :=
  fave ← resolveFave fMsg;
  let pendingApproval := PtrOrValue (FavePendingApproval fave) false in
  if pendingApproval && negb (FavePreApproved fave) then
    orLog (notifyPendingFave fave) "error notifying pending fave: "
  else
    (if pendingApproval && FavePreApproved fave then
       r ← invokeFor approvalOf (approveFave fave);
       match r with
       | inl err => abort (Wrapf "error pre-approving fave: " err)
       | inr approval =>
           orAbort (AcceptInteraction approval)
             "error federating pre-approval of fave: "
       end
     else mret tt);;
    orLog (notifyFave fave) "error notifying fave: ";;
    perform (invalidateStatusFromTimelines (StatusID fave)).

(** *** fediAPI.CreateAnnounce *)

(** The cast of the model and EnrichAnnounce; [None] is the benign skip of
    a boost whose target is unretrievable or not permitted. *)
Definition resolveBoost (fMsg : FromFediAPI) : M (option Status) :=
  match GTSModel fMsg with
  | Some (MStatus boost) =>
      r ← invokeFor boostOf (EnrichAnnounce boost (Username (Receiving fMsg)));
      match r with
      | inl err =>
          if unretrievable err || notPermitted err then
            log DEBUG ("skipping announce: " +:+ text err);;
            mret None
          else abort (Wrapf "error dereferencing announce: " err)
      | inr boost' => mret (Some boost')
      end
  | other =>
      abort (Newf (typeOfModel other +:+ " not parseable as *gtsmodel.Status"))
  end.

Definition CreateAnnounce (fMsg : FromFediAPI) : M unit :=
  r ← resolveBoost fMsg;
  match r with
  | None => mret tt
  | Some boost =>
      let pendingApproval := PtrOrValue (PendingApproval boost) false in
      if pendingApproval && negb (PreApproved boost) then
        orLog (notifyPendingAnnounce boost) "error notifying pending boost: "
      else
        (if pendingApproval && PreApproved boost then
           r ← invokeFor approvalOf (approveAnnounce boost);
           match r with
           | inl err => abort (Wrapf "error pre-approving boost: " err)
           | inr approval =>
               orAbort (AcceptInteraction approval)
                 "error federating pre-approval of boost: "
           end
         else mret tt);;
        orLog (incrementStatusesCount (Requesting fMsg) boost)
          "error updating account stats: ";;
        orLog (timelineAndNotifyStatus boost)
          "error timelining and notifying status: ";;
        orLog (notifyAnnounce boost) "error notifying announce: ";;
        perform (invalidateStatusFromTimelines (BoostOfID boost))
  end.

(** *** fediAPI.CreateBlock *)

Definition CreateBlock (fMsg : FromFediAPI) : M unit :=
  match GTSModel fMsg with
  | Some (MBlock block) =>
      orLog (HomeWipeItemsFromAccountID (AccountID block) (TargetAccountID block))
        "error wiping items from block -> target's home timeline: ";;
      orLog (HomeWipeItemsFromAccountID (TargetAccountID block) (AccountID block))
        "error wiping items from target -> block's home timeline: ";;
      orLog (ListWipeItemsFromAccountID (AccountID block) (TargetAccountID block))
        "error wiping items from block -> target's list timeline(s): ";;
      orLog (ListWipeItemsFromAccountID (TargetAccountID block) (AccountID block))
        "error wiping items from target -> block's list timeline(s): ";;
      orLog (DeleteFollow (AccountID block) (TargetAccountID block))
        "error deleting follow from block -> target: ";;
      orLog (DeleteFollow (TargetAccountID block) (AccountID block))
        "error deleting follow from target -> block: ";;
      orLog (DeleteFollowRequest (AccountID block) (TargetAccountID block))
        "error deleting follow request from block -> target: ";;
      orLog (DeleteFollowRequest (TargetAccountID block) (AccountID block))
        "error deleting follow request from target -> block: "
  | other =>
      abort (Newf (typeOfModel other +:+ " not parseable as *gtsmodel.Block"))
  end.

(** *** Processor.ProcessFromFediAPI *)

(** Modelled from the spec: the tags of the ap package are not among the
    sources; they carry the ActivityStreams names that the specification
    lists for verbs (Create/Update/Accept/Delete/Move) and object types
    (Note/Person/Follow/Like/Announce/Block/Flag/Question). *)
Definition ActivityCreate : string := "Create".
Definition ActivityUpdate : string := "Update".
Definition ActivityAccept : string := "Accept".
Definition ActivityDelete : string := "Delete".
Definition ActivityMove : string := "Move".
Definition ObjectNote : string := "Note".
Definition ActorPerson : string := "Person".
Definition ActivityFollow : string := "Follow".
Definition ActivityLike : string := "Like".
Definition ActivityAnnounce : string := "Announce".
Definition ActivityBlock : string := "Block".
Definition ActivityFlag : string := "Flag".
Definition ActivityQuestion : string := "Question".

(** The methods of [fediAPI] that the dispatcher can call. *)
Inductive Method :=
  | mCreateStatus | mCreateFollowReq | mCreateLike | mCreateAnnounce
  | mCreateBlock | mCreateFlag | mCreatePollVote
  | mUpdateStatus | mUpdateAccount
  | mAcceptFollow | mAcceptLike | mAcceptReply | mAcceptAnnounce
  | mDeleteStatus | mDeleteAccount
  | mMoveAccount.

Section Dispatch.
(** The method bodies; the dispatcher does not look into them. *)
Variable fediAPI : Method → FromFediAPI → M unit.

(** The return that closes ProcessFromFediAPI. *)
Definition unhandled (fMsg : FromFediAPI) : M unit :=
  abort (Newf ("unhandled: " +:+ APActivityType fMsg +:+ " " +:+ APObjectType fMsg)).

(** The two nested switches; a case list that names no matching object
    type falls out of both switches to the closing return. The fields
    attached to the opening log line are left out. *)
Definition ProcessFromFediAPI (fMsg : FromFediAPI) : M unit :=
  log INFO "processing from fedi API";;
  let a := APActivityType fMsg in
  let o := APObjectType fMsg in
  if decide (a = ActivityCreate) then
    if decide (o = ObjectNote) then fediAPI mCreateStatus fMsg
    else if decide (o = ActivityFollow) then fediAPI mCreateFollowReq fMsg
    else if decide (o = ActivityLike) then fediAPI mCreateLike fMsg
    else if decide (o = ActivityAnnounce) then fediAPI mCreateAnnounce fMsg
    else if decide (o = ActivityBlock) then fediAPI mCreateBlock fMsg
    else if decide (o = ActivityFlag) then fediAPI mCreateFlag fMsg
    else if decide (o = ActivityQuestion) then fediAPI mCreatePollVote fMsg
    else unhandled fMsg
  else if decide (a = ActivityUpdate) then
    if decide (o = ObjectNote) then fediAPI mUpdateStatus fMsg
    else if decide (o = ActorPerson) then fediAPI mUpdateAccount fMsg
    else unhandled fMsg
  else if decide (a = ActivityAccept) then
    if decide (o = ActivityFollow) then fediAPI mAcceptFollow fMsg
    else if decide (o = ActivityLike) then fediAPI mAcceptLike fMsg
    else if decide (o = ObjectNote) then fediAPI mAcceptReply fMsg
    else if decide (o = ActivityAnnounce) then fediAPI mAcceptAnnounce fMsg
    else unhandled fMsg
  else if decide (a = ActivityDelete) then
    if decide (o = ObjectNote) then fediAPI mDeleteStatus fMsg
    else if decide (o = ActorPerson) then fediAPI mDeleteAccount fMsg
    else unhandled fMsg
  else if decide (a = ActivityMove) then
    if decide (o = ActorPerson) then fediAPI mMoveAccount fMsg
    else unhandled fMsg
  else unhandled fMsg.
End Dispatch.

(** *** The routing table in the specification's words

    "A fixed routing table keyed by (verb, object-type) pairs": one row
    per registered combination. *)
Definition dispatchTable : list (string * string * Method) :=
  [ ("Create", "Note", mCreateStatus);
    ("Create", "Follow", mCreateFollowReq);
    ("Create", "Like", mCreateLike);
    ("Create", "Announce", mCreateAnnounce);
    ("Create", "Block", mCreateBlock);
    ("Create", "Flag", mCreateFlag);
    ("Create", "Question", mCreatePollVote);
    ("Update", "Note", mUpdateStatus);
    ("Update", "Person", mUpdateAccount);
    ("Accept", "Follow", mAcceptFollow);
    ("Accept", "Like", mAcceptLike);
    ("Accept", "Note", mAcceptReply);
    ("Accept", "Announce", mAcceptAnnounce);
    ("Delete", "Note", mDeleteStatus);
    ("Delete", "Person", mDeleteAccount);
    ("Move", "Person", mMoveAccount) ].

Fixpoint registered (table : list (string * string * Method))
    (verb objectType : string) : option Method :=
  match table with
  | [] => None
  | (v, o, m) :: rest =>
      if decide (v = verb ∧ o = objectType) then Some m
      else registered rest verb objectType
  end.

(** *** The interaction-approval gate in the specification's words *)

(** What a Create handler has in hand once its object is resolved. *)
Inductive Resolved :=
  | RReply (status : Status)
  | RLike (fave : StatusFave)
  | RBoost (boost : Status).

Inductive Interaction := Reply | Like | Boost.

Definition handlerOf (k : Interaction) : FromFediAPI → M unit :=
  match k with
  | Reply => CreateStatus
  | Like => CreateLike
  | Boost => CreateAnnounce
  end.

(** The resolution step of each handler; [None] when the handler has
    nothing left to do (status created by another delivery, boost
    skipped). *)
Definition resolveOf (k : Interaction) (fMsg : FromFediAPI) : M (option Resolved) :=
  match k with
  | Reply =>
      r ← resolveStatus fMsg;
      mret (match snd r with None => None | Some _ => Some (RReply (fst r)) end)
  | Like => fave ← resolveFave fMsg; mret (Some (RLike fave))
  | Boost => r ← resolveBoost fMsg; mret (RBoost <$> r)
  end.

Definition pendingApprovalOf (r : Resolved) : bool :=
  match r with
  | RReply s | RBoost s => PtrOrValue (PendingApproval s) false
  | RLike f => PtrOrValue (FavePendingApproval f) false
  end.

Definition preApprovedOf (r : Resolved) : bool :=
  match r with
  | RReply s | RBoost s => PreApproved s
  | RLike f => FavePreApproved f
  end.

(** The pending-interaction notification. *)
Definition notifyPendingOf (r : Resolved) : Call :=
  match r with
  | RReply s => notifyPendingReply s
  | RLike f => notifyPendingFave f
  | RBoost b => notifyPendingAnnounce b
  end.

(** The approval write. *)
Definition approveOf (r : Resolved) : Call :=
  match r with
  | RReply s => approveReply s
  | RLike f => approveFave f
  | RBoost b => approveAnnounce b
  end.

(** Processing as normal, per kind of interaction: the counter increment
    and the timeline fan-out for a reply and a boost; the fave
    notification for a like; the timeline invalidation of the status that
    was interacted with. *)
Definition normalProcessing (fMsg : FromFediAPI) (r : Resolved) : list Call :=
  match r with
  | RReply s =>
      [incrementStatusesCount (Requesting fMsg) s] ++
      (if bool_decide (InReplyToID s ≠ "")
       then [invalidateStatusFromTimelines (InReplyToID s)] else []) ++
      [timelineAndNotifyStatus s]
  | RLike f =>
      [notifyFave f; invalidateStatusFromTimelines (StatusID f)]
  | RBoost b =>
      [incrementStatusesCount (Requesting fMsg) b;
       timelineAndNotifyStatus b;
       notifyAnnounce b;
       invalidateStatusFromTimelines (BoostOfID b)]
  end.

Definition isCounterIncrement (c : Call) : bool :=
  match c with incrementStatusesCount _ _ => true | _ => false end.

Definition isFanOut (c : Call) : bool :=
  match c with timelineAndNotifyStatus _ => true | _ => false end.

Definition aborted {A} (r : res A) : bool :=
  match r with Abort _ => true | Ret _ => false end.

(** *** Block cleanup in the specification's words

    Each step is attempted and logged independently: a failure writes its
    line and the next step is attempted all the same. *)
Definition cleanupSteps (block : Block) : list (Call * string) :=
  [ (HomeWipeItemsFromAccountID (AccountID block) (TargetAccountID block),
     "error wiping items from block -> target's home timeline: ");
    (HomeWipeItemsFromAccountID (TargetAccountID block) (AccountID block),
     "error wiping items from target -> block's home timeline: ");
    (ListWipeItemsFromAccountID (AccountID block) (TargetAccountID block),
     "error wiping items from block -> target's list timeline(s): ");
    (ListWipeItemsFromAccountID (TargetAccountID block) (AccountID block),
     "error wiping items from target -> block's list timeline(s): ");
    (DeleteFollow (AccountID block) (TargetAccountID block),
     "error deleting follow from block -> target: ");
    (DeleteFollow (TargetAccountID block) (AccountID block),
     "error deleting follow from target -> block: ");
    (DeleteFollowRequest (AccountID block) (TargetAccountID block),
     "error deleting follow request from block -> target: ");
    (DeleteFollowRequest (TargetAccountID block) (AccountID block),
     "error deleting follow request from target -> block: ") ].

Fixpoint attemptEach (steps : list (Call * string)) (w : World) (t : Trace) : Trace :=
  match steps with
  | [] => t
  | (c, label) :: rest =>
      attemptEach rest w
        (t ++ [Called c] ++
           match errOf w t c with
           | Some err => [Logged ERROR (label +:+ text err)]
           | None => []
           end)
  end.

(** *** Worlds and messages for the worked examples *)

(** Every call succeeds; the resolved status, boost and approval are
    fixed. *)
Definition calmWorld (status : Status) (statusable : option Statusable) : World :=
  mkWorld (λ _ _, None) (λ _ _, (status, statusable))
    (λ _ _, mkApproval "https://example.org/approvals/1") (λ _ _, status).

(** The storage error of one call, every other call succeeding. *)
Definition failingAt (bad : Call → bool) : World :=
  mkWorld (λ _ c, if bad c then Some (Newf "sql: connection is closed") else None)
    (λ _ _, (newStatus, None))
    (λ _ _, mkApproval "https://example.org/approvals/1") (λ _ _, newStatus).

Definition remoteAccount : Account := mkAccount "01REMOTE" "remote".
Definition localAccount : Account := mkAccount "01LOCAL" "local".

Definition messageOf (verb objectType : string) (obj : option APObject)
    (model : option Model) : FromFediAPI :=
  mkFromFediAPI objectType verb None obj model remoteAccount localAccount.

(** A reply to a local status that asks for approval, with and without a
    matching grant. *)
Definition replyNote : Statusable :=
  mkStatusable "https://remote.example/statuses/01REPLY".

Definition pendingReply : Status :=
  mkStatus "01REPLY" "https://remote.example/statuses/01REPLY" (Some false)
    "01PARENT" "" (Some true) false.

Definition preApprovedReply : Status :=
  mkStatus "01REPLY" "https://remote.example/statuses/01REPLY" (Some false)
    "01PARENT" "" (Some true) true.

Definition createNote : FromFediAPI :=
  messageOf "Create" "Note" (Some (APStatusable replyNote)) None.

(** A like of a local status, pre-approved by a matching grant. *)
Definition preApprovedFave : StatusFave :=
  mkStatusFave "01FAVE" "01TARGET" (Some true) true.

Definition createLike : FromFediAPI :=
  messageOf "Create" "Like" None (Some (MStatusFave preApprovedFave)).

(** A block, and a Create-Block message that carries a status instead. *)
Definition someBlock : Block := mkBlock "01BLOCKER" "01BLOCKED".

Definition createBlock : FromFediAPI :=
  messageOf "Create" "Block" None (Some (MBlock someBlock)).

Definition createBlockWithStatus : FromFediAPI :=
  messageOf "Create" "Block" None (Some (MStatus newStatus)).

(** The world in which deleting the blocker's follow fails. *)
Definition followDeletionFails : World :=
  failingAt (λ c, match c with
                  | DeleteFollow src _ => bool_decide (src = "01BLOCKER")
                  | _ => false
                  end).

(** The resolution step of CreateStatus is one call to the federator. *)
Definition isResolution (c : Call) : bool :=
  match c with
  | RefreshStatus _ _ _ | GetStatusByURI _ _ => true
  | _ => false
  end.

End FediAPI.

(* ===================================================================== *)
(** ** internal/paging: page links, and the pager of paging.go *)
(* ===================================================================== *)

Module PagingLinks.
Import Paging.

Section Reversal.
Context {T : Type} `{EqDecision T}.

(** Whether paging in direction [d] hands its window back reversed: the
    test that PageAsc and PageDesc make on [p.order()]. *)
Definition reverses (d : Direction) (p : Page (T:=T)) : bool :=
  match d with
  | Asc => Descending (order p)
  | Desc => Ascending (order p)
  end.
End Reversal.

(** [strconv.Itoa] *)
Definition Itoa (n : Z) : string := pretty n.

(** Boundary.Query for a page of strings: [fmt.Sprintf("%s=%v", ...)]. *)
Definition Query (b : Boundary (T:=string)) : string :=
  if negb (zero "" (Value b)) then Name b +:+ "=" +:+ Value b else "".

Section Links.
(** [(&url.URL{Scheme, Host, Path, RawQuery}).String()] of net/url. *)
Variable urlString : string → string → string → string → string.

(** Page.ToLink *)
Definition ToLink (p : option (Page (T:=string))) (proto host path : string)
    (queryParams : list string) : string :=
  match p with
  | None => ""
  | Some p =>
      let old := length queryParams in
      let q1 := if bool_decide (Query (Min p) ≠ "")
                then queryParams ++ [Query (Min p)] else queryParams in
      let q2 := if bool_decide (Query (Max p) ≠ "")
                then q1 ++ [Query (Max p)] else q1 in
      if bool_decide (length q2 = old) then ""
      else
        let q3 := if bool_decide (0 < Limit p)
                  then q2 ++ ["limit=" +:+ Itoa (Limit p)] else q2 in
        urlString proto host path (String.concat "&" q3)
  end.
End Links.

(** *** The pager of internal/paging/paging.go *)
Module Pager.

Record Pager := mkPager {
  SinceID : string;
  MinID : string;
  MaxID : string;
  Limit : Z
}.

(** NextPage, PrevPage *)
Definition NextPage (maxID : string) (limit : Z) : Pager := mkPager "" "" maxID limit.
Definition PrevPage (minID : string) (limit : Z) : Pager := mkPager "" minID "" limit.

(** Pager.Next *)
Definition Next (p : option Pager) (maxID : string) : option Pager :=
  if bool_decide (maxID = "") then None
  else match p with
       | None => Some (mkPager "" "" maxID 0)
       | Some p => Some (mkPager "" "" maxID (Limit p))
       end.

(** Pager.Prev *)
Definition Prev (p : option Pager) (minID : string) : option Pager :=
  if bool_decide (minID = "") then None
  else match p with
       | None => Some (mkPager "" minID "" 0)
       | Some p =>
           if bool_decide (SinceID p ≠ "")
           then Some (mkPager minID "" "" (Limit p))
           else Some (mkPager "" minID "" (Limit p))
       end.

(** [for i := 0; i < len(ids); i++ { if ids[i] == id { ids = ids[i+1:]; break } }]:
    [rest] is [ids[i:]]. *)
Fixpoint resliceFrom (id : string) (ids : list string) (i : nat) (rest : list string)
    : list string :=
  match rest with
  | [] => ids
  | x :: rest' =>
      if decide (x = id) then drop (S i) ids
      else resliceFrom id ids (S i) rest'
  end.

(** The same loop with [ids = ids[:i]]. *)
Fixpoint resliceTo (id : string) (ids : list string) (i : nat) (rest : list string)
    : list string :=
  match rest with
  | [] => ids
  | x :: rest' =>
      if decide (x = id) then take i ids
      else resliceTo id ids (S i) rest'
  end.

(** [if p.Limit > 0 && p.Limit < len(ids) { ids = ids[:p.Limit] }] *)
Definition limited (p : Pager) (ids : list string) : list string :=
  if bool_decide (0 < Limit p) && bool_decide (Limit p < Z.of_nat (length ids))
  then take (Z.to_nat (Limit p)) ids
  else ids.

(** Pager.PageAsc *)
Definition PageAsc (p : option Pager) (ids : list string) : list string :=
  match p with
  | None => ids
  | Some p =>
      let '(asc, ids1) :=
        if bool_decide (SinceID p ≠ "") then (false, resliceFrom (SinceID p) ids 0 ids)
        else if bool_decide (MinID p ≠ "") then (true, resliceFrom (MinID p) ids 0 ids)
        else (false, ids) in
      let ids2 :=
        if bool_decide (MaxID p ≠ "") then resliceTo (MaxID p) ids1 0 ids1 else ids1 in
      let ids3 :=
        if negb asc && bool_decide (1 < Z.of_nat (length ids2))
        then reverseClone ids2 else ids2 in
      limited p ids3
  end.

(** Pager.PageDesc *)
Definition PageDesc (p : option Pager) (ids : list string) : list string :=
  match p with
  | None => ids
  | Some p =>
      let ids1 :=
        if bool_decide (MaxID p ≠ "") then resliceFrom (MaxID p) ids 0 ids else ids in
      let '(asc, ids2) :=
        if bool_decide (SinceID p ≠ "") then (false, resliceTo (SinceID p) ids1 0 ids1)
        else if bool_decide (MinID p ≠ "") then (true, resliceTo (MinID p) ids1 0 ids1)
        else (false, ids1) in
      let ids3 :=
        if asc && bool_decide (1 < Z.of_nat (length ids2))
        then reverseClone ids2 else ids2 in
      limited p ids3
  end.

Definition pageOf (d : Direction) : option Pager → list string → list string :=
  match d with Asc => PageAsc | Desc => PageDesc end.

(** The page that [paging.New] builds from a pager's fields. *)
Definition toPage (p : Pager) : Page (T:=string) :=
  New (MinID p) (SinceID p) (MaxID p) (Limit p).

Section Links.
Variable urlString : string → string → string → string → string.

(** buildLink *)
Definition buildLink (proto host path idKey idVal : string) (limit : Z)
    (queryParams : list string) : string :=
  if bool_decide (idVal = "") then ""
  else
    let q1 := queryParams ++ [idKey +:+ "=" +:+ idVal] in
    let q2 := if bool_decide (0 < limit) then q1 ++ ["limit=" +:+ Itoa limit] else q1 in
    urlString proto host path (String.concat "&" q2).

(** Pager.NextLink *)
Definition NextLink (p : option Pager) (proto host path : string)
    (queryParams : list string) : string :=
  match p with
  | None => ""
  | Some p => buildLink proto host path "max_id" (MaxID p) (Limit p) queryParams
  end.

(** Pager.PrevLink *)
Definition PrevLink (p : option Pager) (proto host path : string)
    (queryParams : list string) : string :=
  match p with
  | None => ""
  | Some p =>
      let '(minIDKey, minIDVal) :=
        if bool_decide (MinID p ≠ "") then ("min_id", MinID p)
        else if bool_decide (SinceID p ≠ "") then ("since_id", SinceID p)
        else ("", "") in
      buildLink proto host path minIDKey minIDVal (Limit p) queryParams
  end.
End Links.
End Pager.

(** *** Worked examples *)

(** A URL rendering that keeps the four parts apart. *)
Definition plainURL (proto host path query : string) : string :=
  proto +:+ "://" +:+ host +:+ path +:+ "?" +:+ query.

(** Five IDs, newest first. *)
Definition fiveIDs : list string := ["05"; "04"; "03"; "02"; "01"].

(** The page below "04", two at a time. *)
Definition below04 : Page (T:=string) := New "" "" "04" 2.

(** The pager above "02", ascending. *)
Definition above02 : Pager.Pager := Pager.mkPager "" "02" "" 2.
End PagingLinks.

(* ===================================================================== *)
(** ** internal/paging: the pageable response *)
(* ===================================================================== *)

Module PagingResponse.
Import Paging PagingLinks.

(** The double quote of the [rel="next"] and [rel="prev"] parts. *)
Definition dquote : string := String (Ascii.ascii_of_nat 34) "".

(** apimodel.PageableResponse *)
Record PageableResponse {Item : Type} := mkPageableResponse {
  Items : list Item;
  LinkHeader : string;
  NextLink : string;
  PrevLink : string
}.
Arguments PageableResponse Item : clear implicits.

(** EmptyResponse *)
Definition EmptyResponse {Item : Type} : PageableResponse Item :=
  mkPageableResponse Item [] "" "" "".

(** The page has neither boundary set. *)
Definition unbounded (p : option (Page (T:=string))) : Prop :=
  match p with
  | None => True
  | Some p => Value (Min p) = "" ∧ Value (Max p) = ""
  end.

Section Response.
Context {Item : Type}.
(** [(&url.URL{...}).String()], [config.GetProtocol()], [config.GetHost()]. *)
Variable urlString : string → string → string → string → string.
Variables (proto host : string).

(** PackageResponse, for pages of strings. *)
Definition PackageResponse (items : list Item) (path : string)
    (next prev : option (Page (T:=string))) (query : list string)
    : PageableResponse Item :=
  if bool_decide (length items = 0%nat) then EmptyResponse
  else
    let nextLink := ToLink urlString next proto host path query in
    let prevLink := ToLink urlString prev proto host path query in
    let parts1 :=
      if bool_decide (nextLink ≠ "")
      then ["<" +:+ nextLink +:+ ">; rel=" +:+ dquote +:+ "next" +:+ dquote]
      else [] in
    let parts2 :=
      if bool_decide (prevLink ≠ "")
      then parts1 ++ ["<" +:+ prevLink +:+ ">; rel=" +:+ dquote +:+ "prev" +:+ dquote]
      else parts1 in
    mkPageableResponse Item items (String.concat ", " parts2) nextLink prevLink.
End Response.
End PagingResponse.

(* ===================================================================== *)
(** ** Mute decisions: notifications, and the lookups behind the loader *)
(* ===================================================================== *)

Module MuteLookups.
Import Mutes.

(** Filter.StatusNotificationsMuted: (muted, withExpiry, err). *)
Definition StatusNotificationsMuted (requester : option string) (statusID : string)
    (env : Env) : bool * bool * option string :=
  match getStatusMuteDetails requester statusID env with
  | (Some details, now, None) =>
      if negb (Notifications details) then (false, false, None)
      else if IsZero (NotificationExpiry details) then (true, false, None)
      else (After (NotificationExpiry details) now, true, None)
  | (_, _, Some err) => (false, false, Some ("error getting status mute details: " +:+ err))
  | (None, _, None) => (false, false, None)   (* never produced by getStatusMuteDetails *)
  end.

(** The loader only records a notification expiry for a mute that mutes
    notifications. *)
Definition notifExpiryCounted (a : Acc) : Prop :=
  notifExpiry a ≠ zeroTime → notifs a = true.

(** The mute takes part in the loader's calculation at [now]: it has no
    expiry, or its expiry is not before [now]. *)
Definition unexpired (now : Time) (mute : UserMute) : bool :=
  IsZero (ExpiresAt mute) || negb (Before (ExpiresAt mute) now).

(** *** getStatusRelatedUserMutes *)

(** The error of a storage lookup: db.ErrNoEntries, or any other. *)
Inductive DBErr :=
  | ErrNoEntries
  | ErrOther (msg : string).

(** [errors.Is(err, db.ErrNoEntries)] *)
Definition isNoEntries (err : DBErr) : bool :=
  match err with ErrNoEntries => true | ErrOther _ => false end.

Definition errText (err : DBErr) : string :=
  match err with
  | ErrNoEntries => "sql: no rows in result set"
  | ErrOther msg => msg
  end.

(** DB.GetMute(requesterID, targetID): the mute and the error. *)
Definition GetMuteFn := string → string → option UserMute * option DBErr.

(** [if mute != nil { mutes = append(mutes, mute) }] *)
Definition appendMute (mutes : list UserMute) (mute : option UserMute) : list UserMute :=
  match mute with Some m => mutes ++ [m] | None => mutes end.

(** The loop over [status.Mentions], by the target account of each;
    [mutes] is the slice built so far. *)
Fixpoint mentionMutes (GetMute : GetMuteFn) (requesterID : string)
    (mentions : list string) (mutes : list UserMute) : string + list UserMute :=
  match mentions with
  | [] => inr mutes
  | target :: rest =>
      if bool_decide (target ≠ requesterID) then
        match GetMute requesterID target with
        | (mute, Some err) =>
            if negb (isNoEntries err)
            then inl ("db error getting mention target mute: " +:+ errText err)
            else mentionMutes GetMute requesterID rest (appendMute mutes mute)
        | (mute, None) =>
            mentionMutes GetMute requesterID rest (appendMute mutes mute)
        end
      else mentionMutes GetMute requesterID rest mutes
  end.

(** Filter.getStatusRelatedUserMutes, over the status's author and the
    target accounts of its mentions. *)
Definition getStatusRelatedUserMutes (GetMute : GetMuteFn) (requesterID : string)
    (statusAccountID : string) (mentions : list string) : string + list UserMute :=
  if bool_decide (statusAccountID = requesterID) then inr []
  else
    match GetMute requesterID statusAccountID with
    | (mute, Some err) =>
        if negb (isNoEntries err)
        then inl ("db error getting status author mute: " +:+ errText err)
        else mentionMutes GetMute requesterID mentions (appendMute [] mute)
    | (mute, None) =>
        mentionMutes GetMute requesterID mentions (appendMute [] mute)
    end.

(** The lookup failed with an error other than "no entries". *)
Definition fails (GetMute : GetMuteFn) (requesterID target : string) : bool :=
  match snd (GetMute requesterID target) with
  | Some err => negb (isNoEntries err)
  | None => false
  end.

(** The accounts whose mute getStatusRelatedUserMutes looks up, in
    order. *)
Definition consulted (requesterID statusAccountID : string) (mentions : list string)
    : list string :=
  if bool_decide (statusAccountID = requesterID) then []
  else statusAccountID :: filter (λ t, t ≠ requesterID) mentions.

(** *** Worked examples *)

(** A muted author whose mute of notifications runs until 50, in a
    decision loaded at 10. *)
Definition notifsMutedUntil50 : CachedMute :=
  loadDetails 10 "01REQ" "01STATUS" false [mkUserMute 50 true].

(** A mute without expiry beside one that runs until 50. *)
Definition permanentAndTemporary : list UserMute :=
  [mkUserMute 0 false; mkUserMute 50 false].

(** A cache hit on [d] at the time [now]. *)
Definition hitAt (now : Time) (d : CachedMute) : Env :=
  mkEnv now (Some d) (inr false) (inr []).
End MuteLookups.

(* ===================================================================== *)
(** ** internal/cache: the sweep of the account cache, and the states it
    can be in *)
(* ===================================================================== *)

Module CacheSweep.
Import Cache.

(** The evict hook set by SetEvictionCallback(nil): remove the lookups of
    the evicted account. *)
Definition evictHook (account : Account) (c : AccountCache) : AccountCache :=
  mkAccountCache (cache c) (ttl c)
    (delete (URL account) (urls c)) (delete (URI account) (uris c)).

(** [t.After(u)] on the times of the cache clock. *)
Definition After (t u : Time) : bool := bool_decide (u < t).

(** One turn of [for key, item := range c.cache] in Cache.sweep. A turn
    deletes no key but its own, so that the item it reads is the one the
    map held when the loop began. *)
Definition sweepStep (now : Time) (h : Heap Account) (c : outcome AccountCache)
    (kv : string * entry) : outcome AccountCache :=
  obind c (λ c,
    if After (expiry kv.2) now then
      match cells h !! value kv.2 with
      | None => Panics "invalid memory address or nil pointer dereference"
      | Some account =>
          let c1 := evictHook account c in
          Returns (mkAccountCache (delete kv.1 (cache c1)) (ttl c1) (urls c1) (uris c1))
      end
    else Returns c).

(** Cache.sweep at the time [now] of the cache clock, over the entries in
    the order in which the map yields them. *)
Definition sweep (now : Time) (s : State) : outcome State :=
  obind (foldl (sweepStep now (heap s)) (Returns (ac s)) (map_to_list (cache (ac s))))
    (λ c, Returns (mkState (heap s) c)).

(** The entry is one that a sweep at [now] evicts. *)
Definition evictable (now : Time) (e : entry) : Prop := After (expiry e) now = true.

(** What can happen to an account cache and the heap it lives in: the
    cache's own operations, and a caller that allocates, or writes
    through a pointer that the cache does not hold. *)
Inductive step : State → State → Prop :=
  | step_Set p now s s' : Set_ (Some p) now s = Returns s' → step s s'
  | step_Get k now s s' r : Get k now s = Returns (s', r) → step s s'
  | step_sweep now s s' : sweep now s = Returns s' → step s s'
  | step_alloc a s : step s (mkState (fst (alloc a (heap s))) (ac s))
  | step_store p a s :
      is_Some (cells (heap s) !! p) → ¬ cachedPtr s p →
      step s (mkState (store p a (heap s)) (ac s)).

Inductive reachable : State → Prop :=
  | reachable_New h :
      map_Forall (λ p _, (p < next h)%nat) (cells h) → reachable (NewAccount h)
  | reachable_step s s' : reachable s → step s s' → reachable s'.

(** Every entry is kept under the ID of its account. *)
Definition keyed (s : State) : Prop :=
  ∀ k e, cache (ac s) !! k = Some e →
    ∃ a, cells (heap s) !! value e = Some a ∧ ID a = k.

(** The account that the cache holds under [id]. *)
Definition holds (s : State) (id : string) (a : Account) : Prop :=
  ∃ e, cache (ac s) !! id = Some e ∧ cells (heap s) !! value e = Some a.

(** Every URI and URL lookup leads to an entry whose account has that URI
    or URL, and no lookup is kept for the empty URL. *)
Definition indexed (s : State) : Prop :=
  (∀ u id, uris (ac s) !! u = Some id → ∃ a, holds s id a ∧ URI a = u) ∧
  (∀ u id, urls (ac s) !! u = Some id → u ≠ "" ∧ ∃ a, holds s id a ∧ URL a = u).

Definition consistent (s : State) : Prop :=
  wellFormed s ∧ keyed s ∧ indexed s ∧ ttl (ac s) = 5 * 60 * 1000000000.

(** The account that a Set under [id] replaces, if any. *)
Definition replaced (s : State) (id : string) : option Account :=
  cache (ac s) !! id ≫= λ item, cells (heap s) !! value item.

(** The account is one that the key asks for. *)
Definition matches (k : Key) (a : Account) : Prop :=
  match k with
  | ByID id => ID a = id
  | ByURI uri => URI a = uri
  | ByURL url => URL a = url
  end.

(** *** Worked example: the cache of [afterSet], swept one tick after the
    account went in *)
Definition afterSweep : State :=
  match sweep 1 afterSet with
  | Returns s => s
  | Panics _ => afterSet
  end.
End CacheSweep.

(* ===================================================================== *)
(** ** internal/cache: the emoji cache *)
(* ===================================================================== *)

Module EmojiCache.
Import Cache.

Section Emoji.
(** gtsmodel.Emoji, of which the cache reads the ID. *)
Context {Emoji : Type} (EmojiID : Emoji → string).

(** EmojiCache: the Cache it wraps, with the empty hooks of Cache.init. *)
Record EmojiCache := mkEmojiCache {
  ecache : gmap string entry;
  ettl : Time
}.

Record EState := mkEState {
  eheap : Heap Emoji;
  ec : EmojiCache
}.

(** NewEmoji *)
Definition NewEmoji (h : Heap Emoji) : EState :=
  mkEState h (mkEmojiCache ∅ (5 * 60 * 1000000000)).

(** EmojiCache.Get, over Cache.Get: the pointer kept in the entry. *)
Definition EGet (id : string) (now : Time) (s : EState) : EState * option ptr :=
  match ecache (ec s) !! id with
  | None => (s, None)
  | Some item =>
      (mkEState (eheap s)
         (mkEmojiCache (<[id := mkEntry (value item) (now + ettl (ec s))]> (ecache (ec s)))
            (ettl (ec s))),
       Some (value item))
  end.

(** EmojiCache.Set, over Cache.Set: the pointer handed in is kept. *)
Definition ESet (emoji : option ptr) (now : Time) (s : EState) : outcome EState :=
  match emoji with
  | None => Panics "invalid emoji"
  | Some p =>
      match cells (eheap s) !! p with
      | None => Panics "invalid memory address or nil pointer dereference"
      | Some e =>
          if bool_decide (EmojiID e = "") then Panics "invalid emoji"
          else
            Returns (mkEState (eheap s)
              (mkEmojiCache (<[EmojiID e := mkEntry p (now + ettl (ec s))]> (ecache (ec s)))
                 (ettl (ec s))))
      end
  end.
End Emoji.

(** *** Worked examples: emoji as (ID, shortcode) pairs, and one
    notification held by a caller at address 0 *)
Definition blobcat : string * string := ("01BLOBCAT", "blobcat").

Definition emojiHeap : Heap (string * string) := fst (alloc blobcat (mkHeap ∅ 0%nat)).

Definition afterESet : EState (Emoji:=string * string) :=
  match ESet fst (Some 0%nat) 0 (NewEmoji emojiHeap) with
  | Returns s => s
  | Panics _ => NewEmoji emojiHeap
  end.

Definition someNotification : Notification :=
  mkNotification "01NOTIF" "favourite" (Some 5%nat) (Some 6%nat) (Some 7%nat).

Definition notificationHeap : Heap Notification :=
  fst (alloc someNotification (mkHeap ∅ 0%nat)).

Definition afterPut : NState :=
  match Put (Some 0%nat) (mkNState notificationHeap ∅) with
  | Returns s => s
  | Panics _ => mkNState notificationHeap ∅
  end.
End EmojiCache.

(* ===================================================================== *)
(** ** internal/processing/workers: further worlds and messages *)
(* ===================================================================== *)

Module FediAPIExamples.
Import FediAPI.

(** A like that asks for no approval. *)
Definition plainFave : StatusFave := mkStatusFave "01FAVE" "01TARGET" None false.

Definition createPlainLike : FromFediAPI :=
  messageOf "Create" "Like" None (Some (MStatusFave plainFave)).

(** A boost whose target cannot be retrieved. *)
Definition someBoost : Status :=
  mkStatus "01BOOST" "https://remote.example/statuses/01BOOST" (Some false)
    "" "01TARGET" None false.

Definition createAnnounce : FromFediAPI :=
  messageOf "Create" "Announce" None (Some (MStatus someBoost)).

Definition targetGone : error := mkError "status is gone" true false.

Definition boostTargetGone : World :=
  mkWorld (λ _ c, match c with EnrichAnnounce _ _ => Some targetGone | _ => None end)
    (λ _ _, (newStatus, None))
    (λ _ _, mkApproval "https://example.org/approvals/1") (λ _ _, newStatus).
End FediAPIExamples.

(* ===================================================================== *)
(** ** internal/processing/workers: the other handlers of the federation API *)
(* ===================================================================== *)

Module Handlers.

(** *** Errors: the message, and whether [errors.Is(err, db.ErrNoEntries)] *)
Record error := mkError {
  text : string;
  noEntries : bool
}.

(** gtserror.Newf without a wrapped error. *)
Definition Newf (msg : string) : error := mkError msg false.

(** gtserror.Newf with a trailing [%w]. *)
Definition Wrapf (msg : string) (err : error) : error :=
  mkError (msg +:+ text err) (noEntries err).

(** *** The models, with the fields that these handlers read *)

Record Account := mkAccount {
  AccountID : string;
  AccountURI : string;
  Username : string
}.

Record Status := mkStatus {
  StatusID : string;
  StatusURI : string;
  InReplyToID : string;
  BoostOfID : string;
  StatusAccount : option Account
}.

Record FollowRequest := mkFollowRequest {
  FRAccountID : string;
  FRTargetAccountID : string
}.

Record Follow := mkFollow {
  FollowID : string
}.

(** gtsmodel.PollVote with its poll and the poll's origin status, as
    they stand once PopulatePollVote and PopulatePoll have filled them
    in: [PollStatusID] is [vote.Poll.StatusID], [PollStatus] is
    [vote.Poll.Status] and [PollStatusLocal] is [*status.Local]. *)
Record PollVote := mkPollVote {
  VoteID : string;
  PollID : string;
  Choices : list Z;
  PollStatusID : string;
  PollStatus : Status;
  PollStatusLocal : bool
}.

Record Report := mkReport {
  ReportID : string
}.

(** The dynamic type behind [fMsg.GTSModel interface{}]. *)
Inductive Model :=
  | MStatus (s : Status)
  | MAccount (a : Account)
  | MFollowRequest (r : FollowRequest)
  | MPollVote (v : PollVote)
  | MReport (r : Report)
  | MOther (typeName : string).

(** The [%T] rendering used in the cast errors. *)
Definition typeOfModel (m : option Model) : string :=
  match m with
  | None => "<nil>"
  | Some (MStatus _) => "*gtsmodel.Status"
  | Some (MAccount _) => "*gtsmodel.Account"
  | Some (MFollowRequest _) => "*gtsmodel.FollowRequest"
  | Some (MPollVote _) => "*gtsmodel.PollVote"
  | Some (MReport _) => "*gtsmodel.Report"
  | Some (MOther n) => n
  end.

(** The dynamic type behind [fMsg.APObject interface{}]. *)
Inductive APObject :=
  | APAccountable (id : string)
  | APOther (typeName : string).

Definition typeOfObject (o : option APObject) : string :=
  match o with
  | None => "<nil>"
  | Some (APAccountable _) => "ap.Accountable"
  | Some (APOther n) => n
  end.

(** messages.FromFediAPI *)
Record FromFediAPI := mkFromFediAPI {
  APObject_ : option APObject;
  GTSModel : option Model;
  Requesting : Account;
  Receiving : Account
}.

(** *** Collaborators, as calls that leave a trace *)

(** The three worker queues of [state.Workers]. *)
Inductive QueueName := Delivery | Client | Federator.

Inductive Call :=
  (* state.DB *)
  | PopulateStatus (status : Status)
  | PopulateFollowRequest (followRequest : FollowRequest)
  | AcceptFollowRequest (accountID targetAccountID : string)
  | PutPollVote (vote : PollVote)
  | PopulatePollVote (vote : PollVote)
  | PopulatePoll (pollID : string)
  (* state.Workers.<queue>.Queue.Delete(index, key) *)
  | QueueDelete (queue : QueueName) (index key : string)
  (* utils *)
  | wipeStatus (status : Status) (deleteAttachments : bool)
  | incrementStatusesCount (account : option Account) (status : Status)
  | decrementStatusesCount (account : Account)
  | incrementFollowersCount (account : Account)
  | incrementFollowingCount (account : Account)
  | incrementFollowRequestsCount (account : Account)
  | decrementFollowRequestsCount (account : Account)
  (* surface *)
  | invalidateStatusFromTimelines (statusID : string)
  | timelineAndNotifyStatus (status : Status)
  | notifyFollowRequest (followRequest : FollowRequest)
  | notifyFollow (follow : Follow)
  | emailAdminReportOpened (report : Report)
  (* federate *)
  | federateCreateStatus (status : Status)
  | federateAnnounce (boost : Status)
  | federateAcceptFollow (follow : Follow)
  | federateUpdateStatus (status : Status)
  | RefreshAccount (requestUser : string) (account : Account) (accountable : string)
  (* account.Delete, gtsmodel.Poll.IncrementVotes *)
  | accountDelete (account : Account) (origin : string)
  | IncrementVotes (pollID : string) (choices : list Z).

Inductive Event :=
  | Called (c : Call)
  | Errorf (line : string).

Definition Trace := list Event.

(** The collaborator calls of a trace, in order, the log left out. *)
Definition calls (t : Trace) : list Call :=
  omap (λ e, match e with Called c => Some c | Errorf _ => None end) t.

(** How the world answers: whether a call made after the history [t]
    fails, and what it hands back when it does not. *)
Record World := mkWorld {
  errOf : Trace → Call → option error;
  lockedOf : Trace → Call → bool;    (* [*followRequest.TargetAccount.Locked] *)
  followOf : Trace → Call → Follow
}.

Inductive res (A : Type) : Type :=
  | Ret (a : A)
  | Abort (err : error).
Arguments Ret {A} a.
Arguments Abort {A} err.

Definition M (A : Type) : Type := World → Trace → Trace * res A.

#[export] Instance H_ret : MRet M := λ A a _ t, (t, Ret a).

#[export] Instance H_bind : MBind M := λ A B f m w t,
  match m w t with
  | (t', Ret a) => f a w t'
  | (t', Abort err) => (t', Abort err)
  end.

Definition abort {A} (err : error) : M A := λ _ t, (t, Abort err).

Definition invoke (c : Call) : M (option error) :=
  λ w t, (t ++ [Called c], Ret (errOf w t c)).

Definition perform (c : Call) : M unit :=
  λ _ t, (t ++ [Called c], Ret tt).

Definition invokeFor {A} (valueOf : World → Trace → Call → A) (c : Call)
    : M (error + A) :=
  λ w t, (t ++ [Called c],
          Ret (match errOf w t c with
               | Some err => inl err
               | None => inr (valueOf w t c)
               end)).

Definition logError (line : string) : M unit :=
  λ _ t, (t ++ [Errorf line], Ret tt).

(** [if err := c; err != nil { log.Errorf(ctx, label+"%v", err) }] *)
Definition orLog (c : Call) (label : string) : M unit :=
  e ← invoke c;
  match e with
  | Some err => logError (label +:+ text err)
  | None => mret tt
  end.

(** [if err := c; err != nil { return gtserror.Newf(label+"%w", err) }] *)
Definition orAbort (c : Call) (label : string) : M unit :=
  e ← invoke c;
  match e with
  | Some err => abort (Wrapf label err)
  | None => mret tt
  end.

(** *** fediAPI.CreatePollVote *)
Definition CreatePollVote (fMsg : FromFediAPI) : M unit :=
  match GTSModel fMsg with
  | Some (MPollVote vote) =>
      orAbort (PutPollVote vote) "error inserting poll vote in db: ";;
      orAbort (PopulatePollVote vote) "error populating poll vote from db: ";;
      orAbort (PopulatePoll (PollID vote)) "error populating poll from db: ";;
      perform (invalidateStatusFromTimelines (PollStatusID vote));;
      if PollStatusLocal vote then
        perform (IncrementVotes (PollID vote) (Choices vote));;
        orLog (federateUpdateStatus (PollStatus vote)) "error federating status update: "
      else mret tt
  | other =>
      abort (Newf ("cannot cast " +:+ typeOfModel other +:+ " -> *gtsmodel.PollVote"))
  end.

(** *** fediAPI.CreateFollowReq *)
Definition CreateFollowReq (fMsg : FromFediAPI) : M unit :=
  match GTSModel fMsg with
  | Some (MFollowRequest followRequest) =>
      r ← invokeFor lockedOf (PopulateFollowRequest followRequest);
      match r with
      | inl err => abort (Wrapf "error populating follow request: " err)
      | inr locked =>
          if locked : bool then
            orLog (notifyFollowRequest followRequest) "error notifying follow request: ";;
            orLog (incrementFollowRequestsCount (Receiving fMsg))
              "error updating account stats: "
          else
            r ← invokeFor followOf
                  (AcceptFollowRequest (FRAccountID followRequest)
                     (FRTargetAccountID followRequest));
            match r with
            | inl err => abort (Wrapf "error accepting follow request: " err)
            | inr follow =>
                orLog (incrementFollowersCount (Receiving fMsg))
                  "error updating account stats: ";;
                orLog (incrementFollowingCount (Requesting fMsg))
                  "error updating account stats: ";;
                orLog (federateAcceptFollow follow)
                  "error federating follow request accept: ";;
                orLog (notifyFollow follow) "error notifying follow: "
            end
      end
  | other =>
      abort (Newf (typeOfModel other +:+ " not parseable as *gtsmodel.FollowRequest"))
  end.

(** *** fediAPI.CreateFlag *)
Definition CreateFlag (fMsg : FromFediAPI) : M unit :=
  match GTSModel fMsg with
  | Some (MReport incomingReport) =>
      orLog (emailAdminReportOpened incomingReport) "error emailing report opened: "
  | other =>
      abort (Newf (typeOfModel other +:+ " not parseable as *gtsmodel.Report"))
  end.

(** *** fediAPI.UpdateAccount *)
Definition UpdateAccount (fMsg : FromFediAPI) : M unit :=
  match GTSModel fMsg with
  | Some (MAccount account) =>
      match APObject_ fMsg with
      | Some (APAccountable apubAcc) =>
          orLog (RefreshAccount (Username (Receiving fMsg)) account apubAcc)
            "error refreshing account: "
      | other =>
          abort (Newf ("cannot cast " +:+ typeOfObject other +:+ " -> ap.Accountable"))
      end
  | other =>
      abort (Newf ("cannot cast " +:+ typeOfModel other +:+ " -> *gtsmodel.Account"))
  end.

(** *** fediAPI.AcceptFollow *)
Definition AcceptFollow (fMsg : FromFediAPI) : M unit :=
  orLog (decrementFollowRequestsCount (Requesting fMsg)) "error updating account stats: ";;
  orLog (incrementFollowersCount (Requesting fMsg)) "error updating account stats: ";;
  orLog (incrementFollowingCount (Receiving fMsg)) "error updating account stats: ".

(** *** fediAPI.AcceptLike *)
Definition AcceptLike (fMsg : FromFediAPI) : M unit := mret tt.

(** *** fediAPI.AcceptReply *)
Definition AcceptReply (fMsg : FromFediAPI) : M unit :=
  match GTSModel fMsg with
  | Some (MStatus status) =>
      orLog (incrementStatusesCount (StatusAccount status) status)
        "error updating account stats: ";;
      orLog (timelineAndNotifyStatus status) "error timelining and notifying status: ";;
      perform (invalidateStatusFromTimelines (InReplyToID status));;
      orLog (federateCreateStatus status) "error federating announce: "
  | other =>
      abort (Newf (typeOfModel other +:+ " not parseable as *gtsmodel.Status"))
  end.

(** *** fediAPI.AcceptAnnounce *)
Definition AcceptAnnounce (fMsg : FromFediAPI) : M unit :=
  match GTSModel fMsg with
  | Some (MStatus boost) =>
      orLog (incrementStatusesCount (StatusAccount boost) boost)
        "error updating account stats: ";;
      orLog (timelineAndNotifyStatus boost) "error timelining and notifying status: ";;
      perform (invalidateStatusFromTimelines (BoostOfID boost));;
      orLog (federateAnnounce boost) "error federating announce: "
  | other =>
      abort (Newf (typeOfModel other +:+ " not parseable as *gtsmodel.Status"))
  end.

(** *** fediAPI.DeleteStatus *)
Definition DeleteStatus (fMsg : FromFediAPI) : M unit :=
  let deleteAttachments := true in
  match GTSModel fMsg with
  | Some (MStatus status) =>
      e ← invoke (PopulateStatus status);
      match e with
      | Some err =>
          if negb (noEntries err) then abort (Wrapf "db error populating status: " err)
          else mret tt
      | None => mret tt
      end;;
      perform (QueueDelete Delivery "ObjectID" (StatusURI status));;
      perform (QueueDelete Delivery "TargetID" (StatusURI status));;
      perform (QueueDelete Client "TargetURI" (StatusURI status));;
      perform (QueueDelete Federator "TargetURI" (StatusURI status));;
      orLog (wipeStatus status deleteAttachments) "error wiping status: ";;
      orLog (decrementStatusesCount (Requesting fMsg)) "error updating account stats: ";;
      if bool_decide (InReplyToID status ≠ "")
      then perform (invalidateStatusFromTimelines (InReplyToID status))
      else mret tt
  | other =>
      abort (Newf (typeOfModel other +:+ " not parseable as *gtsmodel.Status"))
  end.

(** *** fediAPI.DeleteAccount *)
Definition DeleteAccount (fMsg : FromFediAPI) : M unit :=
  match GTSModel fMsg with
  | Some (MAccount account) =>
      perform (QueueDelete Delivery "ObjectID" (AccountURI account));;
      perform (QueueDelete Delivery "TargetID" (AccountURI account));;
      perform (QueueDelete Client "Target.ID" (AccountID account));;
      perform (QueueDelete Client "TargetURI" (AccountURI account));;
      perform (QueueDelete Federator "Requesting.ID" (AccountID account));;
      perform (QueueDelete Federator "TargetURI" (AccountURI account));;
      orLog (accountDelete account (AccountID account)) "error deleting account: "
  | other =>
      abort (Newf (typeOfModel other +:+ " not parseable as *gtsmodel.Account"))
  end.

(** *** The handlers by name, and what each one casts its message to *)
Inductive Handler :=
  | hCreatePollVote | hCreateFollowReq | hCreateFlag | hUpdateAccount
  | hAcceptFollow | hAcceptLike | hAcceptReply | hAcceptAnnounce
  | hDeleteStatus | hDeleteAccount.

Definition handler (h : Handler) : FromFediAPI → M unit :=
  match h with
  | hCreatePollVote => CreatePollVote
  | hCreateFollowReq => CreateFollowReq
  | hCreateFlag => CreateFlag
  | hUpdateAccount => UpdateAccount
  | hAcceptFollow => AcceptFollow
  | hAcceptLike => AcceptLike
  | hAcceptReply => AcceptReply
  | hAcceptAnnounce => AcceptAnnounce
  | hDeleteStatus => DeleteStatus
  | hDeleteAccount => DeleteAccount
  end.

(** The message carries what the handler's casts ask for. *)
Definition castable (h : Handler) (fMsg : FromFediAPI) : bool :=
  match h, GTSModel fMsg, APObject_ fMsg with
  | hCreatePollVote, Some (MPollVote _), _ => true
  | hCreateFollowReq, Some (MFollowRequest _), _ => true
  | hCreateFlag, Some (MReport _), _ => true
  | hUpdateAccount, Some (MAccount _), Some (APAccountable _) => true
  | (hAcceptFollow | hAcceptLike), _, _ => true
  | (hAcceptReply | hAcceptAnnounce | hDeleteStatus), Some (MStatus _), _ => true
  | hDeleteAccount, Some (MAccount _), _ => true
  | _, _, _ => false
  end.

(** The handlers whose every collaborator failure is logged. *)
Definition bestEffort (h : Handler) : bool :=
  match h with
  | hCreatePollVote | hCreateFollowReq | hDeleteStatus => false
  | _ => true
  end.

(** What DeleteStatus does once the status is populated or found to be
    gone: the purge of the queued messages about the status, the wipe,
    the counter, and the invalidation of the status replied to. *)
Definition statusDeletion (fMsg : FromFediAPI) (status : Status) : list Call :=
  [ QueueDelete Delivery "ObjectID" (StatusURI status);
    QueueDelete Delivery "TargetID" (StatusURI status);
    QueueDelete Client "TargetURI" (StatusURI status);
    QueueDelete Federator "TargetURI" (StatusURI status);
    wipeStatus status true;
    decrementStatusesCount (Requesting fMsg) ] ++
  (if bool_decide (InReplyToID status ≠ "")
   then [invalidateStatusFromTimelines (InReplyToID status)] else []).

(** The purge of the queued messages to, from or about an account. *)
Definition accountPurge (account : Account) : list Call :=
  [ QueueDelete Delivery "ObjectID" (AccountURI account);
    QueueDelete Delivery "TargetID" (AccountURI account);
    QueueDelete Client "Target.ID" (AccountID account);
    QueueDelete Client "TargetURI" (AccountURI account);
    QueueDelete Federator "Requesting.ID" (AccountID account);
    QueueDelete Federator "TargetURI" (AccountURI account) ].

(** What follows the three storage steps of CreatePollVote. *)
Definition voteEffects (vote : PollVote) : list Call :=
  invalidateStatusFromTimelines (PollStatusID vote) ::
  (if PollStatusLocal vote
   then [IncrementVotes (PollID vote) (Choices vote);
         federateUpdateStatus (PollStatus vote)]
   else []).

(** The storage error of the calls picked out by [bad], every other call
    succeeding; the follow request's target is locked or not. *)
Definition failingAt (bad : Call → option error) (locked : bool) : World :=
  mkWorld (λ _ c, bad c) (λ _ _, locked) (λ _ _, mkFollow "01FOLLOW").

Definition remoteAccount : Account :=
  mkAccount "01REMOTE" "https://remote.example/users/remote" "remote".
Definition localAccount : Account :=
  mkAccount "01LOCAL" "https://example.org/users/local" "local".

Definition messageWith (model : option Model) : FromFediAPI :=
  mkFromFediAPI None model remoteAccount localAccount.

Definition someReply : Status :=
  mkStatus "01REPLY" "https://remote.example/statuses/01REPLY" "01PARENT" ""
    (Some remoteAccount).

Definition someFollowRequest : FollowRequest := mkFollowRequest "01REMOTE" "01LOCAL".

(** A vote in the poll of a local status. *)
Definition someVote : PollVote :=
  mkPollVote "01VOTE" "01POLL" [1] "01PARENT"
    (mkStatus "01PARENT" "https://example.org/statuses/01PARENT" "" "" (Some localAccount))
    true.

(** Every call succeeds. *)
Definition calm (locked : bool) : World := failingAt (λ _, None) locked.

(** The status to delete is no longer in the database. *)
Definition statusGone : World :=
  failingAt (λ c, match c with
                  | PopulateStatus _ => Some (mkError "sql: no rows in result set" true)
                  | _ => None
                  end) false.
End Handlers.

(* ===================================================================== *)
(** * Properties *)
(* ===================================================================== *)

Module PagingFacts.
Import Paging.

Section Generic.
Context {T : Type} `{EqDecision T} (zeroT : T).
Implicit Types (l input keys : list T) (b : Boundary (T:=T)) (p : Page (T:=T)).

Lemma scan_list_find v l i :
  scan v i l =
    match list_find (λ x, x = v) l with
    | Some r => i + Z.of_nat (fst r)
    | None => -1
    end.
Proof.
  revert i. induction l as [|x l IH]; intros i; simpl; [done|].
  destruct (decide (x = v)) as [->|Hne]; simpl; [lia|].
  rewrite IH. destruct (list_find _ l) as [[k y]|]; simpl; lia.
Qed.

Lemma Find_located b l :
  Find zeroT b l =
    match located zeroT b l with Some k => Z.of_nat k | None => -1 end.
Proof.
  unfold Find, located. destruct (zero zeroT (Value b)); [done|].
  rewrite scan_list_find.
  destruct (list_find _ l) as [[k y]|]; simpl; lia.
Qed.

Lemma swapLoop_middle turns (mid pre post : list T) :
  (length mid ≤ turns)%nat →
  swapLoop turns (Z.of_nat (length pre))
      (Z.of_nat (length pre + length mid) - 1) (pre ++ mid ++ post)
    = pre ++ reverse mid ++ post.
Proof.
  revert mid pre post.
  induction turns as [|turns IH]; intros mid pre post Hlen.
  { destruct mid; [done | simpl in Hlen; lia]. }
  destruct mid as [|a mid].
  { simpl. rewrite bool_decide_eq_false_2 by lia. done. }
  destruct mid as [|b mid _] using rev_ind.
  { simpl. rewrite bool_decide_eq_false_2 by lia. done. }
  simpl. rewrite length_app in *. simpl in *.
  rewrite bool_decide_eq_true_2 by lia.
  replace (Z.to_nat (Z.of_nat (length pre))) with (length pre + 0)%nat by lia.
  replace (Z.to_nat (Z.of_nat (length pre + S (length mid + 1)) - 1))
    with (length (pre ++ a :: mid) + 0)%nat
    by (rewrite length_app; simpl; lia).
  rewrite lookup_app_r by lia.
  replace (length pre + 0 - length pre)%nat with 0%nat by lia. simpl.
  replace (pre ++ a :: (mid ++ [b]) ++ post)
    with ((pre ++ a :: mid) ++ b :: post) at 1
    by (rewrite <- !app_assoc; done).
  rewrite lookup_app_r by lia.
  replace (length (pre ++ a :: mid) + 0 - length (pre ++ a :: mid))%nat
    with 0%nat by lia. simpl.
  rewrite insert_app_r. simpl.
  replace (pre ++ b :: (mid ++ [b]) ++ post)
    with ((pre ++ b :: mid) ++ b :: post)
    by (rewrite <- !app_assoc; done).
  replace (length (pre ++ a :: mid)) with (length (pre ++ b :: mid))
    by (rewrite !length_app; done).
  rewrite insert_app_r. simpl.
  replace ((pre ++ b :: mid) ++ a :: post)
    with ((pre ++ [b]) ++ mid ++ a :: post)
    by (rewrite <- !app_assoc; done).
  replace (Z.of_nat (length pre) + 1) with (Z.of_nat (length (pre ++ [b])))
    by (rewrite length_app; simpl; lia).
  replace (Z.of_nat (length pre + S (length mid + 1)) - 1 - 1)
    with (Z.of_nat (length (pre ++ [b]) + length mid) - 1)
    by (rewrite length_app; simpl; lia).
  rewrite IH by (rewrite length_app in Hlen; simpl in Hlen; lia).
  rewrite reverse_cons, reverse_app. simpl.
  rewrite <- !app_assoc. done.
Qed.

Lemma reverseClone_reverse l : reverseClone l = reverse l.
Proof.
  unfold reverseClone.
  pose proof (swapLoop_middle (length l) l [] [] (le_n _)) as H.
  simpl in H. rewrite !app_nil_r in H. done.
Qed.

Lemma located_Some b l k :
  located zeroT b l = Some k ↔
    zero zeroT (Value b) = false ∧ l !! k = Some (Value b) ∧
    ∀ j, (j < k)%nat → l !! j ≠ Some (Value b).
Proof.
  unfold located. destruct (zero zeroT (Value b)).
  { split; [done | intros [? _]; done]. }
  split.
  - destruct (list_find _ l) as [[k' y]|] eqn:E; simpl; [|done].
    intros [= ->]. apply list_find_Some in E as (Hk & -> & Hmin).
    split_and!; [done..|]. intros j Hj Hjv. by eapply Hmin.
  - intros (_ & Hk & Hmin).
    rewrite (proj2 (list_find_Some _ l k (Value b))); [done|].
    split_and!; [done..|]. intros j y Hjy Hj ->. by eapply Hmin.
Qed.

Lemma located_None b l :
  located zeroT b l = None ↔ zero zeroT (Value b) = true ∨ Value b ∉ l.
Proof.
  unfold located. destruct (zero zeroT (Value b)).
  { split; [by left | done]. }
  rewrite fmap_None, list_find_None, Forall_forall. split.
  - intros Hall. right. intros Hin. by apply (Hall _ Hin).
  - intros [Hz | Hnot] x Hin Hx; [done | by subst].
Qed.

Lemma located_drop_Some b l i j :
  located zeroT b l = Some j → (i < j)%nat →
  located zeroT b (drop (S i) l) = Some (j - S i)%nat.
Proof.
  rewrite !located_Some. intros (Hz & Hj & Hmin) Hij.
  split_and!; [done| |].
  - rewrite lookup_drop. rewrite <- Hj. f_equal. lia.
  - intros k Hk. rewrite lookup_drop. apply Hmin. lia.
Qed.

Lemma located_drop_None b l n :
  located zeroT b l = None → located zeroT b (drop n l) = None.
Proof.
  rewrite !located_None. intros [?|Hnot]; [by left|right].
  intros Hin. apply Hnot. eapply subseteq_drop. done.
Qed.

Lemma window_between bLo bHi input :
  inOrder (located zeroT bLo input) (located zeroT bHi input) →
  window zeroT bLo bHi input
    = strictlyBetween (located zeroT bLo input) (located zeroT bHi input) input.
Proof.
  unfold window, strictlyBetween, sliceFrom, sliceTo.
  rewrite (Find_located bLo input).
  destruct (located zeroT bLo input) as [i|] eqn:Hlo.
  - rewrite (bool_decide_eq_true_2 (Z.of_nat i ≠ -1)) by lia.
    replace (Z.to_nat (Z.of_nat i + 1)) with (S i) by lia.
    rewrite Find_located.
    destruct (located zeroT bHi input) as [j|] eqn:Hhi; simpl.
    + intros Hij. rewrite (located_drop_Some _ _ _ _ Hhi Hij).
      rewrite bool_decide_eq_true_2 by lia.
      rewrite Nat2Z.id, take_drop_commute. do 2 f_equal. lia.
    + intros _. rewrite (located_drop_None _ _ _ Hhi).
      by rewrite bool_decide_eq_false_2 by lia.
  - intros _. rewrite (bool_decide_eq_false_2 (-1 ≠ -1)) by lia.
    rewrite Find_located.
    destruct (located zeroT bHi input) as [j|].
    + rewrite bool_decide_eq_true_2 by lia. by rewrite Nat2Z.id.
    + by rewrite bool_decide_eq_false_2 by lia.
Qed.

Lemma truncate_cut p l : truncate p l = cutToLimit (Limit p) l.
Proof.
  unfold truncate, cutToLimit, sliceTo.
  destruct (bool_decide (0 < Limit p)); simpl; [|done].
  case_bool_decide; [done|]. rewrite take_ge; [done|lia].
Qed.

Lemma reverse_short l : ¬ 1 < Z.of_nat (length l) → reverse l = l.
Proof. destruct l as [|x [|y l]]; simpl; [done..|lia]. Qed.

Lemma maybe_reverse (c : bool) l :
  (if c && bool_decide (1 < Z.of_nat (length l)) then reverseClone l else l)
    = if c then reverse l else l.
Proof.
  destruct c; simpl; [|done]. case_bool_decide.
  - apply reverseClone_reverse.
  - by rewrite reverse_short.
Qed.


Lemma PageAsc_window p input :
  PageAsc zeroT (Some p) input
    = cutToLimit (Limit p)
        (if Descending (order p) then reverse (window zeroT (Min p) (Max p) input)
         else window zeroT (Min p) (Max p) input).
Proof.
  unfold PageAsc. cbv zeta. fold (window zeroT (Min p) (Max p) input).
  by rewrite maybe_reverse, truncate_cut.
Qed.

Lemma PageDesc_window p input :
  PageDesc zeroT (Some p) input
    = cutToLimit (Limit p)
        (if Ascending (order p) then reverse (window zeroT (Max p) (Min p) input)
         else window zeroT (Max p) (Min p) input).
Proof.
  unfold PageDesc. cbv zeta. fold (window zeroT (Max p) (Min p) input).
  by rewrite maybe_reverse, truncate_cut.
Qed.

(** *** Walking the sequence with a cursor *)

Lemma located_noBoundary input : located zeroT (noBoundary zeroT) input = None.
Proof. apply located_None. left. unfold zero. simpl. by apply bool_decide_eq_true_2. Qed.

Lemma located_cursor b (seen rest : list T) :
  NoDup (seen ++ rest) → zeroT ∉ seen ++ rest →
  Value b = lastOrZero zeroT seen →
  strictlyBetween (located zeroT b (seen ++ rest)) None (seen ++ rest) = rest.
Proof.
  intros Hnd Hz Hb. unfold lastOrZero in Hb.
  destruct seen as [|x seen' _] using rev_ind.
  - simpl in *. rewrite (proj2 (located_None b rest)); [done|].
    left. unfold zero. by apply bool_decide_eq_true_2.
  - rewrite last_snoc in Hb. simpl in Hb.
    assert (located zeroT b ((seen' ++ [x]) ++ rest) = Some (length seen')) as ->.
    { apply located_Some. rewrite Hb. split_and!.
      - unfold zero. apply bool_decide_eq_false_2. intros ->.
        apply Hz. set_solver.
      - rewrite <- app_assoc. by apply list_lookup_middle.
      - intros j Hj Hlook. rewrite <- app_assoc in Hnd, Hlook.
        rewrite lookup_app_l in Hlook by done.
        apply NoDup_app in Hnd as (_ & Hdisj & _).
        apply (Hdisj x); [by eapply list_elem_of_lookup_2 | set_solver]. }
    simpl. rewrite <- app_assoc. simpl.
    replace (seen' ++ x :: rest) with ((seen' ++ [x]) ++ rest)
      by (by rewrite <- app_assoc).
    apply drop_app_length'. rewrite length_app. simpl. lia.
Qed.

Lemma located_unset b input : Value b = zeroT → located zeroT b input = None.
Proof.
  intros Hb. apply located_None. left. unfold zero. by apply bool_decide_eq_true_2.
Qed.

Section Cursor.
Variables (keys : list T) (L : Z).
Variable pageFn : option (Page (T:=T)) → list T → list T.
Variable contFn : option (Page (T:=T)) → T → option (Page (T:=T)).
(** [cursor p seen]: [p] is the page to ask for once [seen] was handed back. *)
Variable cursor : Page (T:=T) → list T → Prop.
Hypothesis Hz : zeroT ∉ keys.
Hypothesis HL : 0 < L.
Hypothesis HpageFn : ∀ p seen rest,
  keys = seen ++ rest → cursor p seen →
  pageFn (Some p) keys = take (Z.to_nat L) rest.
Hypothesis Hstop : ∀ p, contFn (Some p) zeroT = None.
Hypothesis Hcont : ∀ p seen page k,
  cursor p seen → last page = Some k → k ≠ zeroT →
  ∃ p', contFn (Some p) k = Some p' ∧ cursor p' (seen ++ page).

Lemma walk_cursor fuel : ∀ p seen rest,
  keys = seen ++ rest → cursor p seen → (length rest < fuel)%nat →
  ∃ pages,
    pageLoop zeroT pageFn contFn fuel (Some p) keys = Some (pages ++ [[]]) ∧
    concat pages = rest ∧
    Forall (λ page, page ≠ [] ∧ Z.of_nat (length page) ≤ L) pages.
Proof.
  induction fuel as [|fuel IH]; intros p seen rest Hk Hc Hfuel; [lia|].
  simpl. rewrite (HpageFn p seen rest Hk Hc).
  destruct rest as [|r rest'].
  { rewrite take_nil. unfold lastOrZero. simpl. rewrite Hstop.
    exists []. split_and!; [done|done|constructor]. }
  set (rest := r :: rest') in *.
  set (page := take (Z.to_nat L) rest).
  assert (length page = Z.to_nat L `min` length rest)%nat as Hlen
    by apply length_take.
  assert (page ≠ []) as Hne.
  { intros E. rewrite E in Hlen. simpl in Hlen. subst rest. simpl in Hlen. lia. }
  destruct (last page) as [k|] eqn:Hlast; [|by apply last_None in Hlast].
  assert (k ∈ keys) as Hkin.
  { rewrite Hk. apply elem_of_app. right.
    apply (subseteq_take (Z.to_nat L) rest). fold page.
    apply last_Some in Hlast as [l' ->]. apply elem_of_app. right.
    by apply list_elem_of_singleton. }
  assert (k ≠ zeroT) as Hkz by (intros ->; done).
  assert (lastOrZero zeroT page = k) as Hlz
    by (unfold lastOrZero; by rewrite Hlast).
  rewrite Hlz.
  destruct (Hcont p seen page k Hc Hlast Hkz) as (p' & -> & Hc').
  destruct (IH p' (seen ++ page) (drop (Z.to_nat L) rest))
    as (pages & Hloop & Hcat & Hall).
  - rewrite <- app_assoc. unfold page. by rewrite take_drop.
  - done.
  - rewrite length_drop. subst rest. simpl in *. lia.
  - exists (page :: pages). rewrite Hloop. simpl. split_and!; [done| |].
    + rewrite Hcat. apply take_drop.
    + constructor; [split; [done|lia]|done].
Qed.
End Cursor.

Lemma nonempty_pages_length (pages : list (list T)) :
  Forall (λ page, page ≠ []) pages → (length pages ≤ length (concat pages))%nat.
Proof.
  induction 1 as [|page pages Hne _ IH]; simpl; [lia|].
  rewrite length_app. destruct page; [done|]. simpl. lia.
Qed.

(** C4 (amended). For every page and every input in which the boundary
    that closes the page is not located at or before the one that opens
    it, PageAsc and PageDesc return the sub-slice strictly between the
    two boundary values, located by exact match, a zero (or absent)
    boundary value leaving its side open; reversed when the order asked
    for is not the input's, then cut to Limit elements when Limit is
    positive. *)
Theorem page_between_boundaries (d : Direction) p input :
  inOrder (located zeroT (opening d p) input) (located zeroT (closing d p) input) →
  pageOf zeroT d (Some p) input = pageSpecOf zeroT d p input.
Proof.
  intros Hord.
  destruct d; unfold pageOf, pageSpecOf, opening, closing in *.
  - rewrite PageAsc_window, window_between by done. done.
  - rewrite PageDesc_window, window_between by done. done.
Qed.

(** C3 (amended). For every sequence of unique keys, none the zero
    value, and every page with a positive limit whose two boundary
    values are the zero value: paging the whole sequence and continuing
    from the last element handed back enumerates the sequence exactly
    once, in order, in non-empty pages of at most Limit keys, followed
    by one empty page on which the loop ends, the candidate boundary
    being the zero value. This holds when the input is paged by PageAsc
    and continued by Prev, provided that neither the order of the page
    nor the order of its Min boundary is Descending; and when it is
    paged by PageDesc and continued by Next, provided that neither the
    order of the page nor the order of its Max boundary is Ascending.
    The loop makes at most [length keys + 1] requests. *)
Theorem paging_roundtrip (d : Direction) (p0 : Page (T:=T)) (keys : list T) (fuel : nat) :
  NoDup keys → zeroT ∉ keys → 0 < Limit p0 →
  Value (Min p0) = zeroT → Value (Max p0) = zeroT →
  keepsInputOrder d p0 →
  (length keys < fuel)%nat →
  ∃ pages,
    pageLoop zeroT (pageOf zeroT d) (continueOf zeroT d) fuel (Some p0) keys
      = Some (pages ++ [[]]) ∧
    concat pages = keys ∧
    Forall (λ page, page ≠ [] ∧ Z.of_nat (length page) ≤ Limit p0) pages ∧
    (length pages ≤ length keys)%nat.
Proof.
  intros Hnd Hz HL Hmin Hmax Hkeep Hfuel.
  set (cursor := λ (p : Page (T:=T)) (seen : list T),
         Limit p = Limit p0 ∧
         Value (opening d p) = lastOrZero zeroT seen ∧
         Value (closing d p) = zeroT ∧
         keepsInputOrder d p).
  assert (∃ pages,
    pageLoop zeroT (pageOf zeroT d) (continueOf zeroT d) fuel (Some p0) keys
      = Some (pages ++ [[]]) ∧
    concat pages = keys ∧
    Forall (λ page, page ≠ [] ∧ Z.of_nat (length page) ≤ Limit p0) pages)
    as (pages & Hloop & Hcat & Hall).
  { apply (walk_cursor keys (Limit p0) _ _ cursor Hz HL) with (seen := []); try done.
    - (* the page asked for after [seen] is the next [Limit] keys *)
      intros p seen rest Hk (Hlim & Hopen & Hclose & Hrev1 & _). subst keys.
      assert (cutToLimit (Limit p0) rest = take (Z.to_nat (Limit p0)) rest) as <-
        by (unfold cutToLimit; by rewrite bool_decide_eq_true_2).
      pose proof (located_cursor (opening d p) seen rest Hnd Hz Hopen) as Hcur.
      pose proof (located_unset (closing d p) (seen ++ rest) Hclose) as Hnone.
      destruct d; unfold pageOf, opening, closing, reversesUnder in *.
      + rewrite PageAsc_window, Hrev1, Hlim.
        rewrite window_between; rewrite Hnone; [by rewrite Hcur|].
        by destruct (located _ _ _).
      + rewrite PageDesc_window, Hrev1, Hlim.
        rewrite window_between; rewrite Hnone; [by rewrite Hcur|].
        by destruct (located _ _ _).
    - intros p. destruct d; simpl; unfold Prev, Next, zero;
        by rewrite bool_decide_eq_true_2.
    - (* the continuation is again such a page *)
      intros p seen page k (Hlim & _ & _ & _ & Hrev2) Hlast Hk.
      assert (lastOrZero zeroT (seen ++ page) = k) as Hlz.
      { unfold lastOrZero. by rewrite last_app, Hlast. }
      destruct d; simpl in *; unfold Prev, Next, zero;
        rewrite bool_decide_eq_false_2 by done;
        eexists; (split; [done|]);
        unfold cursor, keepsInputOrder, order; simpl;
        rewrite Hlz; split_and!; try done;
        by case_bool_decide.
    - unfold cursor. destruct d; simpl; split_and!; done. }
  exists pages. split_and!; [done..|].
  rewrite <- Hcat. apply nonempty_pages_length.
  eapply Forall_impl; [exact Hall|]. by intros ? [? _].
Qed.
End Generic.

(** C3, as stated, fails: continued by Next, PageAsc hands back keys it
    has handed back before and never reaches the rest. *)
Lemma PageAsc_Next_repeats :
  let keys := ["01A"; "01B"; "01C"] in
  ascending keys ∧ NoDup keys ∧ ("" ∉ keys) ∧
  pageLoop "" (PageAsc "") (Next "") 4 (Some (firstPage "" 2)) keys
    = Some [["01A"; "01B"]; ["01A"]; []] ∧
  ∀ fuel pages,
    pageLoop "" (PageAsc "") (Next "") fuel (Some (firstPage "" 2)) keys = Some pages →
    concat pages ≠ keys.
Proof.
  cbv zeta. split_and!.
  - repeat constructor.
  - apply (bool_decide_unpack _). by vm_compute.
  - apply (bool_decide_unpack _). by vm_compute.
  - reflexivity.
  - intros fuel pages H.
    do 3 (destruct fuel as [|fuel]; [discriminate H|]).
    vm_compute in H. injection H as <-. discriminate.
Qed.

Lemma paging_roundtrip_witness :
  ∃ pages,
    pageLoop "" (pageOf "" Asc) (continueOf "" Asc) 4
      (Some (New "" "" "" 2)) ["01A"; "01B"; "01C"] = Some (pages ++ [[]]) ∧
    concat pages = ["01A"; "01B"; "01C"] ∧
    Forall (λ page, page ≠ [] ∧ Z.of_nat (length page) ≤ Limit (New "" "" "" 2)) pages ∧
    (length pages ≤ length ["01A"; "01B"; "01C"])%nat.
Proof.
  apply (paging_roundtrip "" Asc (New "" "" "" 2) ["01A"; "01B"; "01C"] 4).
  - apply (bool_decide_unpack _). vm_compute. exact I.
  - apply (bool_decide_unpack _). vm_compute. exact I.
  - simpl. lia.
  - reflexivity.
  - reflexivity.
  - split; reflexivity.
  - simpl. lia.
Defined.

(** The pages of that walk, from the page that [paging.New] builds
    without a cursor. *)
Example New_PageAsc_Prev_enumerates :
  pageLoop "" (PageAsc "") (Prev "") 4 (Some (New "" "" "" 2)) ["01A"; "01B"; "01C"]
    = Some [["01A"; "01B"]; ["01C"]; []].
Proof. reflexivity. Qed.

(** Why the orders matter. The page that [paging.New] builds without a
    cursor has the Ascending order of its min_id boundary: PageDesc
    hands its first page back reversed, and the walk by Next repeats
    keys. *)
Example New_PageDesc_Next_repeats :
  pageLoop "" (PageDesc "") (Next "") 4 (Some (New "" "" "" 2))
      ["05"; "04"; "03"; "02"; "01"]
    = Some [["01"; "02"]; ["01"]; []].
Proof. reflexivity. Qed.

(** A Min boundary without value whose order is Descending: PageAsc
    reverses every page, and the walk by Prev repeats keys. *)
Example descending_Min_PageAsc_Prev_repeats :
  pageLoop "" (PageAsc "") (Prev "") 4
      (Some (mkPage (mkBoundary "since_id" "" OrderDescending) (noBoundary "") 2))
      ["01"; "02"; "03"; "04"; "05"]
    = Some [["05"; "04"]; ["05"]; []].
Proof. reflexivity. Qed.

(** The same sequence, newest first, paged by PageDesc and continued by
    Next. *)
Example PageDesc_Next_enumerates :
  pageLoop "" (PageDesc "") (Next "") 4 (Some (firstPage "" 2)) ["01C"; "01B"; "01A"]
    = Some [["01C"; "01B"]; ["01A"]; []].
Proof. reflexivity. Qed.

(** Why no key may be the zero value: a page that ends on it derives no
    continuation, and the keys after it are never handed back. *)
Example zero_key_ends_paging :
  pageLoop "" (PageAsc "") (Prev "") 3 (Some (firstPage "" 1)) [""; "01A"]
    = Some [[""]].
Proof. reflexivity. Qed.

(** C4, as stated, fails on a page whose boundaries are the wrong way
    round: nothing lies strictly between "01D" and "01B", and PageAsc
    hands back what follows "01D". *)
Lemma PageAsc_inverted_boundaries :
  let input := ["01A"; "01B"; "01C"; "01D"; "01E"] in
  let p := New "01D" "" "01B" 0 in
  ascending input ∧
  PageAsc "" (Some p) input = ["01E"] ∧
  PageAscSpec "" p input = [] ∧
  pageOf "" Asc (Some p) input ≠ pageSpecOf "" Asc p input.
Proof.
  cbv zeta. split_and!.
  - repeat constructor.
  - reflexivity.
  - reflexivity.
  - vm_compute. discriminate.
Qed.

Lemma page_between_boundaries_witness :
  pageOf "" Asc (Some (New "01A" "" "01E" 2)) ["01A"; "01B"; "01C"; "01D"; "01E"]
    = pageSpecOf "" Asc (New "01A" "" "01E" 2) ["01A"; "01B"; "01C"; "01D"; "01E"].
Proof.
  apply (page_between_boundaries "" Asc (New "01A" "" "01E" 2)
           ["01A"; "01B"; "01C"; "01D"; "01E"]).
  vm_compute. lia.
Defined.

End PagingFacts.

(* --------------------------------------------------------------------- *)
(** ** Mute decisions *)
(* --------------------------------------------------------------------- *)

Module MutesFacts.
Import Mutes.

Lemma loaderStep_expiryCounted now a mute :
  expiryCounted a → expiryCounted (loaderStep now a mute).
Proof.
  unfold expiryCounted, loaderStep. intros Ha.
  destruct (negb (IsZero (ExpiresAt mute)) && Before (ExpiresAt mute) now); [done|].
  by destruct (UMNotifications mute).
Qed.

Lemma foldl_expiryCounted now ums : ∀ a,
  expiryCounted a → expiryCounted (foldl (loaderStep now) a ums).
Proof.
  induction ums as [|m ums IH]; intros a Ha; simpl; [done|].
  apply IH. by apply loaderStep_expiryCounted.
Qed.

Lemma loadDetails_expiry_mute now requesterID statusID tm ums :
  IsZero (MuteExpiry (loadDetails now requesterID statusID tm ums)) = false →
  Mute (loadDetails now requesterID statusID tm ums) = true.
Proof.
  unfold loadDetails, IsZero. simpl. intros Hnz.
  apply bool_decide_eq_false in Hnz.
  apply (foldl_expiryCounted now ums (mkAcc false zeroTime tm zeroTime)); [|done].
  intros Hne. by destruct Hne.
Qed.

(** C9. On a cache hit StatusMuted answers from the cached decision and
    the current time: it reports muted exactly when the Mute flag is set
    and the expiry is the zero time or lies after now; and for a decision
    the loader produced, once its expiry has passed the answer is
    muted=false with withExpiry=true. *)
Theorem StatusMuted_rechecks_expiry (requesterID statusID : string)
    (env : Env) (d : CachedMute) :
  cached env = Some d →
  ∃ isMuted withExpiry,
    StatusMuted (Some requesterID) statusID env = (isMuted, withExpiry, None) ∧
    (isMuted = true ↔
       Mute d = true ∧
       (IsZero (MuteExpiry d) = true ∨ After (MuteExpiry d) (clock env) = true)) ∧
    (∀ loadedAt tm ums,
       d = loadDetails loadedAt requesterID statusID tm ums →
       MuteExpired d (clock env) = true →
       isMuted = false ∧ withExpiry = true).
Proof.
  intros Hhit. unfold StatusMuted, getStatusMuteDetails, LoadOne.
  rewrite Hhit. unfold MuteExpired.
  destruct (Mute d) eqn:Hm; simpl.
  - destruct (IsZero (MuteExpiry d)) eqn:Hz; simpl.
    + eexists _, _. split_and!; [done| |].
      * split; [intros _; split; [done | by left] | done].
      * intros ? ? ? _ [=].
    + eexists _, _. split_and!; [done| |].
      * split; [intros ->; split; [done | by right] | by intros [_ [?|?]]].
      * intros ? ? ? _ Hexp. by apply negb_true_iff in Hexp as ->.
  - eexists _, _. split_and!; [done| |].
    + split; [done | by intros [? _]].
    + intros loadedAt tm ums -> Hexp.
      apply andb_true_iff in Hexp as [Hnz _]. apply negb_true_iff in Hnz.
      apply loadDetails_expiry_mute in Hnz. congruence.
Qed.

Lemma StatusMuted_rechecks_expiry_witness :
  ∃ isMuted withExpiry,
    StatusMuted (Some "01REQ") "01STATUS"
        (mkEnv 100 (Some (loadDetails 10 "01REQ" "01STATUS" false [mkUserMute 50 false]))
           (inr false) (inr []))
      = (isMuted, withExpiry, None) ∧
    (isMuted = true ↔
       Mute (loadDetails 10 "01REQ" "01STATUS" false [mkUserMute 50 false]) = true ∧
       (IsZero (MuteExpiry (loadDetails 10 "01REQ" "01STATUS" false [mkUserMute 50 false])) = true ∨
        After (MuteExpiry (loadDetails 10 "01REQ" "01STATUS" false [mkUserMute 50 false])) 100 = true)) ∧
    (∀ loadedAt tm ums,
       loadDetails 10 "01REQ" "01STATUS" false [mkUserMute 50 false]
         = loadDetails loadedAt "01REQ" "01STATUS" tm ums →
       MuteExpired (loadDetails 10 "01REQ" "01STATUS" false [mkUserMute 50 false]) 100 = true →
       isMuted = false ∧ withExpiry = true).
Proof.
  apply (StatusMuted_rechecks_expiry "01REQ" "01STATUS"
           (mkEnv 100 (Some (loadDetails 10 "01REQ" "01STATUS" false [mkUserMute 50 false]))
              (inr false) (inr []))).
  reflexivity.
Defined.

(** The cached decision of the example is muted until 50; read at 100 it
    is no longer muted, and the answer says it carried an expiry. *)
Example StatusMuted_after_expiry :
  StatusMuted (Some "01REQ") "01STATUS"
      (mkEnv 100 (Some (loadDetails 10 "01REQ" "01STATUS" false [mkUserMute 50 false]))
         (inr false) (inr []))
    = (false, true, None).
Proof. reflexivity. Qed.

End MutesFacts.

(* --------------------------------------------------------------------- *)
(** ** The account and notification caches *)
(* --------------------------------------------------------------------- *)

Module CacheFacts.
Import Cache.

Lemma copyAccount_Returns v h a :
  cells h !! v = Some a →
  copyAccount v h
    = Returns (mkHeap (<[next h := strip a]> (cells h)) (S (next h)), next h).
Proof. intros Hv. unfold copyAccount. by rewrite Hv. Qed.

(** What a hit of getByID does. *)
Lemma getByID_hit id now s s1 p :
  wellFormed s →
  getByID id now s = Returns (s1, Some p) →
  ∃ e a,
    cache (ac s) !! id = Some e ∧
    cells (heap s) !! value e = Some a ∧
    p = next (heap s) ∧
    heap s1 = mkHeap (<[p := strip a]> (cells (heap s))) (S p) ∧
    ac s1 = mkAccountCache (<[id := mkEntry (value e) (now + ttl (ac s))]> (cache (ac s)))
              (ttl (ac s)) (urls (ac s)) (uris (ac s)).
Proof.
  intros [Hfresh Hlive]. unfold getByID, get.
  destruct (cache (ac s) !! id) as [e|] eqn:He; [|intros [=]].
  destruct (Hlive _ _ He) as [a Ha].
  rewrite (copyAccount_Returns _ _ _ Ha). simpl. intros [= <- <-].
  exists e, a. done.
Qed.

Lemma getByID_hit_Returns id now s e a :
  cache (ac s) !! id = Some e →
  cells (heap s) !! value e = Some a →
  ∃ s1, getByID id now s = Returns (s1, Some (next (heap s))) ∧
        cells (heap s1) !! next (heap s) = Some (strip a).
Proof.
  intros He Ha. unfold getByID, get. rewrite He.
  rewrite (copyAccount_Returns _ _ _ Ha). simpl.
  eexists. split; [done|]. simpl. apply lookup_insert_eq.
Qed.

Lemma Get_hit k now s s1 p :
  Get k now s = Returns (s1, Some p) →
  ∃ id, resolves k (ac s) id ∧ getByID id now s = Returns (s1, Some p).
Proof.
  destruct k as [id|uri|url]; simpl.
  - intros H. by exists id.
  - unfold GetByURI. destruct (uris (ac s) !! uri) as [id|] eqn:E; [|intros [=]].
    intros H. by exists id.
  - unfold GetByURL. destruct (urls (ac s) !! url) as [id|] eqn:E; [|intros [=]].
    intros H. by exists id.
Qed.

Lemma Get_resolved k now s id :
  resolves k (ac s) id → Get k now s = getByID id now s.
Proof.
  destruct k as [i|uri|url]; simpl.
  - by intros ->.
  - intros H. unfold GetByURI. by rewrite H.
  - intros H. unfold GetByURL. by rewrite H.
Qed.

(** C7. In every well-formed state of the account cache, a lookup by
    ID, URI or URL that hits hands back a copy of the account that the
    cache holds under the key: a pointer to a fresh cell, which is
    neither the cached one nor any other that the cache holds, whose ID,
    URI, URL and plain fields are those of the cached account and whose
    avatar and header attachments are nil. The cached account is left as
    it was; and whatever the caller then writes through the pointer, the
    next lookup for the same key hits again and hands back a cell with
    the contents the first lookup gave. *)
Theorem get_returns_detached_copy (k : Key) (now : Time) (s s1 : State) (p : ptr) :
  wellFormed s →
  Get k now s = Returns (s1, Some p) →
  ∃ id e cached a,
    resolves k (ac s) id ∧
    cache (ac s) !! id = Some e ∧
    cells (heap s) !! value e = Some cached ∧
    cells (heap s1) !! p = Some a ∧
    ID a = ID cached ∧ URI a = URI cached ∧ URL a = URL cached ∧
    DisplayName a = DisplayName cached ∧
    AvatarMediaAttachment a = None ∧
    HeaderMediaAttachment a = None ∧
    p ≠ value e ∧
    cells (heap s) !! p = None ∧
    ¬ cachedPtr s1 p ∧
    cells (heap s1) !! value e = Some cached ∧
    ∀ (a' : Account) (now' : Time),
      ∃ s2 p',
        Get k now' (mkState (store p a' (heap s1)) (ac s1)) = Returns (s2, Some p') ∧
        cells (heap s2) !! p' = Some a.
Proof.
  intros Hwf Hget.
  destruct (Get_hit _ _ _ _ _ Hget) as (id & Hres & Hid).
  destruct (getByID_hit _ _ _ _ _ Hwf Hid) as (e & a & He & Ha & -> & Hheap & Hac).
  destruct Hwf as [Hfresh Hlive].
  assert (value e ≠ next (heap s)) as Hne.
  { pose proof (Hfresh _ _ Ha) as Hlt. simpl in Hlt. lia. }
  assert (cells (heap s) !! next (heap s) = None) as Hnew.
  { destruct (cells (heap s) !! next (heap s)) as [x|] eqn:Hx; [|done].
    pose proof (Hfresh _ _ Hx) as Hlt. simpl in Hlt. lia. }
  exists id, e, a, (strip a).
  split_and!; [done|done|done| |done|done|done|done|done|done|done|done| | |].
  - rewrite Hheap. simpl. apply lookup_insert_eq.
  - intros (k' & e' & He' & Hv). rewrite Hac in He'. simpl in He'.
    destruct (decide (id = k')) as [->|Hk].
    + rewrite lookup_insert_eq in He'. injection He' as <-. simpl in Hv. done.
    + rewrite lookup_insert_ne in He' by done.
      destruct (Hlive _ _ He') as [x Hx].
      pose proof (Hfresh _ _ Hx) as Hlt. simpl in Hlt. lia.
  - rewrite Hheap. simpl. by rewrite lookup_insert_ne.
  - intros a' now'.
    set (s' := mkState (store (next (heap s)) a' (heap s1)) (ac s1)).
    assert (resolves k (ac s') id) as Hres'.
    { subst s'. simpl. rewrite Hac. by destruct k. }
    rewrite (Get_resolved _ _ _ _ Hres').
    destruct (getByID_hit_Returns id now' s'
                (mkEntry (value e) (now + ttl (ac s))) a) as (s2 & Hs2 & Hcell).
    + subst s'. simpl. rewrite Hac. simpl. apply lookup_insert_eq.
    + subst s'. simpl. rewrite Hheap. simpl.
      rewrite !lookup_insert_ne by done. done.
    + by exists s2, (next (heap s')).
Qed.

(** *** The invariant holds from NewAccount on *)

Lemma wellFormed_NewAccount h :
  map_Forall (λ p _, (p < next h)%nat) (cells h) → wellFormed (NewAccount h).
Proof. intros Hh. split; [done|]. simpl. apply map_Forall_empty. Qed.

Lemma alloc_fresh {V} (v : V) (h : Heap V) :
  map_Forall (λ p _, (p < next h)%nat) (cells h) →
  map_Forall (λ p _, (p < next (fst (alloc v h)))%nat) (cells (fst (alloc v h))).
Proof.
  intros Hh. simpl. apply map_Forall_insert_2; [lia|].
  intros p x Hp. specialize (Hh p x Hp). simpl in *. lia.
Qed.

Lemma Set_valid p a now s :
  wellFormed s →
  cells (heap s) !! p = Some a → ID a ≠ "" → URI a ≠ "" →
  ∃ s', Set_ (Some p) now s = Returns s' ∧ wellFormed s' ∧
        heap s' = fst (alloc (strip a) (heap s)) ∧
        cache (ac s') = <[ID a := mkEntry (next (heap s)) (now + ttl (ac s))]> (cache (ac s)) ∧
        uris (ac s') !! URI a = Some (ID a) ∧
        (URL a ≠ "" → urls (ac s') !! URL a = Some (ID a)).
Proof.
  intros [Hfresh Hlive] Hp Hid Huri. unfold Set_. rewrite Hp.
  rewrite !bool_decide_eq_false_2 by done. simpl.
  rewrite (copyAccount_Returns _ _ _ Hp). simpl.
  set (h1 := mkHeap (<[next (heap s) := strip a]> (cells (heap s))) (S (next (heap s)))).
  assert (∃ c, set (ID a) (next (heap s)) now h1 (ac s) = Returns c ∧
               cache c = <[ID a := mkEntry (next (heap s)) (now + ttl (ac s))]> (cache (ac s)))
    as (c & -> & Hc).
  { unfold set. destruct (cache (ac s) !! ID a) as [item|] eqn:Hitem.
    - destruct (Hlive _ _ Hitem) as [old Hold]. simpl in Hold.
      pose proof (Hfresh _ _ Hold) as Hlt. simpl in Hlt.
      subst h1. simpl. rewrite lookup_insert_ne by lia. rewrite Hold.
      rewrite lookup_insert_eq. eexists. split; [done|]. done.
    - eexists. split; done. }
  simpl. eexists. split; [done|].
  assert (wellFormed (mkState h1
            (mkAccountCache (cache c) (ttl c) (urls c) (<[URI a := ID a]> (uris c))))) as Hwf.
  { split; simpl.
    - apply map_Forall_insert_2; [lia|].
      intros q x Hq. specialize (Hfresh q x Hq). simpl in *. lia.
    - rewrite Hc. apply map_Forall_insert_2.
      + simpl. rewrite lookup_insert_eq. by eexists.
      + intros k e He. destruct (Hlive _ _ He) as [x Hx]. simpl in *.
        pose proof (Hfresh _ _ Hx) as Hlt. simpl in Hlt.
        rewrite lookup_insert_ne by lia. by eexists. }
  case_bool_decide; simpl; split_and!; try done.
  - apply lookup_insert_eq.
  - intros _. apply lookup_insert_eq.
  - apply lookup_insert_eq.
Qed.

Lemma wellFormed_Get k now s s1 r :
  wellFormed s → Get k now s = Returns (s1, r) → wellFormed s1.
Proof.
  intros Hwf.
  assert (∀ id, getByID id now s = Returns (s1, r) → wellFormed s1) as Hby.
  { intros id. destruct Hwf as [Hfresh Hlive]. unfold getByID, get.
    destruct (cache (ac s) !! id) as [e|] eqn:He.
    - destruct (Hlive _ _ He) as [a Ha]. simpl in Ha.
      rewrite (copyAccount_Returns _ _ _ Ha). simpl. intros [= <- <-].
      pose proof (Hfresh _ _ Ha) as Hlt. simpl in Hlt.
      split; simpl.
      + apply map_Forall_insert_2; [lia|].
        intros q x Hq. specialize (Hfresh q x Hq). simpl in *. lia.
      + apply map_Forall_insert_2.
        * simpl. rewrite lookup_insert_ne by lia. by eexists.
        * intros k' e' He'. destruct (Hlive _ _ He') as [x Hx]. simpl in *.
          pose proof (Hfresh _ _ Hx) as Hlt'. simpl in Hlt'.
          rewrite lookup_insert_ne by lia. by eexists.
    - intros [= <- <-]. done. }
  destruct k as [id|uri|url]; simpl.
  - apply Hby.
  - unfold GetByURI. destruct (uris (ac s) !! uri); [apply Hby|].
    by intros [= <- <-].
  - unfold GetByURL. destruct (urls (ac s) !! url); [apply Hby|].
    by intros [= <- <-].
Qed.

(** X13. After Set, the account is found under its ID and its URI, and
    under its URL when it has one, as a copy without the attachments. *)
Lemma Set_then_Get k p a now now' s s' :
  wellFormed s →
  cells (heap s) !! p = Some a →
  Set_ (Some p) now s = Returns s' →
  k = ByID (ID a) ∨ k = ByURI (URI a) ∨ (k = ByURL (URL a) ∧ URL a ≠ "") →
  ∃ s1 q, Get k now' s' = Returns (s1, Some q) ∧ q ≠ p ∧
          cells (heap s1) !! q = Some (strip a).
Proof.
  intros Hwf Hp HSet Hk.
  assert (ID a ≠ "" ∧ URI a ≠ "") as [Hid Huri].
  { unfold Set_ in HSet. rewrite Hp in HSet.
    destruct (bool_decide (ID a = "")) eqn:E1; [done|].
    destruct (bool_decide (URI a = "")) eqn:E2; [done|].
    apply bool_decide_eq_false in E1, E2. done. }
  destruct (Set_valid p a now s Hwf Hp Hid Huri)
    as (s'' & HSet' & Hwf' & Hheap & Hcache & Huris & Hurls).
  rewrite HSet in HSet'. injection HSet' as <-.
  assert (resolves k (ac s') (ID a)) as Hres.
  { destruct Hk as [->|[->|[-> Hne]]]; simpl; [done|done|by apply Hurls]. }
  rewrite (Get_resolved _ _ _ _ Hres).
  destruct (getByID_hit_Returns (ID a) now' s'
              (mkEntry (next (heap s)) (now + ttl (ac s))) (strip a))
    as (s1 & Hs1 & Hcell).
  - rewrite Hcache. apply lookup_insert_eq.
  - rewrite Hheap. simpl. apply lookup_insert_eq.
  - exists s1, (next (heap s')). split_and!; [done| |done].
    rewrite Hheap. simpl. destruct Hwf as [Hfresh _].
    pose proof (Hfresh _ _ Hp) as Hlt. simpl in Hlt. lia.
Qed.

(** C10. Set and Put panic with their own message exactly when the value
    handed in is not valid (nil, or an empty ID, or for an account an
    empty URI); on a valid value they return. *)
Theorem insert_panics_iff_invalid (account : option ptr) (now : Time) (s : State)
    (notif : option ptr) (ns : NState) :
  wellFormed s → live (heap s) account → live (nheap ns) notif →
  (if validAccount (heap s) account
   then ∃ s', Set_ account now s = Returns s'
   else Set_ account now s = Panics "invalid account") ∧
  (if validNotification (nheap ns) notif
   then ∃ ns', Put notif ns = Returns ns'
   else Put notif ns = Panics "invalid notification").
Proof.
  intros Hwf Hlive Hnlive. split.
  - unfold validAccount. destruct account as [p|]; simpl; [|done].
    destruct (Hlive p eq_refl) as [a Ha]. rewrite Ha.
    destruct (bool_decide (ID a = "")) eqn:E1; simpl; [done|].
    destruct (bool_decide (URI a = "")) eqn:E2; simpl; [done|].
    pose proof E1 as E1'. pose proof E2 as E2'.
    apply bool_decide_eq_false in E1', E2'.
    destruct (Set_valid p a now s Hwf Ha E1' E2') as (s' & HSet & _).
    unfold Set_ in HSet. rewrite Ha, E1, E2 in HSet. simpl in HSet.
    by exists s'.
  - unfold validNotification, Put. destruct notif as [p|]; simpl; [|done].
    destruct (Hnlive p eq_refl) as [n Hn]. rewrite Hn.
    destruct (bool_decide (NID n = "")); simpl; [done|].
    unfold copyNotification. rewrite Hn. simpl. by eexists.
Qed.

Lemma callerHeap_fresh :
  map_Forall (λ p _, (p < next callerHeap)%nat) (cells callerHeap).
Proof. apply (bool_decide_unpack _). vm_compute. exact I. Defined.

Lemma insert_panics_iff_invalid_witness :
  (if validAccount (heap (NewAccount callerHeap)) (Some 0%nat)
   then ∃ s', Set_ (Some 0%nat) 0 (NewAccount callerHeap) = Returns s'
   else Set_ (Some 0%nat) 0 (NewAccount callerHeap) = Panics "invalid account") ∧
  (if validNotification (nheap noNotifications) None
   then ∃ ns', Put None noNotifications = Returns ns'
   else Put None noNotifications = Panics "invalid notification").
Proof.
  apply (insert_panics_iff_invalid (Some 0%nat) 0 (NewAccount callerHeap)
           None noNotifications).
  - apply wellFormed_NewAccount, callerHeap_fresh.
  - intros q [= <-]. vm_compute. eauto.
  - intros q [=].
Defined.

Lemma afterSet_wellFormed : wellFormed afterSet.
Proof. apply (bool_decide_unpack _). vm_compute. exact I. Defined.

Lemma get_returns_detached_copy_witness :
  ∃ id e cached a,
    resolves zorkByURI (ac afterSet) id ∧
    cache (ac afterSet) !! id = Some e ∧
    cells (heap afterSet) !! value e = Some cached ∧
    cells (heap (fst firstGet)) !! 2%nat = Some a ∧
    ID a = ID cached ∧ URI a = URI cached ∧ URL a = URL cached ∧
    DisplayName a = DisplayName cached ∧
    AvatarMediaAttachment a = None ∧
    HeaderMediaAttachment a = None ∧
    2%nat ≠ value e ∧
    cells (heap afterSet) !! 2%nat = None ∧
    ¬ cachedPtr (fst firstGet) 2%nat ∧
    cells (heap (fst firstGet)) !! value e = Some cached ∧
    ∀ (a' : Account) (now' : Time),
      ∃ s2 p',
        Get zorkByURI now'
            (mkState (store 2%nat a' (heap (fst firstGet))) (ac (fst firstGet)))
          = Returns (s2, Some p') ∧
        cells (heap s2) !! p' = Some a.
Proof.
  apply (get_returns_detached_copy zorkByURI 1 afterSet (fst firstGet) 2%nat).
  - apply afterSet_wellFormed.
  - vm_compute. reflexivity.
Defined.

(** The caller's own account keeps its attachments; the copy handed back
    by the cache has none. *)
Example zork_copy_has_no_attachments :
  cells (heap (fst firstGet)) !! 0%nat = Some zork ∧
  snd firstGet = Some 2%nat ∧
  cells (heap (fst firstGet)) !! 2%nat = Some (strip zork).
Proof. vm_compute. done. Qed.

End CacheFacts.

(* --------------------------------------------------------------------- *)
(** ** The worker pool *)
(* --------------------------------------------------------------------- *)

Module WorkersFacts.
Import Workers.

Section Pool.
Context {MsgType W : Type} (render : MsgType → string).
Implicit Types (w : WorkerPool (MsgType:=MsgType) (W:=W)) (msgs : list MsgType).

(** The functions that Queue has put behind those already queued. *)
Lemma QueueAll_queued msgs : ∀ w log,
  ∃ fns,
    queued (fst (QueueAll render msgs w log)) = queued w ++ fns ∧
    Forall2 (λ f msg, ∀ world l, f world l = queuedFunc w msg world l) fns msgs.
Proof.
  induction msgs as [|msg msgs IH]; intros w log.
  { exists []. simpl. by rewrite app_nil_r. }
  change (QueueAll render (msg :: msgs) w log)
    with (QueueAll render msgs (fst (Queue render msg w log))
            (snd (Queue render msg w log))).
  destruct (IH (fst (Queue render msg w log)) (snd (Queue render msg w log)))
    as (fns & Hq & Hall).
  exists (queuedFunc w msg :: fns). split.
  - rewrite Hq. simpl. by rewrite <- app_assoc.
  - constructor; [done|].
    eapply Forall2_impl; [exact Hall|]. intros f m Hf world l. by rewrite Hf.
Qed.

Lemma drain_queued w fn fns msgs : 
  process w = Some fn →
  Forall2 (λ f msg, ∀ world l, f world l = queuedFunc w msg world l) fns msgs →
  ∀ world l,
    drain fns world l
      = Done (fst (processEach fn (prefix w) msgs world))
             (l ++ snd (processEach fn (prefix w) msgs world)).
Proof.
  intros Hfn Hall. induction Hall as [|f msg fns msgs Hf _ IH]; intros world l.
  { simpl. by rewrite app_nil_r. }
  simpl. rewrite Hf. unfold queuedFunc. rewrite Hfn.
  destruct (fn msg world) as [world' [err|]]; simpl; rewrite IH.
  - by rewrite <- app_assoc.
  - done.
Qed.

(** C8. With a processor registered, the function that Queue hands to
    the runner returns whatever the processor answers: an error is
    written to the log under the pool's prefix and goes no further. So
    a worker that takes the queued functions in turn hands every
    message to the processor, the ones after a failure included, and
    the log holds one line per failure. *)
Theorem worker_logs_and_continues w (fn : Processor) msgs (log : list LogLine) (world : W) :
  process w = Some fn →
  queued w = [] →
  (∀ msg l,
     queuedFunc w msg world l
       = Done (fst (fn msg world))
           (l ++ match snd (fn msg world) with
                 | Some err => [Errorf (prefix w) err]
                 | None => []
                 end)) ∧
  drain (queued (fst (QueueAll render msgs w log))) world []
    = Done (fst (processEach fn (prefix w) msgs world))
           (snd (processEach fn (prefix w) msgs world)).
Proof.
  intros Hfn Hempty. split.
  - intros msg l. unfold queuedFunc. rewrite Hfn.
    destruct (fn msg world) as [world' [err|]]; simpl; [done|].
    by rewrite app_nil_r.
  - destruct (QueueAll_queued msgs w log) as (fns & Hq & Hall).
    rewrite Hq, Hempty. simpl.
    by rewrite (drain_queued w fn fns msgs Hfn Hall).
Qed.
End Pool.

Lemma worker_logs_and_continues_witness :
  (∀ msg l,
     queuedFunc examplePool msg [] l
       = Done (fst (recordFailingOn "second" msg []))
           (l ++ match snd (recordFailingOn "second" msg []) with
                 | Some err => [Errorf (prefix examplePool) err]
                 | None => []
                 end)) ∧
  drain (queued (fst (QueueAll id ["first"; "second"; "third"] examplePool []))) [] []
    = Done (fst (processEach (recordFailingOn "second") (prefix examplePool)
                   ["first"; "second"; "third"] []))
           (snd (processEach (recordFailingOn "second") (prefix examplePool)
                   ["first"; "second"; "third"] [])).
Proof.
  apply (worker_logs_and_continues id examplePool (recordFailingOn "second")
           ["first"; "second"; "third"] [] []).
  - reflexivity.
  - reflexivity.
Defined.

(** The second message fails; the third is processed all the same. *)
Example third_message_is_processed :
  drain (queued (fst (QueueAll id ["first"; "second"; "third"] examplePool []))) [] []
    = Done ["first"; "second"; "third"]
        [Errorf "worker.Worker[string]" "cannot process second"].
Proof. reflexivity. Qed.

End WorkersFacts.

(* --------------------------------------------------------------------- *)
(** ** Messages from the federation API *)
(* --------------------------------------------------------------------- *)

Module FediAPIFacts.
Import FediAPI.

Lemma calls_app t1 t2 : calls (t1 ++ t2) = calls t1 ++ calls t2.
Proof. unfold calls. apply omap_app. Qed.

Lemma calls_Called t c : calls (t ++ [Called c]) = calls t ++ [c].
Proof. by rewrite calls_app. Qed.

Lemma calls_Logged t lvl line : calls (t ++ [Logged lvl line]) = calls t.
Proof. rewrite calls_app. simpl. by rewrite app_nil_r. Qed.

(** Unfold the monad and the call primitives. *)
Ltac run :=
  unfold orLog, orAbort, invoke, invokeFor, perform, log, abort;
  unfold mbind, M_bind, mret, M_ret; simpl.

(** Split on every remaining answer of the world and compare the calls. *)
Ltac finish w :=
  repeat first
    [ progress (case_bool_decide; simpl)
    | match goal with
      | |- context [errOf w ?t ?c] => destruct (errOf w t c); simpl
      end ];
  rewrite ?calls_app; simpl; rewrite <- ?app_assoc; simpl; done.

(** A step that logs its error and goes on: one more call whatever the
    answer. *)
Lemma orLog_calls c label w t :
  snd (orLog c label w t) = Ret tt ∧ calls (fst (orLog c label w t)) = calls t ++ [c].
Proof.
  run. destruct (errOf w t c); simpl.
  - by rewrite calls_Logged, calls_Called.
  - by rewrite calls_Called.
Qed.

Lemma orLog_attempt c label w t :
  orLog c label w t = (attemptEach [(c, label)] w t, Ret tt).
Proof.
  run. destruct (errOf w t c); simpl; by rewrite <- ?app_assoc.
Qed.

Lemma attemptEach_calls steps w : ∀ t,
  calls (attemptEach steps w t) = calls t ++ (fst <$> steps).
Proof.
  induction steps as [|[c label] steps IH]; intros t; simpl.
  { by rewrite app_nil_r. }
  rewrite IH, !calls_app. simpl.
  destruct (errOf w t c); simpl; by rewrite <- ?app_assoc, ?app_nil_r.
Qed.

(** C5 (amended). For every Create-Block message whose model is a block,
    the handler attempts the eight cleanup steps (the four timeline wipes,
    then the four relationship deletions), each whatever became of the
    ones before it, writes one log line per failed step, and returns
    success. *)
Theorem CreateBlock_attempts_every_step fMsg block w t0 :
  GTSModel fMsg = Some (MBlock block) →
  CreateBlock fMsg w t0 = (attemptEach (cleanupSteps block) w t0, Ret tt) ∧
  calls (attemptEach (cleanupSteps block) w t0)
    = calls t0 ++ (fst <$> cleanupSteps block).
Proof.
  intros Hmodel. split; [|apply attemptEach_calls].
  unfold CreateBlock. rewrite Hmodel.
  unfold mbind, M_bind. rewrite !orLog_attempt. reflexivity.
Qed.

Lemma resolveStatus_Ret fMsg w t0 t1 v :
  resolveStatus fMsg w t0 = (t1, Ret v) →
  ∃ c, t1 = t0 ++ [Called c] ∧ isResolution c = true.
Proof.
  unfold resolveStatus.
  destruct (APObject_ fMsg) as [[statusable|typeName]|].
  - run. destruct (errOf w t0 _); intros [= <- _]; by eexists.
  - run. intros [=].
  - destruct (APIRI fMsg) as [iri|]; run; [|intros [=]].
    destruct (errOf w t0 _); intros [= <- _]; by eexists.
Qed.

(** C2. When the resolution step of CreateStatus hands back no
    statusable, the handler returns success and its trace is that of the
    resolution step alone: one call to the federator and nothing after
    it. *)
Theorem CreateStatus_already_created fMsg w t0 t1 status :
  resolveStatus fMsg w t0 = (t1, Ret (status, None)) →
  CreateStatus fMsg w t0 = (t1, Ret tt) ∧
  ∃ c, t1 = t0 ++ [Called c] ∧ isResolution c = true.
Proof.
  intros Hres. split; [|by eapply resolveStatus_Ret].
  unfold CreateStatus, mbind, M_bind. by rewrite Hres.
Qed.

(** Each handler is its resolution step followed by the gate. *)
Lemma resolveOf_Some k fMsg w t0 t1 r :
  resolveOf k fMsg w t0 = (t1, Ret (Some r)) →
  match r with
  | RReply s => k = Reply ∧ ∃ sb, resolveStatus fMsg w t0 = (t1, Ret (s, Some sb))
  | RLike f => k = Like ∧ resolveFave fMsg w t0 = (t1, Ret f)
  | RBoost b => k = Boost ∧ resolveBoost fMsg w t0 = (t1, Ret (Some b))
  end.
Proof.
  destruct k; unfold resolveOf, mbind, M_bind, mret, M_ret.
  - destruct (resolveStatus fMsg w t0) as [t [[s [sb|]]|e]]; intros [=]; subst.
    split; [done|]. by exists sb.
  - destruct (resolveFave fMsg w t0) as [t [f|e]]; intros [=]; by subst.
  - destruct (resolveBoost fMsg w t0) as [t [[b|]|e]]; intros [=]; by subst.
Qed.

(** C1 (amended). Once the object of a Create for a reply, like or
    boost is resolved with PendingApproval set: without PreApproved the
    handler makes the pending-interaction notification its only further
    call and returns success; with PreApproved it first writes the
    approval and returns an error if that fails, then sends the Accept
    and returns an error if that fails, and only then processes as
    normal, which is the counter increment and the timeline fan-out for a
    reply and a boost, and the fave notification and timeline
    invalidation for a like. *)
Theorem approval_gate (k : Interaction) (fMsg : FromFediAPI) (w : World)
    (t0 t1 : Trace) (r : Resolved) :
  resolveOf k fMsg w t0 = (t1, Ret (Some r)) →
  pendingApprovalOf r = true →
  let out := handlerOf k fMsg w t0 in
  if preApprovedOf r then
    match errOf w t1 (approveOf r) with
    | Some _ =>
        aborted (snd out) = true ∧ calls (fst out) = calls t1 ++ [approveOf r]
    | None =>
        let approval := approvalOf w t1 (approveOf r) in
        match errOf w (t1 ++ [Called (approveOf r)]) (AcceptInteraction approval) with
        | Some _ =>
            aborted (snd out) = true ∧
            calls (fst out) = calls t1 ++ [approveOf r; AcceptInteraction approval]
        | None =>
            snd out = Ret tt ∧
            calls (fst out)
              = calls t1 ++ [approveOf r; AcceptInteraction approval]
                  ++ normalProcessing fMsg r
        end
    end
  else snd out = Ret tt ∧ calls (fst out) = calls t1 ++ [notifyPendingOf r].
Proof.
  intros Hres Hpending. apply resolveOf_Some in Hres.
  destruct r as [s|f|b]; simpl in Hpending |- *.
  - destruct Hres as [-> [sb Hres]]. simpl.
    unfold CreateStatus, mbind, M_bind. rewrite Hres. simpl.
    rewrite Hpending. simpl.
    destruct (PreApproved s); simpl.
    + run. destruct (errOf w t1 (approveReply s)); simpl.
      { by rewrite calls_Called. }
      destruct (errOf w (t1 ++ [Called (approveReply s)]) _); simpl.
      { by rewrite !calls_Called, <- app_assoc. }
      finish w.
    + apply orLog_calls.
  - destruct Hres as [-> Hres]. simpl.
    unfold CreateLike, mbind, M_bind. rewrite Hres. simpl.
    rewrite Hpending. simpl.
    destruct (FavePreApproved f); simpl.
    + run. destruct (errOf w t1 (approveFave f)); simpl.
      { by rewrite calls_Called. }
      destruct (errOf w (t1 ++ [Called (approveFave f)]) _); simpl.
      { by rewrite !calls_Called, <- app_assoc. }
      finish w.
    + apply orLog_calls.
  - destruct Hres as [-> Hres]. simpl.
    unfold CreateAnnounce, mbind, M_bind. rewrite Hres. simpl.
    rewrite Hpending. simpl.
    destruct (PreApproved b); simpl.
    + run. destruct (errOf w t1 (approveAnnounce b)); simpl.
      { by rewrite calls_Called. }
      destruct (errOf w (t1 ++ [Called (approveAnnounce b)]) _); simpl.
      { by rewrite !calls_Called, <- app_assoc. }
      finish w.
    + apply orLog_calls.
Qed.

(** C6. A message whose pair of tags is a row of the routing table is
    handed to that row's method, after the opening log line; for any
    other pair ProcessFromFediAPI returns the error that names both tags,
    having called no collaborator. *)
Theorem dispatch_fails_closed (fediAPI : Method → FromFediAPI → M unit)
    (fMsg : FromFediAPI) (w : World) (t0 : Trace) :
  let t1 := t0 ++ [Logged INFO "processing from fedi API"] in
  match registered dispatchTable (APActivityType fMsg) (APObjectType fMsg) with
  | Some m => ProcessFromFediAPI fediAPI fMsg w t0 = fediAPI m fMsg w t1
  | None =>
      ProcessFromFediAPI fediAPI fMsg w t0
        = (t1, Abort (Newf ("unhandled: " +:+ APActivityType fMsg +:+ " "
                              +:+ APObjectType fMsg))) ∧
      calls t1 = calls t0
  end.
Proof.
  cbv zeta. unfold ProcessFromFediAPI, unhandled, log, abort, mbind, M_bind.
  unfold ActivityCreate, ActivityUpdate, ActivityAccept, ActivityDelete,
    ActivityMove, ObjectNote, ActorPerson, ActivityFollow, ActivityLike,
    ActivityAnnounce, ActivityBlock, ActivityFlag, ActivityQuestion.
  generalize (APActivityType fMsg) (APObjectType fMsg). intros a o.
  unfold dispatchTable, registered.
  repeat match goal with
         | |- context [decide (a = ?v)] => destruct (decide (a = v)) as [->|?]
         end;
  repeat match goal with
         | |- context [decide (o = ?v)] => destruct (decide (o = v)) as [->|?]
         end;
  repeat match goal with
         | |- context [decide (?P ∧ ?Q)] =>
             first [ rewrite (decide_True (P := P ∧ Q)) by done
                   | rewrite (decide_False (P := P ∧ Q)) by (intros [? ?]; congruence) ]
         end;
  try done; try (split; [done | apply calls_Logged]).
Qed.

(** C1, as stated, fails for a like: a pre-approved like is approved and
    accepted, and what follows holds neither a counter increment nor a
    timeline fan-out. *)
Lemma CreateLike_no_counter_no_fanout :
  let w := calmWorld newStatus None in
  let out := CreateLike createLike w [] in
  resolveOf Like createLike w []
    = ([Called (PopulateStatusFave preApprovedFave)], Ret (Some (RLike preApprovedFave))) ∧
  pendingApprovalOf (RLike preApprovedFave) = true ∧
  preApprovedOf (RLike preApprovedFave) = true ∧
  snd out = Ret tt ∧
  calls (fst out)
    = [PopulateStatusFave preApprovedFave;
       approveFave preApprovedFave;
       AcceptInteraction (mkApproval "https://example.org/approvals/1");
       notifyFave preApprovedFave;
       invalidateStatusFromTimelines "01TARGET"] ∧
  existsb isCounterIncrement (calls (fst out)) = false ∧
  existsb isFanOut (calls (fst out)) = false.
Proof. cbv zeta. split_and!; reflexivity. Qed.

Lemma approval_gate_witness :
  let w := calmWorld preApprovedReply (Some replyNote) in
  let t1 := fst (resolveOf Reply createNote w []) in
  snd (handlerOf Reply createNote w []) = Ret tt ∧
  calls (fst (handlerOf Reply createNote w []))
    = calls t1
        ++ [approveReply preApprovedReply;
            AcceptInteraction (mkApproval "https://example.org/approvals/1")]
        ++ normalProcessing createNote (RReply preApprovedReply).
Proof.
  apply (approval_gate Reply createNote (calmWorld preApprovedReply (Some replyNote))
           [] _ (RReply preApprovedReply)).
  - reflexivity.
  - reflexivity.
Defined.

(** A reply that is pending and not pre-approved: the notification and
    nothing else. *)
Example pending_reply_only_notifies :
  CreateStatus createNote (calmWorld pendingReply (Some replyNote)) []
    = ([Called (RefreshStatus "local"
                  (mkStatus "" "https://remote.example/statuses/01REPLY"
                     (Some false) "" "" None false) replyNote);
        Called (notifyPendingReply pendingReply)],
       Ret tt).
Proof. reflexivity. Qed.

Lemma CreateStatus_already_created_witness :
  CreateStatus createNote (calmWorld pendingReply None) []
    = ([Called (RefreshStatus "local"
                  (mkStatus "" "https://remote.example/statuses/01REPLY"
                     (Some false) "" "" None false) replyNote)],
       Ret tt) ∧
  ∃ c, [Called (RefreshStatus "local"
                  (mkStatus "" "https://remote.example/statuses/01REPLY"
                     (Some false) "" "" None false) replyNote)]
         = [] ++ [Called c] ∧ isResolution c = true.
Proof.
  apply (CreateStatus_already_created createNote (calmWorld pendingReply None)
           [] _ pendingReply).
  reflexivity.
Defined.

(** C5, as stated, fails on a Create-Block message whose model is not a
    block: the handler returns an error and attempts no step. *)
Lemma CreateBlock_rejects_other_model :
  let out := CreateBlock createBlockWithStatus (calmWorld newStatus None) [] in
  APActivityType createBlockWithStatus = ActivityCreate ∧
  APObjectType createBlockWithStatus = ActivityBlock ∧
  snd out = Abort (Newf "*gtsmodel.Status not parseable as *gtsmodel.Block") ∧
  fst out = [].
Proof. cbv zeta. split_and!; reflexivity. Qed.

Lemma CreateBlock_attempts_every_step_witness :
  CreateBlock createBlock followDeletionFails []
    = (attemptEach (cleanupSteps someBlock) followDeletionFails [], Ret tt) ∧
  calls (attemptEach (cleanupSteps someBlock) followDeletionFails [])
    = calls [] ++ (fst <$> cleanupSteps someBlock).
Proof.
  apply (CreateBlock_attempts_every_step createBlock someBlock followDeletionFails []).
  reflexivity.
Defined.

(** The follow deletion fails: its line is written, and the three
    deletions after it are attempted all the same. *)
Example follow_deletion_failure_is_logged :
  CreateBlock createBlock followDeletionFails []
    = ([Called (HomeWipeItemsFromAccountID "01BLOCKER" "01BLOCKED");
        Called (HomeWipeItemsFromAccountID "01BLOCKED" "01BLOCKER");
        Called (ListWipeItemsFromAccountID "01BLOCKER" "01BLOCKED");
        Called (ListWipeItemsFromAccountID "01BLOCKED" "01BLOCKER");
        Called (DeleteFollow "01BLOCKER" "01BLOCKED");
        Logged ERROR
          "error deleting follow from block -> target: sql: connection is closed";
        Called (DeleteFollow "01BLOCKED" "01BLOCKER");
        Called (DeleteFollowRequest "01BLOCKER" "01BLOCKED");
        Called (DeleteFollowRequest "01BLOCKED" "01BLOCKER")],
       Ret tt).
Proof. reflexivity. Qed.

(** Create-Person has no row: the error names both tags. *)
Example create_person_is_unhandled :
  ProcessFromFediAPI (λ _ _, mret tt) (messageOf "Create" "Person" None None)
      (calmWorld newStatus None) []
    = ([Logged INFO "processing from fedi API"],
       Abort (Newf "unhandled: Create Person")).
Proof. reflexivity. Qed.

End FediAPIFacts.
(* --------------------------------------------------------------------- *)
(** ** Pages: what a page can hold *)
(* --------------------------------------------------------------------- *)

Module PagingBounds.
Import Paging PagingLinks PagingFacts.
Section Generic.
Context {T : Type} `{EqDecision T} (zeroT : T).
Implicit Types (l input : list T) (b : Boundary (T:=T)) (p : Page (T:=T)).

Lemma sublist_reverse l1 l2 : l1 `sublist_of` l2 → reverse l1 `sublist_of` reverse l2.
Proof.
  induction 1 as [|x l1 l2 _ IH|x l1 l2 _ IH].
  - done.
  - rewrite !reverse_cons. by apply sublist_app.
  - rewrite reverse_cons. by apply sublist_inserts_r.
Qed.

Lemma window_slice bLo bHi input :
  ∃ m n, window zeroT bLo bHi input = take n (drop m input).
Proof.
  unfold window, sliceFrom, sliceTo. cbv zeta.
  destruct (bool_decide (Find zeroT bLo input ≠ -1)).
  - destruct (bool_decide (Find zeroT bHi _ ≠ -1)).
    + by eexists _, _.
    + exists (Z.to_nat (Find zeroT bLo input + 1)), (length input).
      symmetry. apply take_ge. rewrite length_drop. lia.
  - destruct (bool_decide (Find zeroT bHi _ ≠ -1)).
    + exists 0%nat. by eexists.
    + exists 0%nat, (length input). symmetry. by apply take_ge.
Qed.

Lemma window_sublist bLo bHi input : window zeroT bLo bHi input `sublist_of` input.
Proof.
  destruct (window_slice bLo bHi input) as (m & n & ->).
  etrans; [apply sublist_take | apply sublist_drop].
Qed.

Lemma cutToLimit_sublist limit l : cutToLimit limit l `sublist_of` l.
Proof. unfold cutToLimit. case_bool_decide; [apply sublist_take | done]. Qed.

Lemma cutToLimit_length limit l :
  0 < limit → Z.of_nat (length (cutToLimit limit l)) ≤ limit.
Proof.
  intros Hpos. unfold cutToLimit. rewrite bool_decide_eq_true_2 by done.
  rewrite length_take. lia.
Qed.

Lemma pageOf_window d p input :
  pageOf zeroT d (Some p) input
    = cutToLimit (Limit p)
        (if reverses d p
         then reverse (window zeroT (opening d p) (closing d p) input)
         else window zeroT (opening d p) (closing d p) input).
Proof. destruct d; [apply PageAsc_window | apply PageDesc_window]. Qed.

(** X1. Whatever the page and the input, PageAsc and PageDesc hand back
    a subsequence of the input, or of the reversed input when the order
    asks for a reversal; and with a limit above zero, no more elements
    than the limit. *)
Theorem page_within_input_and_limit (d : Direction) p input :
  pageOf zeroT d (Some p) input
    `sublist_of` (if reverses d p then reverse input else input) ∧
  (0 < Limit p → Z.of_nat (length (pageOf zeroT d (Some p) input)) ≤ Limit p).
Proof.
  rewrite pageOf_window. split.
  - etrans; [apply cutToLimit_sublist|].
    destruct (reverses d p); [apply sublist_reverse|]; apply window_sublist.
  - apply cutToLimit_length.
Qed.

Lemma scan_in_range v l : ∀ i, scan v i l = -1 ∨ i ≤ scan v i l < i + Z.of_nat (length l).
Proof.
  induction l as [|x l IH]; intros i; simpl; [by left|].
  destruct (decide (x = v)); [right; lia|].
  destruct (IH (i + 1)) as [->|?]; [by left | right; lia].
Qed.

(** What is left once the window is opened at [bLo] does not hold its
    value; what is kept up to [bHi] does not hold that one's. *)
Lemma window_excludes bLo bHi input b :
  NoDup input → b = bLo ∨ b = bHi → zero zeroT (Value b) = false →
  Value b ∉ window zeroT bLo bHi input.
Proof.
  intros Hnd Hb Hnz.
  assert (∀ l : list T, NoDup l → ∀ c, zero zeroT (Value c) = false →
            (Value c ∉ if bool_decide (Find zeroT c l ≠ -1)
                       then sliceFrom (Find zeroT c l + 1) l else l) ∧
            (Value c ∉ if bool_decide (Find zeroT c l ≠ -1)
                       then sliceTo (Find zeroT c l) l else l)) as Hcut.
  { intros l Hl c Hc. rewrite Find_located.
    destruct (located zeroT c l) as [i|] eqn:Hloc.
    - rewrite bool_decide_eq_true_2 by lia.
      apply located_Some in Hloc as (_ & Hi & Hfirst).
      unfold sliceFrom, sliceTo.
      replace (Z.to_nat (Z.of_nat i + 1)) with (S i) by lia. rewrite Nat2Z.id.
      split.
      + intros [j Hj]%list_elem_of_lookup. rewrite lookup_drop in Hj.
        pose proof (NoDup_lookup _ _ _ _ Hl Hi Hj). lia.
      + intros (j & Hj & Hlt)%elem_of_take. by apply (Hfirst j).
    - rewrite bool_decide_eq_false_2 by lia.
      apply located_None in Hloc as [Hz|Hnot]; [congruence|]. done. }
  unfold window.
  set (in1 := if bool_decide (Find zeroT bLo input ≠ -1)
              then sliceFrom (Find zeroT bLo input + 1) input else input).
  assert (in1 `sublist_of` input) as Hsub1.
  { subst in1. case_bool_decide; [apply sublist_drop | done]. }
  assert (NoDup in1) as Hnd1 by (by eapply sublist_NoDup).
  destruct Hb as [->| ->].
  - destruct (Hcut input Hnd bLo Hnz) as [Hlo _]. fold in1 in Hlo.
    intros Hin. apply Hlo.
    assert ((if bool_decide (Find zeroT bHi in1 ≠ -1)
             then sliceTo (Find zeroT bHi in1) in1 else in1) `sublist_of` in1) as Hs.
    { case_bool_decide; [apply sublist_take | done]. }
    by eapply elem_of_sublist.
  - by destruct (Hcut in1 Hnd1 bHi Hnz) as [_ Hhi].
Qed.

(** X2. Both boundaries are exclusive: over an input without
    duplicates, a page never holds the value of its Min or of its Max
    boundary, when that value is set. *)
Theorem boundaries_are_exclusive (d : Direction) p input b :
  NoDup input → b = Min p ∨ b = Max p → zero zeroT (Value b) = false →
  Value b ∉ pageOf zeroT d (Some p) input.
Proof.
  intros Hnd Hb Hnz Hin. rewrite pageOf_window in Hin.
  apply (λ H, elem_of_sublist _ _ _ H (cutToLimit_sublist _ _)) in Hin.
  assert (Value b ∈ window zeroT (opening d p) (closing d p) input) as Hw.
  { destruct (reverses d p); [|done]. by rewrite elem_of_reverse in Hin. }
  revert Hw. apply window_excludes; [done| |done].
  destruct d; simpl; tauto.
Qed.
End Generic.

Lemma boundaries_are_exclusive_witness :
  "04" ∉ pageOf "" Desc (Some below04) fiveIDs.
Proof.
  apply (boundaries_are_exclusive "" Desc below04 fiveIDs (Max below04)).
  - apply (bool_decide_unpack _). vm_compute. exact I.
  - right. reflexivity.
  - reflexivity.
Defined.

(** The page below "04", two at a time: without a since_id the order is
    that of min_id, and the window is handed back reversed. *)
Example below04_of_five : pageOf "" Desc (Some below04) fiveIDs = ["01"; "02"].
Proof. reflexivity. Qed.
End PagingBounds.

(* --------------------------------------------------------------------- *)
(** ** The pager of paging.go against the page *)
(* --------------------------------------------------------------------- *)

Module PagerFacts.
Import Paging PagingLinks PagingFacts.

Lemma resliceFrom_scan id ids rest : ∀ i,
  Pager.resliceFrom id ids i rest
    = if bool_decide (scan id (Z.of_nat i) rest ≠ -1)
      then sliceFrom (scan id (Z.of_nat i) rest + 1) ids else ids.
Proof.
  induction rest as [|x rest IH]; intros i; simpl.
  { done. }
  destruct (decide (x = id)).
  - rewrite bool_decide_eq_true_2 by lia. unfold sliceFrom. f_equal. lia.
  - rewrite IH. by replace (Z.of_nat (S i)) with (Z.of_nat i + 1) by lia.
Qed.

Lemma resliceTo_scan id ids rest : ∀ i,
  Pager.resliceTo id ids i rest
    = if bool_decide (scan id (Z.of_nat i) rest ≠ -1)
      then sliceTo (scan id (Z.of_nat i) rest) ids else ids.
Proof.
  induction rest as [|x rest IH]; intros i; simpl.
  { done. }
  destruct (decide (x = id)).
  - rewrite bool_decide_eq_true_2 by lia. unfold sliceTo. f_equal. lia.
  - rewrite IH. by replace (Z.of_nat (S i)) with (Z.of_nat i + 1) by lia.
Qed.

Lemma Find_nonzero (b : Boundary (T:=string)) ids :
  Value b ≠ "" → Find "" b ids = scan (Value b) 0 ids.
Proof. intros Hne. unfold Find, zero. by rewrite bool_decide_eq_false_2. Qed.

Lemma Find_zero (b : Boundary (T:=string)) ids :
  Value b = "" → Find "" b ids = -1.
Proof. intros He. unfold Find, zero. by rewrite bool_decide_eq_true_2. Qed.

Lemma from_opt (b : Boundary (T:=string)) ids :
  (if bool_decide (Find "" b ids ≠ -1)
   then sliceFrom (Find "" b ids + 1) ids else ids)
  = if bool_decide (Value b ≠ "") then Pager.resliceFrom (Value b) ids 0 ids else ids.
Proof.
  destruct (decide (Value b = "")) as [He|Hne].
  - rewrite Find_zero by done.
    rewrite (bool_decide_eq_false_2 (-1 ≠ -1)) by lia.
    by rewrite bool_decide_eq_false_2 by tauto.
  - rewrite Find_nonzero by done. rewrite resliceFrom_scan.
    by rewrite (bool_decide_eq_true_2 (Value b ≠ "")) by done.
Qed.

Lemma to_opt (b : Boundary (T:=string)) ids :
  (if bool_decide (Find "" b ids ≠ -1)
   then sliceTo (Find "" b ids) ids else ids)
  = if bool_decide (Value b ≠ "") then Pager.resliceTo (Value b) ids 0 ids else ids.
Proof.
  destruct (decide (Value b = "")) as [He|Hne].
  - rewrite Find_zero by done.
    rewrite (bool_decide_eq_false_2 (-1 ≠ -1)) by lia.
    by rewrite bool_decide_eq_false_2 by tauto.
  - rewrite Find_nonzero by done. rewrite resliceTo_scan.
    by rewrite (bool_decide_eq_true_2 (Value b ≠ "")) by done.
Qed.

(** X3. With a SinceID or a MinID set, the pager of paging.go and the
    page that paging.New builds from the same four values select the
    same IDs, in the same order, in both directions. *)
Theorem Pager_agrees_with_Page (d : Direction) (p : Pager.Pager) (ids : list string) :
  Pager.SinceID p ≠ "" ∨ Pager.MinID p ≠ "" →
  Pager.pageOf d (Some p) ids = pageOf "" d (Some (Pager.toPage p)) ids.
Proof.
  intros Hmin. destruct p as [since min max limit]. simpl in Hmin.
  unfold Pager.toPage, New, MinID, MaxID. cbn [Pager.SinceID Pager.MinID Pager.MaxID Pager.Limit].
  destruct d; unfold Pager.pageOf, pageOf, Pager.PageAsc, Pager.PageDesc,
    PageAsc, PageDesc, Pager.limited, truncate, order; cbv zeta;
    cbn [Pager.SinceID Pager.MinID Pager.MaxID Pager.Limit Min Max Limit];
    rewrite !from_opt, !to_opt.
  - destruct (bool_decide (since ≠ "")) eqn:Hs; cbn.
    + rewrite Hs. done.
    + apply bool_decide_eq_false in Hs.
      assert (min ≠ "") as Hm by tauto.
      rewrite (bool_decide_eq_true_2 (min ≠ "")) by done. done.
  - destruct (bool_decide (since ≠ "")) eqn:Hs; cbn.
    + rewrite Hs. done.
    + apply bool_decide_eq_false in Hs.
      assert (min ≠ "") as Hm by tauto.
      rewrite (bool_decide_eq_true_2 (min ≠ "")) by done. done.
Qed.

Lemma Pager_agrees_with_Page_witness :
  Pager.pageOf Desc (Some above02) fiveIDs = pageOf "" Desc (Some (Pager.toPage above02)) fiveIDs.
Proof.
  apply (Pager_agrees_with_Page Desc above02 fiveIDs).
  right. simpl. discriminate.
Defined.

(** Without SinceID and MinID the two differ: the pager hands an
    ascending input back reversed, the page as it is. *)
Example Pager_differs_without_minimum :
  Pager.PageAsc (Some (Pager.mkPager "" "" "" 0)) ["01"; "02"; "03"] = ["03"; "02"; "01"] ∧
  PageAsc "" (Some (Pager.toPage (Pager.mkPager "" "" "" 0))) ["01"; "02"; "03"]
    = ["01"; "02"; "03"].
Proof. split; reflexivity. Qed.
End PagerFacts.

(* --------------------------------------------------------------------- *)
(** ** Page links *)
(* --------------------------------------------------------------------- *)

Module LinkFacts.
Import Paging PagingLinks.
Section Links.
Variable urlString : string → string → string → string → string.

Lemma Query_empty (b : Boundary (T:=string)) : Query b = "" ↔ Value b = "".
Proof.
  unfold Query, zero. case_bool_decide as Hv; simpl; [done|].
  split; [|done]. destruct (Name b); discriminate.
Qed.

(** The link of a page with only its Max boundary set. *)
Lemma ToLink_max_only (p : Page (T:=string)) (proto host path : string)
    (queryParams : list string) :
  Value (Min p) = "" → Value (Max p) ≠ "" →
  ToLink urlString (Some p) proto host path queryParams
    = urlString proto host path
        (String.concat "&"
           (queryParams ++ [Name (Max p) +:+ "=" +:+ Value (Max p)] ++
            if bool_decide (0 < Limit p) then ["limit=" +:+ Itoa (Limit p)] else [])).
Proof.
  intros Hmin Hmax. unfold ToLink.
  rewrite (bool_decide_eq_false_2 (Query (Min p) ≠ "")) by (rewrite Query_empty; tauto).
  rewrite (bool_decide_eq_true_2 (Query (Max p) ≠ "")) by (by rewrite Query_empty).
  rewrite bool_decide_eq_false_2 by (rewrite length_app; simpl; lia).
  assert (Query (Max p) = Name (Max p) +:+ "=" +:+ Value (Max p)) as ->.
  { unfold Query, zero. by rewrite bool_decide_eq_false_2. }
  case_bool_decide; by rewrite <- ?app_assoc, ?app_nil_r.
Qed.

(** X4. The link of the next page: for a cursor that is not empty, the
    link of [p.Next(max)] carries the caller's query parameters, then
    the Max boundary's name with the cursor, then the limit when it is
    above zero, and no Min parameter. *)
Theorem ToLink_Next (p : Page (T:=string)) (max proto host path : string)
    (queryParams : list string) :
  max ≠ "" →
  ToLink urlString (Next "" (Some p) max) proto host path queryParams
    = urlString proto host path
        (String.concat "&"
           (queryParams ++ [Name (Max p) +:+ "=" +:+ max] ++
            if bool_decide (0 < Limit p) then ["limit=" +:+ Itoa (Limit p)] else [])).
Proof.
  intros Hmax. unfold Next, zero. rewrite bool_decide_eq_false_2 by done.
  rewrite ToLink_max_only; [|done|done].
  unfold BoundaryNew. by cbn [Max Limit Name Value].
Qed.

(** The link of a page is empty exactly when neither boundary is set. *)
Lemma ToLink_Some_empty (p : Page (T:=string)) (proto host path : string)
    (queryParams : list string) :
  (∀ query, urlString proto host path query ≠ "") →
  ToLink urlString (Some p) proto host path queryParams = "" ↔
    Value (Min p) = "" ∧ Value (Max p) = "".
Proof.
  intros Hurl. simpl.
  destruct (decide (Value (Min p) = "")) as [Hmin|Hmin];
    destruct (decide (Value (Max p) = "")) as [Hmax|Hmax].
  - rewrite !(bool_decide_eq_false_2 (Query _ ≠ "")) by (rewrite Query_empty; tauto).
    by rewrite bool_decide_eq_true_2.
  - rewrite (bool_decide_eq_false_2 (Query (Min p) ≠ "")) by (rewrite Query_empty; tauto).
    rewrite (bool_decide_eq_true_2 (Query (Max p) ≠ "")) by (by rewrite Query_empty).
    rewrite bool_decide_eq_false_2 by (rewrite length_app; simpl; lia).
    split; [intros H; by apply Hurl in H | tauto].
  - rewrite (bool_decide_eq_true_2 (Query (Min p) ≠ "")) by (by rewrite Query_empty).
    rewrite (bool_decide_eq_false_2 (Query (Max p) ≠ "")) by (rewrite Query_empty; tauto).
    rewrite bool_decide_eq_false_2 by (rewrite length_app; simpl; lia).
    split; [intros H; by apply Hurl in H | tauto].
  - rewrite !(bool_decide_eq_true_2 (Query _ ≠ "")) by (by rewrite Query_empty).
    rewrite bool_decide_eq_false_2 by (rewrite !length_app; simpl; lia).
    split; [intros H; by apply Hurl in H | tauto].
Qed.

(** X5. ToLink hands back the empty string exactly for a nil page and
    for a page with neither boundary set, whatever the limit and the
    query parameters, given that the URL rendering is never empty. *)
Theorem ToLink_empty_iff_unbounded (p : option (Page (T:=string)))
    (proto host path : string) (queryParams : list string) :
  (∀ query, urlString proto host path query ≠ "") →
  ToLink urlString p proto host path queryParams = "" ↔
    match p with
    | None => True
    | Some p => Value (Min p) = "" ∧ Value (Max p) = ""
    end.
Proof.
  intros Hurl. destruct p as [p|].
  - by apply ToLink_Some_empty.
  - simpl. done.
Qed.

(** X6. The next link of the pager and the next link of the page built
    from the same pager are the same string. *)
Theorem Pager_NextLink_agrees (p : Pager.Pager) (max proto host path : string)
    (queryParams : list string) :
  max ≠ "" →
  Pager.NextLink urlString (Pager.Next (Some p) max) proto host path queryParams
    = ToLink urlString (Next "" (Some (Pager.toPage p)) max) proto host path queryParams.
Proof.
  intros Hmax. unfold Next, zero. rewrite bool_decide_eq_false_2 by done.
  rewrite ToLink_max_only; [|done|done].
  unfold Pager.Next. rewrite bool_decide_eq_false_2 by done.
  unfold Pager.NextLink, Pager.buildLink. cbn [Pager.MaxID Pager.Limit].
  rewrite bool_decide_eq_false_2 by done.
  unfold Pager.toPage, New, MaxID, BoundaryNew. cbn [Max Limit Name Value].
  case_bool_decide; by rewrite <- ?app_assoc, ?app_nil_r.
Qed.
End Links.

Lemma plainURL_nonempty proto host path query : plainURL proto host path query ≠ "".
Proof. unfold plainURL. destruct proto; simpl; discriminate. Qed.

Lemma ToLink_Next_witness :
  ToLink plainURL (Next "" (Some below04) "02") "https" "example.org" "/api/v1/notifications"
      ["types[]=mention"]
    = plainURL "https" "example.org" "/api/v1/notifications"
        (String.concat "&"
           (["types[]=mention"] ++ [Name (Max below04) +:+ "=" +:+ "02"] ++
            if bool_decide (0 < Limit below04) then ["limit=" +:+ Itoa (Limit below04)]
            else [])).
Proof.
  apply (ToLink_Next plainURL below04 "02" "https" "example.org" "/api/v1/notifications"
           ["types[]=mention"]).
  discriminate.
Defined.

Lemma ToLink_empty_iff_unbounded_witness :
  ToLink plainURL (Some below04) "https" "example.org" "/api/v1/notifications" [] = "" ↔
  Value (Min below04) = "" ∧ Value (Max below04) = "".
Proof.
  apply (ToLink_empty_iff_unbounded plainURL (Some below04) "https" "example.org"
           "/api/v1/notifications" []).
  intros query. apply plainURL_nonempty.
Defined.

Lemma Pager_NextLink_agrees_witness :
  Pager.NextLink plainURL (Pager.Next (Some above02) "01") "https" "example.org" "/x" []
    = ToLink plainURL (Next "" (Some (Pager.toPage above02)) "01") "https" "example.org" "/x" [].
Proof.
  apply (Pager_NextLink_agrees plainURL above02 "01" "https" "example.org" "/x" []).
  discriminate.
Defined.

(** The link as it is written out. *)
Example next_link_of_below04 :
  ToLink plainURL (Next "" (Some below04) "02") "https" "example.org" "/api/v1/notifications"
      ["types[]=mention"]
    = "https://example.org/api/v1/notifications?types[]=mention&max_id=02&limit=2".
Proof. vm_compute. reflexivity. Qed.
End LinkFacts.

(* --------------------------------------------------------------------- *)
(** ** The pageable response *)
(* --------------------------------------------------------------------- *)

Module ResponseFacts.
Import Paging PagingLinks PagingResponse.
Section Response.
Context {Item : Type}.
Variable urlString : string → string → string → string → string.
Variables (proto host : string).

(** X30. PackageResponse hands back the empty response when there are no
    items; otherwise it hands the items back as they are, with a next
    link and a previous link that are empty exactly for a page without
    boundaries, and a Link header that is empty exactly when both are. *)
Theorem PackageResponse_header (items : list Item) (path : string)
    (next prev : option (Page (T:=string))) (query : list string) :
  (∀ q, urlString proto host path q ≠ "") →
  let r := PackageResponse urlString proto host items path next prev query in
  (items = [] → r = EmptyResponse) ∧
  (items ≠ [] →
     Items r = items ∧
     (NextLink r = "" ↔ unbounded next) ∧
     (PrevLink r = "" ↔ unbounded prev) ∧
     (LinkHeader r = "" ↔ unbounded next ∧ unbounded prev)).
Proof.
  intros Hurl. cbv zeta. unfold PackageResponse. split.
  { intros ->. done. }
  intros Hne. rewrite bool_decide_eq_false_2 by (by destruct items).
  cbn [Items NextLink PrevLink LinkHeader].
  assert (∀ p, ToLink urlString p proto host path query = "" ↔ unbounded p) as Hlink.
  { intros [p|]; [by apply LinkFacts.ToLink_Some_empty | done]. }
  split_and!; [done|apply Hlink|apply Hlink|].
  rewrite <- (Hlink next), <- (Hlink prev).
  destruct (ToLink urlString next proto host path query) as [|c1 l1],
           (ToLink urlString prev proto host path query) as [|c2 l2]; simpl.
  - done.
  - split; [discriminate | intros [_ [=]]].
  - split; [discriminate | intros [[=] _]].
  - split; [discriminate | intros [[=] _]].
Qed.
End Response.

Lemma PackageResponse_header_witness :
  let r := PackageResponse plainURL "https" "example.org" fiveIDs "/api/v1/notifications"
             (Some below04) None [] in
  (fiveIDs = [] → r = EmptyResponse) ∧
  (fiveIDs ≠ [] →
     Items r = fiveIDs ∧
     (NextLink r = "" ↔ unbounded (Some below04)) ∧
     (PrevLink r = "" ↔ unbounded None) ∧
     (LinkHeader r = "" ↔ unbounded (Some below04) ∧ unbounded None)).
Proof.
  apply (PackageResponse_header plainURL "https" "example.org" fiveIDs
           "/api/v1/notifications" (Some below04) None []).
  intros q. apply LinkFacts.plainURL_nonempty.
Defined.

(** The header of a response with a next page and no previous one. *)
Example header_with_next_only :
  LinkHeader (PackageResponse plainURL "https" "example.org" fiveIDs
                "/api/v1/notifications" (Some below04) None [])
    = "<https://example.org/api/v1/notifications?max_id=04&limit=2>; rel="
        +:+ dquote +:+ "next" +:+ dquote.
Proof. vm_compute. reflexivity. Qed.
End ResponseFacts.

(* --------------------------------------------------------------------- *)
(** ** Mute decisions: the loader and its lookups *)
(* --------------------------------------------------------------------- *)

Module MuteLoaderFacts.
Import Mutes MuteLookups.

Lemma loaderStep_notifExpiryCounted now a mute :
  notifExpiryCounted a → notifExpiryCounted (loaderStep now a mute).
Proof.
  unfold notifExpiryCounted, loaderStep. intros Ha.
  destruct (negb (IsZero (ExpiresAt mute)) && Before (ExpiresAt mute) now); [done|].
  destruct (UMNotifications mute); simpl; [done|done].
Qed.

Lemma foldl_notifExpiryCounted now ums : ∀ a,
  notifExpiryCounted a → notifExpiryCounted (foldl (loaderStep now) a ums).
Proof.
  induction ums as [|m ums IH]; intros a Ha; simpl; [done|].
  apply IH. by apply loaderStep_notifExpiryCounted.
Qed.

Lemma loadDetails_notifExpiry now requesterID statusID tm ums :
  IsZero (NotificationExpiry (loadDetails now requesterID statusID tm ums)) = false →
  Notifications (loadDetails now requesterID statusID tm ums) = true.
Proof.
  unfold loadDetails, IsZero. simpl. intros Hnz.
  apply bool_decide_eq_false in Hnz.
  apply (foldl_notifExpiryCounted now ums (mkAcc false zeroTime tm zeroTime)); [|done].
  intros Hne. by destruct Hne.
Qed.

(** X7. On a cache hit StatusNotificationsMuted answers from the cached
    decision and the current time: muted when the Notifications flag is
    set and its expiry has not passed, with withExpiry set when the flag
    comes with an expiry; and for a decision the loader produced, once
    the notification expiry has passed the answer is muted=false with
    withExpiry=true. *)
Theorem StatusNotificationsMuted_rechecks_expiry (requesterID statusID : string)
    (env : Env) (d : CachedMute) :
  cached env = Some d →
  StatusNotificationsMuted (Some requesterID) statusID env
    = (Notifications d && negb (NotificationExpired d (clock env)),
       Notifications d && negb (IsZero (NotificationExpiry d)), None) ∧
  (∀ loadedAt tm ums,
     d = loadDetails loadedAt requesterID statusID tm ums →
     NotificationExpired d (clock env) = true →
     StatusNotificationsMuted (Some requesterID) statusID env = (false, true, None)).
Proof.
  intros Hhit.
  assert (StatusNotificationsMuted (Some requesterID) statusID env
    = (Notifications d && negb (NotificationExpired d (clock env)),
       Notifications d && negb (IsZero (NotificationExpiry d)), None)) as Heq.
  { unfold StatusNotificationsMuted, getStatusMuteDetails, LoadOne, NotificationExpired.
    rewrite Hhit.
    destruct (Notifications d); simpl; [|done].
    destruct (IsZero (NotificationExpiry d)); simpl; [done|].
    by rewrite negb_involutive. }
  split; [done|]. intros loadedAt tm ums Hd Hexp. rewrite Heq, Hexp.
  pose proof Hexp as Hexp'. unfold NotificationExpired in Hexp'.
  apply andb_true_iff in Hexp' as [Hnz _]. apply negb_true_iff in Hnz.
  rewrite Hnz. subst d. rewrite (loadDetails_notifExpiry _ _ _ _ _ Hnz). done.
Qed.

(** What the loader has seen after a prefix of the mutes. *)
Lemma foldl_flags now ums : ∀ a,
  let a' := foldl (loaderStep now) a ums in
  (muted a' = true ↔ muted a = true ∨ ∃ m, m ∈ ums ∧ unexpired now m = true) ∧
  (notifs a' = true ↔
     notifs a = true ∨ ∃ m, m ∈ ums ∧ unexpired now m = true ∧ UMNotifications m = true).
Proof.
  induction ums as [|m ums IH]; intros a; simpl.
  { split; (split; [by left | intros [?|(?&?%elem_of_nil&_)]; done]). }
  destruct (IH (loaderStep now a m)) as [IHm IHn]. simpl in IHm, IHn.
  rewrite IHm, IHn. clear IH IHm IHn.
  unfold loaderStep, unexpired.
  destruct (IsZero (ExpiresAt m)) eqn:Hz, (Before (ExpiresAt m) now) eqn:Hb,
    (UMNotifications m) eqn:Hn; simpl; split;
    (split;
     [ intros [H|(m' & Hin & Hrest)];
       [ first [ by left | right; exists m; rewrite ?Hz, ?Hb, ?Hn; split; [left|done]
               | left; done ]
       | right; exists m'; split; [by right | done] ]
     | intros [H|(m' & [->|Hin]%elem_of_cons & Hrest)];
       [ first [ by left | left; done ]
       | first [ by left | rewrite ?Hz, ?Hb, ?Hn in Hrest; simpl in Hrest; by destruct Hrest
               | rewrite ?Hz, ?Hb, ?Hn in Hrest; simpl in Hrest; done ]
       | right; by exists m' ] ]).
Qed.

(** X8. What the loader decides: the status is muted exactly when some
    related user mute has not expired at load time; notifications are
    muted exactly when the thread is muted or some unexpired user mute
    mutes notifications. *)
Theorem loader_flags now requesterID statusID tm ums :
  let d := loadDetails now requesterID statusID tm ums in
  (Mute d = true ↔ ∃ m, m ∈ ums ∧ unexpired now m = true) ∧
  (Notifications d = true ↔
     tm = true ∨ ∃ m, m ∈ ums ∧ unexpired now m = true ∧ UMNotifications m = true).
Proof.
  destruct (foldl_flags now ums (mkAcc false zeroTime tm zeroTime)) as [Hm Hn].
  simpl in *. unfold loadDetails; simpl. rewrite Hm, Hn. split; [|done].
  split; [intros [?|?]; done | by right].
Qed.

Lemma loaderStep_expiry now a m :
  let a' := loaderStep now a m in
  muteExpiry a ≤ muteExpiry a' ∧
  (0 ≤ muteExpiry a → unexpired now m = true → ExpiresAt m ≤ muteExpiry a') ∧
  (muteExpiry a' = muteExpiry a ∨ unexpired now m = true ∧ ExpiresAt m = muteExpiry a').
Proof.
  unfold loaderStep, unexpired, IsZero, Before, After, zeroTime.
  repeat case_bool_decide; destruct (UMNotifications m); simpl;
    split_and!; try lia; try done; try (by left); try (right; split; [done|lia]).
Qed.

Lemma foldl_expiry now ums : ∀ a,
  let a' := foldl (loaderStep now) a ums in
  muteExpiry a ≤ muteExpiry a' ∧
  (0 ≤ muteExpiry a → ∀ m, m ∈ ums → unexpired now m = true → ExpiresAt m ≤ muteExpiry a') ∧
  (muteExpiry a' = muteExpiry a ∨
   ∃ m, m ∈ ums ∧ unexpired now m = true ∧ ExpiresAt m = muteExpiry a').
Proof.
  induction ums as [|m ums IH]; intros a; simpl.
  { split_and!; [lia | by intros _ ? ?%elem_of_nil | by left]. }
  destruct (IH (loaderStep now a m)) as (IH1 & IH2 & IH3).
  destruct (loaderStep_expiry now a m) as (S1 & S2 & S3).
  simpl in *. split_and!.
  - lia.
  - intros H0 m' [->|Hin]%elem_of_cons Hun.
    + specialize (S2 H0 Hun). lia.
    + apply IH2; [lia|done..].
  - destruct IH3 as [IH3|(m' & Hin & Hun & Heq)].
    + rewrite IH3. destruct S3 as [S3|[Hun Heq]]; [by left|].
      right. exists m. split_and!; [by left|done..].
    + right. exists m'. split_and!; [by right|done..].
Qed.

(** X9. The expiry that the loader records is no earlier than the expiry
    of any mute it counts, and when it is not the zero time it is the
    expiry of one of them. *)
Theorem loader_expiry_latest now requesterID statusID tm ums :
  let d := loadDetails now requesterID statusID tm ums in
  (∀ m, m ∈ ums → unexpired now m = true → ExpiresAt m ≤ MuteExpiry d) ∧
  (MuteExpiry d ≠ zeroTime →
   ∃ m, m ∈ ums ∧ unexpired now m = true ∧ ExpiresAt m = MuteExpiry d).
Proof.
  destruct (foldl_expiry now ums (mkAcc false zeroTime tm zeroTime)) as (H1 & H2 & H3).
  simpl in *. unfold loadDetails; simpl. split.
  - apply H2. unfold zeroTime. lia.
  - intros Hnz. by destruct H3 as [H3|H3].
Qed.

(** X10. The latest expiry governs the cached decision, whatever other
    mutes there are, a mute without expiry among them: when one of the
    related mutes expires after load time, a cache hit at a time that no
    expiry exceeds answers muted=false with withExpiry=true. *)
Theorem cached_mute_lapses_with_latest_expiry now later requesterID statusID tm ums
    (temp : UserMute) env :
  temp ∈ ums → 0 < ExpiresAt temp → now ≤ ExpiresAt temp →
  (∀ m, m ∈ ums → ExpiresAt m ≤ later) →
  cached env = Some (loadDetails now requesterID statusID tm ums) →
  clock env = later →
  StatusMuted (Some requesterID) statusID env = (false, true, None).
Proof.
  intros Htemp Hpos Hnow Hlater Hhit Hclock.
  destruct (foldl_expiry now ums (mkAcc false zeroTime tm zeroTime)) as (_ & Hub & Hex).
  destruct (foldl_flags now ums (mkAcc false zeroTime tm zeroTime)) as [Hm _].
  simpl in Hub, Hex, Hm.
  assert (unexpired now temp = true) as Hun.
  { unfold unexpired, Before. apply orb_true_iff. right.
    apply negb_true_iff, bool_decide_eq_false. lia. }
  unfold StatusMuted, getStatusMuteDetails, LoadOne. rewrite Hhit, Hclock.
  unfold loadDetails. cbn [Mute MuteExpiry].
  set (a := foldl (loaderStep now) (mkAcc false zeroTime tm zeroTime) ums) in *.
  assert (0 < muteExpiry a) as Hd.
  { assert (0 ≤ zeroTime) as H0 by (unfold zeroTime; lia).
    specialize (Hub H0 temp Htemp Hun). lia. }
  assert (muted a = true) as -> by (apply Hm; right; by exists temp).
  destruct Hex as [Heq|(m & Hin & _ & Heq)]; [unfold zeroTime in Heq; lia|].
  specialize (Hlater m Hin). cbn [negb].
  unfold IsZero, After, zeroTime.
  rewrite (bool_decide_eq_false_2 (muteExpiry a = 0)) by lia.
  rewrite (bool_decide_eq_false_2 (later < muteExpiry a)) by lia. done.
Qed.

Lemma mentionMutes_ok GetMute requesterID mentions : ∀ mutes,
  (∀ t, t ∈ filter (λ t, t ≠ requesterID) mentions → fails GetMute requesterID t = false) →
  mentionMutes GetMute requesterID mentions mutes
    = inr (mutes ++ omap (λ t, fst (GetMute requesterID t))
                      (filter (λ t, t ≠ requesterID) mentions)).
Proof.
  induction mentions as [|t rest IH]; intros mutes Hok; simpl.
  { by rewrite app_nil_r. }
  rewrite filter_cons in Hok |- *.
  case_bool_decide as Ht.
  - rewrite decide_True in Hok |- * by done.
    pose proof (Hok t (list_elem_of_here _ _)) as Hf. unfold fails in Hf.
    assert (∀ t', t' ∈ filter (λ t0, t0 ≠ requesterID) rest →
                  fails GetMute requesterID t' = false) as Hrest.
    { intros t' Hin. apply Hok. by right. }
    simpl. destruct (GetMute requesterID t) as [mute [err|]]; simpl in *.
    + rewrite Hf. rewrite IH by done. destruct mute; simpl; [|done].
      by rewrite <- app_assoc.
    + rewrite IH by done. destruct mute; simpl; [|done]. by rewrite <- app_assoc.
  - rewrite decide_False in Hok |- * by (intros ?; done). by apply IH.
Qed.

Lemma mentionMutes_fail GetMute requesterID mentions : ∀ mutes t,
  t ∈ filter (λ t, t ≠ requesterID) mentions → fails GetMute requesterID t = true →
  ∃ msg, mentionMutes GetMute requesterID mentions mutes = inl msg.
Proof.
  induction mentions as [|t0 rest IH]; intros mutes t Hin Hf; simpl.
  { by apply elem_of_nil in Hin. }
  rewrite filter_cons in Hin.
  case_bool_decide as Ht.
  - rewrite decide_True in Hin by done.
    destruct (fails GetMute requesterID t0) eqn:Hf0.
    + unfold fails in Hf0. destruct (GetMute requesterID t0) as [mute [err|]]; simpl in *;
        [|done]. rewrite Hf0. by eexists.
    + apply elem_of_cons in Hin as [->|Hin]; [congruence|].
      unfold fails in Hf0. destruct (GetMute requesterID t0) as [mute [err|]]; simpl in *.
      * rewrite Hf0. by eapply IH.
      * by eapply IH.
  - rewrite decide_False in Hin by (intros ?; done). by eapply IH.
Qed.

(** X11. getStatusRelatedUserMutes looks up the author and then each
    mentioned account other than the requester, never the requester: if
    no lookup fails with an error other than "no entries", it returns
    the mutes found, in that order; if one does, it returns an error;
    and for the requester's own status it looks nothing up. *)
Theorem getStatusRelatedUserMutes_lookups GetMute requesterID statusAccountID mentions :
  let targets := consulted requesterID statusAccountID mentions in
  ((∀ t, t ∈ targets → fails GetMute requesterID t = false) →
   getStatusRelatedUserMutes GetMute requesterID statusAccountID mentions
     = inr (omap (λ t, fst (GetMute requesterID t)) targets)) ∧
  ((∃ t, t ∈ targets ∧ fails GetMute requesterID t = true) →
   ∃ msg, getStatusRelatedUserMutes GetMute requesterID statusAccountID mentions = inl msg) ∧
  requesterID ∉ targets.
Proof.
  unfold consulted, getStatusRelatedUserMutes. simpl.
  case_bool_decide as Hown.
  { split_and!; [done | by intros (t & ?%elem_of_nil & _) | by intros ?%elem_of_nil]. }
  split_and!.
  - intros Hok.
    pose proof (Hok statusAccountID (list_elem_of_here _ _)) as Hf. unfold fails in Hf.
    assert (∀ t', t' ∈ filter (λ t0, t0 ≠ requesterID) mentions →
                  fails GetMute requesterID t' = false) as Hrest.
    { intros t' Hin. apply Hok. by right. }
    simpl. destruct (GetMute requesterID statusAccountID) as [mute [err|]]; simpl in *.
    + rewrite Hf. rewrite mentionMutes_ok by done. by destruct mute.
    + rewrite mentionMutes_ok by done. by destruct mute.
  - intros (t & Hin & Hf).
    destruct (fails GetMute requesterID statusAccountID) eqn:Hf0.
    + unfold fails in Hf0.
      destruct (GetMute requesterID statusAccountID) as [mute [err|]]; simpl in *; [|done].
      rewrite Hf0. by eexists.
    + apply elem_of_cons in Hin as [->|Hin]; [congruence|].
      unfold fails in Hf0.
      destruct (GetMute requesterID statusAccountID) as [mute [err|]]; simpl in *.
      * rewrite Hf0. by eapply mentionMutes_fail.
      * by eapply mentionMutes_fail.
  - intros [?|Hin]%elem_of_cons; [done|].
    apply list_elem_of_filter in Hin as [? _]. done.
Qed.

(** X12. StatusMuted returns an error exactly when the requester is
    authenticated, the decision is not cached, and the thread-mute or the
    user-mute lookup fails; and then it reports muted=false,
    withExpiry=false. *)
Theorem StatusMuted_error_iff requester statusID env :
  let out := StatusMuted requester statusID env in
  (snd out ≠ None ↔
     is_Some requester ∧ cached env = None ∧
     ((∃ err, threadMute env = inl err) ∨ (∃ err, userMutes env = inl err))) ∧
  (snd out ≠ None → fst out = (false, false)).
Proof.
  cbv zeta. unfold StatusMuted, getStatusMuteDetails, LoadOne.
  destruct requester as [r|]; simpl.
  2:{ split; [|done]. split; [done|]. by intros [[? [=]] _]. }
  destruct (cached env) as [d|]; simpl.
  { destruct (Mute d); simpl; [destruct (IsZero (MuteExpiry d))|]; simpl;
      (split; [|done]); (split; [done|]); by intros (_ & [=] & _). }
  destruct (threadMute env) as [e|tm]; simpl.
  { split; [|done]. split; [|done]. intros _. split_and!; [by eexists|done|left; by eexists]. }
  destruct (userMutes env) as [e|ums]; simpl.
  { split; [|done]. split; [|done]. intros _. split_and!; [by eexists|done|right; by eexists]. }
  match goal with |- context [negb ?b] => destruct b end; simpl;
    [match goal with |- context [IsZero ?x] => destruct (IsZero x) end|]; simpl;
    (split; [|done]); (split; [done|]); by intros (_ & _ & [[? [=]]|[? [=]]]).
Qed.

Lemma StatusNotificationsMuted_rechecks_expiry_witness :
  StatusNotificationsMuted (Some "01REQ") "01STATUS" (hitAt 100 notifsMutedUntil50)
    = (Notifications notifsMutedUntil50
         && negb (NotificationExpired notifsMutedUntil50 (clock (hitAt 100 notifsMutedUntil50))),
       Notifications notifsMutedUntil50
         && negb (IsZero (NotificationExpiry notifsMutedUntil50)), None) ∧
  (∀ loadedAt tm ums,
     notifsMutedUntil50 = loadDetails loadedAt "01REQ" "01STATUS" tm ums →
     NotificationExpired notifsMutedUntil50 (clock (hitAt 100 notifsMutedUntil50)) = true →
     StatusNotificationsMuted (Some "01REQ") "01STATUS" (hitAt 100 notifsMutedUntil50)
       = (false, true, None)).
Proof.
  apply (StatusNotificationsMuted_rechecks_expiry "01REQ" "01STATUS"
           (hitAt 100 notifsMutedUntil50) notifsMutedUntil50).
  reflexivity.
Defined.

Lemma cached_mute_lapses_with_latest_expiry_witness :
  StatusMuted (Some "01REQ") "01STATUS"
      (hitAt 100 (loadDetails 10 "01REQ" "01STATUS" false permanentAndTemporary))
    = (false, true, None).
Proof.
  apply (cached_mute_lapses_with_latest_expiry 10 100 "01REQ" "01STATUS" false
           permanentAndTemporary (mkUserMute 50 false)).
  - apply list_elem_of_further, list_elem_of_here.
  - simpl. lia.
  - simpl. lia.
  - apply Forall_forall. repeat constructor; simpl; lia.
  - reflexivity.
  - reflexivity.
Defined.

(** Loaded afresh at 100 the same mutes give a mute without expiry: the
    temporary one is no longer counted. *)
Example permanent_mute_when_reloaded :
  StatusMuted (Some "01REQ") "01STATUS"
      (mkEnv 100 None (inr false) (inr permanentAndTemporary))
    = (true, false, None).
Proof. reflexivity. Qed.
End MuteLoaderFacts.

(* --------------------------------------------------------------------- *)
(** ** The account cache: its reachable states and its sweep *)
(* --------------------------------------------------------------------- *)

Module CacheSweepFacts.
Import Cache CacheFacts CacheSweep.

Lemma consistent_New h :
  map_Forall (λ p _, (p < next h)%nat) (cells h) → consistent (NewAccount h).
Proof.
  intros Hh. split_and!; [by apply wellFormed_NewAccount| | |done].
  - intros k e He. simpl in He. by rewrite lookup_empty in He.
  - split; intros u id Hu; simpl in Hu; by rewrite lookup_empty in Hu.
Qed.

Lemma consistent_alloc a s : consistent s → consistent (mkState (fst (alloc a (heap s))) (ac s)).
Proof.
  intros ([Hfresh Hlive] & Hkey & [Huri Hurl] & Httl).
  assert (∀ p x, cells (heap s) !! p = Some x →
                 <[next (heap s) := a]> (cells (heap s)) !! p = Some x) as Hkeep.
  { intros p x Hp. pose proof (Hfresh _ _ Hp) as Hlt. simpl in Hlt.
    rewrite lookup_insert_ne by lia. done. }
  split_and!; [split| | |done]; simpl.
  - apply (alloc_fresh a _ Hfresh).
  - intros k e He. destruct (Hlive _ _ He) as [x Hx]. exists x. by apply Hkeep.
  - intros k e He. destruct (Hkey _ _ He) as (x & Hx & Hid). exists x. split; [by apply Hkeep|done].
  - split.
    + intros u id Hu. destruct (Huri _ _ Hu) as (x & (e & He & Hx) & Hux).
      exists x. split; [|done]. exists e. split; [done|]. by apply Hkeep.
    + intros u id Hu. destruct (Hurl _ _ Hu) as (Hne & x & (e & He & Hx) & Hux).
      split; [done|]. exists x. split; [|done]. exists e. split; [done|]. by apply Hkeep.
Qed.

Lemma consistent_store p a s :
  is_Some (cells (heap s) !! p) → ¬ cachedPtr s p → consistent s → consistent (mkState (store p a (heap s)) (ac s)).
Proof.
  intros [old Hold] Hnot ([Hfresh Hlive] & Hkey & [Huri Hurl] & Httl).
  assert (∀ k e, cache (ac s) !! k = Some e → value e ≠ p) as Hne.
  { intros k e He Hv. apply Hnot. by exists k, e. }
  assert (∀ k e x, cache (ac s) !! k = Some e → cells (heap s) !! value e = Some x →
                   <[p := a]> (cells (heap s)) !! value e = Some x) as Hkeep.
  { intros k e x He Hx. rewrite lookup_insert_ne; [done|]. intros Heq. by apply (Hne k e). }
  split_and!; [split| | |done]; simpl.
  - (* a write through [p] allocates nothing *)
    intros q x Hq. simpl.
    destruct (decide (q = p)) as [->|Hqp].
    + apply (Hfresh _ _ Hold).
    + rewrite lookup_insert_ne in Hq by done. apply (Hfresh _ _ Hq).
  - intros k e He. destruct (Hlive _ _ He) as [x Hx]. exists x. by eapply Hkeep.
  - intros k e He. destruct (Hkey _ _ He) as (x & Hx & Hid). exists x. split; [by eapply Hkeep|done].
  - split.
    + intros u id Hu. destruct (Huri _ _ Hu) as (x & (e & He & Hx) & Hux).
      exists x. split; [|done]. exists e. split; [done|]. by eapply Hkeep.
    + intros u id Hu. destruct (Hurl _ _ Hu) as (Hne' & x & (e & He & Hx) & Hux).
      split; [done|]. exists x. split; [|done]. exists e. split; [done|]. by eapply Hkeep.
Qed.

(** Extending the expiry of an entry changes nothing else. *)
Lemma consistent_touch id e t s :
  cache (ac s) !! id = Some e → consistent s →
  consistent (mkState (heap s)
    (mkAccountCache (<[id := mkEntry (value e) t]> (cache (ac s)))
       (ttl (ac s)) (urls (ac s)) (uris (ac s)))).
Proof.
  intros He0 ([Hfresh Hlive] & Hkey & [Huri Hurl] & Httl).
  assert (∀ i a, holds s i a →
            holds (mkState (heap s)
              (mkAccountCache (<[id := mkEntry (value e) t]> (cache (ac s)))
                 (ttl (ac s)) (urls (ac s)) (uris (ac s)))) i a) as Hholds.
  { intros i a (e' & He' & Ha). unfold holds. simpl.
    destruct (decide (id = i)) as [->|Hne].
    - exists (mkEntry (value e) t). rewrite lookup_insert_eq. split; [done|].
      simpl. congruence.
    - exists e'. by rewrite lookup_insert_ne. }
  split_and!; [split| | |done]; simpl.
  - done.
  - apply map_Forall_insert_2; [|done]. simpl. by apply (Hlive _ _ He0).
  - intros k e' He'. simpl in He'.
    apply lookup_insert_Some in He' as [[<- <-]|[Hne He']]; simpl.
    + by apply (Hkey _ _ He0).
    + by apply (Hkey _ _ He').
  - split.
    + intros u i Hu. destruct (Huri _ _ Hu) as (a & Ha & Hua). exists a. split; [by apply Hholds|done].
    + intros u i Hu. destruct (Hurl _ _ Hu) as (Hne & a & Ha & Hua).
      split; [done|]. exists a. split; [by apply Hholds|done].
Qed.

Lemma consistent_getByID id now s s1 r :
  consistent s → getByID id now s = Returns (s1, r) → consistent s1.
Proof.
  intros Hc. pose proof Hc as ([Hfresh Hlive] & _). unfold getByID, get.
  destruct (cache (ac s) !! id) as [e|] eqn:He.
  - destruct (Hlive _ _ He) as [a Ha]. simpl in Ha.
    rewrite (copyAccount_Returns _ _ _ Ha). simpl. intros [= <- <-].
    apply (consistent_alloc (strip a)
             (mkState (heap s)
                (mkAccountCache (<[id := mkEntry (value e) (now + ttl (ac s))]> (cache (ac s)))
                   (ttl (ac s)) (urls (ac s)) (uris (ac s))))).
    by apply consistent_touch.
  - intros [= <- <-]. done.
Qed.

Lemma consistent_Get k now s s1 r :
  consistent s → Get k now s = Returns (s1, r) → consistent s1.
Proof.
  intros Hc. destruct k as [id|uri|url]; simpl.
  - by apply consistent_getByID.
  - unfold GetByURI. destruct (uris (ac s) !! uri); [by apply consistent_getByID|].
    by intros [= <- <-].
  - unfold GetByURL. destruct (urls (ac s) !! url); [by apply consistent_getByID|].
    by intros [= <- <-].
Qed.

(** The state that a Set of a valid account leaves. *)
Lemma Set_Returns p a now s :
  wellFormed s → cells (heap s) !! p = Some a → ID a ≠ "" → URI a ≠ "" →
  let hooked :=
    match replaced s (ID a) with
    | Some oldAcc => updateHook oldAcc (strip a) (ac s)
    | None => ac s
    end in
  Set_ (Some p) now s
    = Returns (mkState (fst (alloc (strip a) (heap s)))
        (mkAccountCache
           (<[ID a := mkEntry (next (heap s)) (now + ttl (ac s))]> (cache (ac s)))
           (ttl (ac s))
           (if bool_decide (URL a ≠ "") then <[URL a := ID a]> (urls hooked) else urls hooked)
           (<[URI a := ID a]> (uris hooked)))).
Proof.
  intros [Hfresh Hlive] Hp Hid Huri. unfold Set_, replaced. rewrite Hp.
  rewrite !bool_decide_eq_false_2 by done. simpl.
  rewrite (copyAccount_Returns _ _ _ Hp). simpl.
  unfold set. destruct (cache (ac s) !! ID a) as [item|] eqn:Hitem; simpl.
  - destruct (Hlive _ _ Hitem) as [old Hold]. simpl in Hold.
    pose proof (Hfresh _ _ Hold) as Hlt. simpl in Hlt.
    rewrite lookup_insert_ne by lia. rewrite Hold.
    rewrite lookup_insert_eq. simpl. by case_bool_decide.
  - by case_bool_decide.
Qed.

Lemma holds_replaced s id a : holds s id a → replaced s id = Some a.
Proof. intros (e & He & Ha). unfold replaced. rewrite He. done. Qed.

Lemma consistent_Set p now s s' :
  consistent s → Set_ (Some p) now s = Returns s' → consistent s'.
Proof.
  intros Hc HSet. pose proof Hc as (Hwf & Hkey & [Huri Hurl] & Httl).
  assert (∃ a, cells (heap s) !! p = Some a ∧ ID a ≠ "" ∧ URI a ≠ "") as (a & Hp & Hid & Hu).
  { unfold Set_ in HSet. destruct (cells (heap s) !! p) as [a|]; [|done].
    destruct (bool_decide (ID a = "")) eqn:E1; [done|].
    destruct (bool_decide (URI a = "")) eqn:E2; [done|].
    apply bool_decide_eq_false in E1, E2. by exists a. }
  destruct (Set_valid p a now s Hwf Hp Hid Hu) as (s'' & HSet' & Hwf' & _).
  rewrite HSet in HSet'. injection HSet' as <-.
  pose proof (Set_Returns p a now s Hwf Hp Hid Hu) as Heq. cbv zeta in Heq.
  rewrite HSet in Heq. injection Heq as ->.
  destruct Hwf as [Hfresh Hlive].
  set (c' := <[ID a := mkEntry (next (heap s)) (now + ttl (ac s))]> (cache (ac s))) in *.
  set (h' := <[next (heap s) := strip a]> (cells (heap s))).
  assert (∀ q x, cells (heap s) !! q = Some x → h' !! q = Some x) as Hkeep.
  { intros q x Hq. pose proof (Hfresh _ _ Hq) as Hlt. simpl in Hlt.
    subst h'. rewrite lookup_insert_ne by lia. done. }
  assert (∀ i x, i ≠ ID a → holds s i x →
            ∃ e, c' !! i = Some e ∧ h' !! value e = Some x) as Hother.
  { intros i x Hne (e & He & Hx). exists e. subst c'.
    rewrite lookup_insert_ne by done. split; [done|by apply Hkeep]. }
  assert (∃ e, c' !! ID a = Some e ∧ h' !! value e = Some (strip a)) as Hnew.
  { eexists. subst c' h'. rewrite lookup_insert_eq. split; [done|]. simpl.
    apply lookup_insert_eq. }
  split_and!; [done| | |done].
  - intros k e He. simpl in He |- *. fold h'.
    apply lookup_insert_Some in He as [[<- <-]|[Hne He]]; simpl.
    + exists (strip a). subst h'. by rewrite lookup_insert_eq.
    + destruct (Hkey _ _ He) as (x & Hx & Hxk). exists x. split; [by apply Hkeep|done].
  - split; intros u id Hlook; unfold holds; simpl in Hlook |- *; fold h'.
    + apply lookup_insert_Some in Hlook as [[<- <-]|[Hne Hlook]].
      { exists (strip a). split; [exact Hnew|done]. }
      assert (uris (ac s) !! u = Some id ∧
              ∀ old, replaced s (ID a) = Some old → u ≠ URI old) as [Hold Hrep].
      { destruct (replaced s (ID a)) as [old|]; [|by split].
        unfold updateHook in Hlook. simpl in Hlook. case_bool_decide as Hch.
        - apply lookup_insert_Some in Hlook as [[? _]|[_ Hlook]]; [done|].
          apply lookup_delete_Some in Hlook as [Hd Hlook].
          split; [done|]. by intros ? [= <-].
        - split; [done|]. intros ? [= <-]. try apply dec_stable in Hch. congruence. }
      destruct (Huri _ _ Hold) as (x & Hx & Hxu).
      exists x. split; [|done]. apply Hother; [|done].
      intros ->. apply holds_replaced in Hx. by apply (Hrep x).
    + assert ((u = URL a ∧ URL a ≠ "" ∧ id = ID a) ∨
              (urls (ac s) !! u = Some id ∧
               ∀ old, replaced s (ID a) = Some old → u ≠ URL old)) as [(-> & Hne & ->)|[Hold Hrep]].
      { destruct (decide (URL a ≠ "" ∧ u = URL a)) as [[Hne ->]|Hnot].
        { left. rewrite bool_decide_eq_true_2 in Hlook by done.
          rewrite lookup_insert_eq in Hlook. by injection Hlook as <-. }
        right.
        assert (match replaced s (ID a) with
                | Some oldAcc => urls (updateHook oldAcc (strip a) (ac s))
                | None => urls (ac s)
                end !! u = Some id) as Hlook'.
        { case_bool_decide as Hne.
          - rewrite lookup_insert_ne in Hlook by (intros <-; by apply Hnot).
            by destruct (replaced s (ID a)).
          - by destruct (replaced s (ID a)). }
        clear Hlook.
        destruct (replaced s (ID a)) as [old|]; [|by split].
        unfold updateHook in Hlook'. simpl in Hlook'.
        case_bool_decide as Hch.
        - assert ((if bool_decide (URL old ≠ "") then delete (URL old) (urls (ac s))
                   else urls (ac s)) !! u = Some id) as Hlook.
          { case_bool_decide as Hne; [|done].
            rewrite lookup_insert_ne in Hlook' by (intros <-; by apply Hnot). done. }
          clear Hlook'. case_bool_decide as Hoe.
          + apply lookup_delete_Some in Hlook as [Hd Hlook]. split; [done|].
            by intros ? [= <-].
          + split; [done|]. intros ? [= <-]. try apply dec_stable in Hoe.
            destruct (Hurl _ _ Hlook) as [Hune _]. congruence.
        - split; [done|]. intros ? [= <-]. try apply dec_stable in Hch.
          destruct (Hurl _ _ Hlook') as [Hune _].
          intros ->. apply Hnot. split; congruence. }
      { split; [done|]. exists (strip a). split; [exact Hnew|done]. }
      destruct (Hurl _ _ Hold) as (Hune & x & Hx & Hxu).
      split; [done|]. exists x. split; [|done]. apply Hother; [|done].
      intros ->. apply holds_replaced in Hx. by apply (Hrep x).
Qed.

Lemma sweep_fold now h l : ∀ c,
  (∀ k e, (k, e) ∈ l → is_Some (cells h !! value e)) →
  ∃ c', foldl (sweepStep now h) (Returns c) l = Returns c' ∧
    ttl c' = ttl c ∧
    cache c' ⊆ cache c ∧ uris c' ⊆ uris c ∧ urls c' ⊆ urls c ∧
    (∀ k e, (k, e) ∈ l → evictable now e → cache c' !! k = None) ∧
    (∀ k, (∀ e, (k, e) ∈ l → ¬ evictable now e) → cache c' !! k = cache c !! k) ∧
    (∀ k e a, (k, e) ∈ l → evictable now e → cells h !! value e = Some a →
       uris c' !! URI a = None ∧ urls c' !! URL a = None).
Proof.
  induction l as [|[k0 e0] l IH]; intros c Hlive; simpl.
  { exists c. split_and!; try done.
    - by intros ? ? ?%elem_of_nil.
    - by intros ? ? ? ?%elem_of_nil. }
  assert (∀ k e, (k, e) ∈ l → is_Some (cells h !! value e)) as Hlive'.
  { intros k e Hin. apply (Hlive k e). by right. }
  destruct (After (expiry e0) now) eqn:Hev.
  - destruct (Hlive k0 e0 (list_elem_of_here _ _)) as [a0 Ha0]. rewrite Ha0. simpl.
    destruct (IH (mkAccountCache (delete k0 (cache c)) (ttl c)
                    (delete (URL a0) (urls c)) (delete (URI a0) (uris c))) Hlive')
      as (c' & -> & Httl & Hsub & Hsuri & Hsurl & Hgone & Hkept & Hidx).
    simpl in *. exists c'. split_and!; [done|done| | | | | |].
    + etrans; [exact Hsub|]. apply delete_subseteq.
    + etrans; [exact Hsuri|]. apply delete_subseteq.
    + etrans; [exact Hsurl|]. apply delete_subseteq.
    + intros k e [[= -> ->]|Hin]%elem_of_cons He.
      * eapply lookup_weaken_None; [|exact Hsub]. apply lookup_delete_eq.
      * by apply (Hgone k e).
    + intros k Hk. rewrite Hkept.
      * apply lookup_delete_ne. intros <-. apply (Hk e0); [by left|done].
      * intros e Hin. apply Hk. by right.
    + intros k e a [[= -> ->]|Hin]%elem_of_cons He Ha.
      * rewrite Ha0 in Ha. injection Ha as <-. split.
        -- eapply lookup_weaken_None; [|exact Hsuri]. apply lookup_delete_eq.
        -- eapply lookup_weaken_None; [|exact Hsurl]. apply lookup_delete_eq.
      * by apply (Hidx k e a).
  - simpl. destruct (IH c Hlive')
      as (c' & -> & Httl & Hsub & Hsuri & Hsurl & Hgone & Hkept & Hidx).
    exists c'. split_and!; try done.
    + intros k e [[= -> ->]|Hin]%elem_of_cons He; [unfold evictable in He; congruence|].
      by apply (Hgone k e).
    + intros k Hk. apply Hkept. intros e Hin. apply Hk. by right.
    + intros k e a [[= -> ->]|Hin]%elem_of_cons He Ha; [unfold evictable in He; congruence|].
      by apply (Hidx k e a).
Qed.

(** What a sweep leaves. *)
Lemma sweep_Returns now s :
  wellFormed s →
  ∃ s', sweep now s = Returns s' ∧ heap s' = heap s ∧ ttl (ac s') = ttl (ac s) ∧
    uris (ac s') ⊆ uris (ac s) ∧ urls (ac s') ⊆ urls (ac s) ∧
    (∀ k, cache (ac s') !! k
          = e ← cache (ac s) !! k; if After (expiry e) now then None else Some e) ∧
    (∀ k e a, cache (ac s) !! k = Some e → evictable now e →
       cells (heap s) !! value e = Some a →
       uris (ac s') !! URI a = None ∧ urls (ac s') !! URL a = None).
Proof.
  intros [Hfresh Hlive]. unfold sweep.
  destruct (sweep_fold now (heap s) (map_to_list (cache (ac s))) (ac s))
    as (c' & -> & Httl & Hsub & Hsuri & Hsurl & Hgone & Hkept & Hidx).
  { intros k e Hin%elem_of_map_to_list. apply (Hlive _ _ Hin). }
  simpl. eexists. split; [done|]. simpl. split_and!; try done.
  - intros k. destruct (cache (ac s) !! k) as [e|] eqn:He; simpl.
    + destruct (After (expiry e) now) eqn:Hev.
      * apply (Hgone k e); [by apply elem_of_map_to_list|done].
      * rewrite Hkept; [done|]. intros e' Hin%elem_of_map_to_list. unfold evictable. congruence.
    + eapply lookup_weaken_None; [exact He|exact Hsub].
  - intros k e a He. apply (Hidx k e a). by apply elem_of_map_to_list.
Qed.

Lemma consistent_sweep now s s' :
  consistent s → sweep now s = Returns s' → consistent s'.
Proof.
  intros (Hwf & Hkey & [Huri Hurl] & Httl) Hsw.
  destruct (sweep_Returns now s Hwf)
    as (s'' & Hsw' & Hheap & Httl' & Hsuri & Hsurl & Hcache & Hidx).
  rewrite Hsw in Hsw'. injection Hsw' as <-.
  assert (∀ k e, cache (ac s') !! k = Some e →
                 cache (ac s) !! k = Some e ∧ ¬ evictable now e) as Hin.
  { intros k e He. rewrite Hcache in He.
    destruct (cache (ac s) !! k) as [e0|]; simpl in He; [|done].
    destruct (After (expiry e0) now) eqn:Hev; [done|]. injection He as <-.
    split; [done|]. unfold evictable. congruence. }
  assert (∀ id a, holds s id a →
            holds s' id a ∨ (uris (ac s') !! URI a = None ∧ urls (ac s') !! URL a = None))
    as Hholds.
  { intros id a (e & He & Ha).
    destruct (After (expiry e) now) eqn:Hev.
    - right. by apply (Hidx id e a).
    - left. exists e. rewrite Hcache, He, Hheap. simpl. by rewrite Hev. }
  destruct Hwf as [Hfresh Hlive].
  split_and!; [split| | |congruence].
  - by rewrite Hheap.
  - intros k e He. rewrite Hheap. destruct (Hin _ _ He) as [He0 _]. apply (Hlive k e He0).
  - intros k e He. rewrite Hheap. destruct (Hin _ _ He) as [He0 _]. apply (Hkey k e He0).
  - split.
    + intros u id Hu.
      destruct (Huri u id (lookup_weaken _ _ _ _ Hu Hsuri)) as (a & Ha & Hau).
      exists a. split; [|done].
      destruct (Hholds _ _ Ha) as [?|[Hnone _]]; [done|]. congruence.
    + intros u id Hu.
      destruct (Hurl u id (lookup_weaken _ _ _ _ Hu Hsurl)) as (Hne & a & Ha & Hau).
      split; [done|]. exists a. split; [|done].
      destruct (Hholds _ _ Ha) as [?|[_ Hnone]]; [done|]. congruence.
Qed.

Lemma reachable_consistent s : reachable s → consistent s.
Proof.
  induction 1 as [h Hh|s s' _ IH Hstep]; [by apply consistent_New|].
  destruct Hstep as [p now s s' HSet|k now s s' r HGet|now s s' Hsw|a s|p a s Hp Hnot].
  - by eapply consistent_Set.
  - by eapply consistent_Get.
  - by eapply consistent_sweep.
  - by apply consistent_alloc.
  - by apply consistent_store.
Qed.

Lemma Get_total k now s : wellFormed s → ∃ r, Get k now s = Returns r.
Proof.
  intros [Hfresh Hlive].
  assert (∀ id, ∃ r, getByID id now s = Returns r) as Hby.
  { intros id. unfold getByID, get.
    destruct (cache (ac s) !! id) as [e|] eqn:He; [|by eexists].
    destruct (Hlive _ _ He) as [a Ha]. simpl in Ha.
    rewrite (copyAccount_Returns _ _ _ Ha). simpl. by eexists. }
  destruct k as [id|uri|url]; simpl.
  - apply Hby.
  - unfold GetByURI. destruct (uris (ac s) !! uri); [apply Hby|by eexists].
  - unfold GetByURL. destruct (urls (ac s) !! url); [apply Hby|by eexists].
Qed.

(** X14. In every state that the account cache can reach, no lookup and
    no sweep panics, and neither does the insertion of an account with
    an ID and a URI. *)
Theorem reachable_never_panics s :
  reachable s →
  (∀ k now, ∃ r, Get k now s = Returns r) ∧
  (∀ now, ∃ s', sweep now s = Returns s') ∧
  (∀ p a now, cells (heap s) !! p = Some a → ID a ≠ "" → URI a ≠ "" →
     ∃ s', Set_ (Some p) now s = Returns s').
Proof.
  intros Hr. destruct (reachable_consistent s Hr) as (Hwf & _).
  split_and!.
  - intros k now. by apply Get_total.
  - intros now. destruct (sweep_Returns now s Hwf) as (s' & Hs' & _). by exists s'.
  - intros p a now Hp Hid Huri.
    destruct (Set_valid p a now s Hwf Hp Hid Huri) as (s' & Hs' & _). by exists s'.
Qed.

(** X15. In every state that the account cache can reach, a lookup that
    hits hands back an account with the key that was asked for: that ID,
    that URI or that URL. *)
Theorem Get_hit_matches_key k now s s1 q :
  reachable s → Get k now s = Returns (s1, Some q) →
  ∃ a, cells (heap s1) !! q = Some a ∧ matches k a.
Proof.
  intros Hr HGet. destruct (reachable_consistent s Hr) as (Hwf & Hkey & [Huri Hurl] & _).
  destruct (Get_hit _ _ _ _ _ HGet) as (id & Hres & Hid).
  destruct (getByID_hit _ _ _ _ _ Hwf Hid) as (e & a & He & Ha & -> & Hheap & Hac).
  exists (strip a). split.
  { rewrite Hheap. simpl. apply lookup_insert_eq. }
  destruct (Hkey _ _ He) as (a' & Ha' & Hida). rewrite Ha in Ha'. injection Ha' as <-.
  destruct k as [i|uri|url]; simpl in *.
  - congruence.
  - destruct (Huri _ _ Hres) as (x & (e' & He' & Hx) & Hxu).
    rewrite He in He'. injection He' as <-. rewrite Ha in Hx. by injection Hx as <-.
  - destruct (Hurl _ _ Hres) as (_ & x & (e' & He' & Hx) & Hxu).
    rewrite He in He'. injection He' as <-. rewrite Ha in Hx. by injection Hx as <-.
Qed.


(** X17. An account that was just placed in the cache is evicted by a
    sweep that runs before its expiry: after Set at [now] and a sweep
    earlier than [now] plus the five minutes of the TTL, the lookups by
    its ID, its URI and its URL all miss. *)
Theorem sweep_evicts_unexpired p a now now' now'' s s1 s2 :
  reachable s → cells (heap s) !! p = Some a →
  Set_ (Some p) now s = Returns s1 →
  now' < now + 5 * 60 * 1000000000 →
  sweep now' s1 = Returns s2 →
  Get (ByID (ID a)) now'' s2 = Returns (s2, None) ∧
  Get (ByURI (URI a)) now'' s2 = Returns (s2, None) ∧
  Get (ByURL (URL a)) now'' s2 = Returns (s2, None).
Proof.
  intros Hr Hp HSet Hnow Hsw.
  destruct (reachable_consistent s Hr) as (Hwf & _ & _ & Httl).
  assert (ID a ≠ "" ∧ URI a ≠ "") as [Hid Huri].
  { unfold Set_ in HSet. rewrite Hp in HSet.
    destruct (bool_decide (ID a = "")) eqn:E1; [done|].
    destruct (bool_decide (URI a = "")) eqn:E2; [done|].
    apply bool_decide_eq_false in E1, E2. done. }
  destruct (Set_valid p a now s Hwf Hp Hid Huri)
    as (s'' & HSet' & Hwf' & Hheap & Hcache & _).
  rewrite HSet in HSet'. injection HSet' as <-.
  destruct (sweep_Returns now' s1 Hwf')
    as (s'' & Hsw' & Hheap2 & _ & _ & _ & Hc2 & Hidx).
  rewrite Hsw in Hsw'. injection Hsw' as <-.
  set (e := mkEntry (next (heap s)) (now + ttl (ac s))).
  assert (cache (ac s1) !! ID a = Some e) as He by (rewrite Hcache; apply lookup_insert_eq).
  assert (evictable now' e) as Hev.
  { unfold evictable, After. simpl. apply bool_decide_eq_true. lia. }
  assert (cells (heap s1) !! value e = Some (strip a)) as Hcell.
  { rewrite Hheap. simpl. apply lookup_insert_eq. }
  destruct (Hidx _ _ _ He Hev Hcell) as [Hu1 Hu2]. simpl in Hu1, Hu2.
  clearbody e.
  assert (getByID (ID a) now'' s2 = Returns (s2, None)) as Hmiss.
  { unfold getByID, get. rewrite Hc2, He. simpl.
    rewrite Hev. by destruct s2. }
  split_and!; simpl.
  - done.
  - unfold GetByURI. by rewrite Hu1.
  - unfold GetByURL. by rewrite Hu2.
Qed.

Lemma afterSet_reachable : reachable afterSet.
Proof.
  apply (reachable_step (NewAccount callerHeap)).
  - apply reachable_New, callerHeap_fresh.
  - apply (step_Set 0%nat 0). vm_compute. reflexivity.
Defined.

Lemma Set_then_Get_witness :
  ∃ s1 q, Get (ByURL (URL zork)) 1 afterSet = Returns (s1, Some q) ∧ q ≠ 0%nat ∧
          cells (heap s1) !! q = Some (strip zork).
Proof.
  apply (Set_then_Get (ByURL (URL zork)) 0%nat zork 0 1 (NewAccount callerHeap) afterSet).
  - apply wellFormed_NewAccount, callerHeap_fresh.
  - vm_compute. reflexivity.
  - vm_compute. reflexivity.
  - right. right. split; [reflexivity | discriminate].
Defined.

Lemma reachable_never_panics_witness :
  (∀ k now, ∃ r, Get k now afterSet = Returns r) ∧
  (∀ now, ∃ s', sweep now afterSet = Returns s') ∧
  (∀ p a now, cells (heap afterSet) !! p = Some a → ID a ≠ "" → URI a ≠ "" →
     ∃ s', Set_ (Some p) now afterSet = Returns s').
Proof. apply (reachable_never_panics afterSet), afterSet_reachable. Defined.

Lemma Get_hit_matches_key_witness :
  ∃ a, cells (heap (fst firstGet)) !! 2%nat = Some a ∧ matches zorkByURI a.
Proof.
  apply (Get_hit_matches_key zorkByURI 1 afterSet (fst firstGet) 2%nat).
  - apply afterSet_reachable.
  - vm_compute. reflexivity.
Defined.


Lemma sweep_evicts_unexpired_witness :
  Get (ByID (ID zork)) 2 afterSweep = Returns (afterSweep, None) ∧
  Get (ByURI (URI zork)) 2 afterSweep = Returns (afterSweep, None) ∧
  Get (ByURL (URL zork)) 2 afterSweep = Returns (afterSweep, None).
Proof.
  apply (sweep_evicts_unexpired 0%nat zork 0 1 2 (NewAccount callerHeap) afterSet afterSweep).
  - apply reachable_New, callerHeap_fresh.
  - vm_compute. reflexivity.
  - vm_compute. reflexivity.
  - lia.
  - vm_compute. reflexivity.
Defined.

(** One tick after the account went in, the sweep leaves the cache and
    both lookups empty. *)
Example sweep_empties_afterSet :
  cache (ac afterSweep) = ∅ ∧ uris (ac afterSweep) = ∅ ∧ urls (ac afterSweep) = ∅.
Proof. vm_compute. done. Qed.
End CacheSweepFacts.

(* --------------------------------------------------------------------- *)
(** ** The notification and emoji caches: copy against alias *)
(* --------------------------------------------------------------------- *)

Module CopyFacts.
Import Cache CacheFacts EmojiCache.

(** X18. The notification cache keeps a copy of its own: after Put,
    whatever the caller writes through the pointer it handed in, GetByID
    under the notification's ID hits and hands back a fresh cell with
    the ID and the plain fields as they were at the time of Put, and the
    three associations nil. *)
Theorem Put_then_GetByID p n s s' (n' : Notification) :
  map_Forall (λ q _, (q < next (nheap s))%nat) (cells (nheap s)) →
  cells (nheap s) !! p = Some n →
  Put (Some p) s = Returns s' →
  ∃ s1 q,
    NGetByID (NID n) (mkNState (store p n' (nheap s')) (ncache s')) = Returns (s1, Some q) ∧
    q ≠ p ∧
    cells (nheap s1) !! q = Some (mkNotification (NID n) (NotificationType n) None None None) ∧
    cells (nheap s1) !! p = Some n'.
Proof.
  intros Hfresh Hp HPut. pose proof (Hfresh _ _ Hp) as Hlt. simpl in Hlt.
  unfold Put in HPut. rewrite Hp in HPut.
  destruct (bool_decide (NID n = "")) eqn:Hid; [done|].
  unfold copyNotification in HPut. rewrite Hp in HPut. simpl in HPut.
  injection HPut as <-. unfold NGetByID. simpl.
  rewrite lookup_insert_eq. unfold copyNotification. simpl.
  rewrite lookup_insert_ne by lia. rewrite lookup_insert_eq. simpl.
  eexists _, _. split; [done|]. simpl. split_and!.
  - lia.
  - apply lookup_insert_eq.
  - rewrite lookup_insert_ne by lia. apply lookup_insert_eq.
Qed.

Section Emoji.
Context {Emoji : Type} (EmojiID : Emoji → string).

(** X19. The emoji cache keeps the caller's pointer: after Set, Get
    under the emoji's ID hands back the very pointer that was handed in,
    so that what the caller has written through it since is what the
    lookup shows. *)
Theorem Emoji_Get_aliases_Set p (e e' : Emoji) now now' s s' :
  cells (eheap s) !! p = Some e →
  ESet EmojiID (Some p) now s = Returns s' →
  let written := mkEState (store p e' (eheap s')) (ec s') in
  snd (EGet (EmojiID e) now' written) = Some p ∧
  cells (eheap (fst (EGet (EmojiID e) now' written))) !! p = Some e'.
Proof.
  intros Hp HSet. unfold ESet in HSet. rewrite Hp in HSet.
  destruct (bool_decide (EmojiID e = "")); [done|]. injection HSet as <-.
  simpl. unfold EGet. simpl. rewrite lookup_insert_eq. simpl.
  split; [done|]. apply lookup_insert_eq.
Qed.
End Emoji.

Lemma notificationHeap_fresh :
  map_Forall (λ q _, (q < next notificationHeap)%nat) (cells notificationHeap).
Proof. apply (bool_decide_unpack _). vm_compute. exact I. Defined.

Lemma Put_then_GetByID_witness :
  ∃ s1 q,
    NGetByID (NID someNotification)
        (mkNState (store 0%nat (mkNotification "" "edited" None None None) (nheap afterPut))
           (ncache afterPut))
      = Returns (s1, Some q) ∧
    q ≠ 0%nat ∧
    cells (nheap s1) !! q
      = Some (mkNotification (NID someNotification) (NotificationType someNotification)
                None None None) ∧
    cells (nheap s1) !! 0%nat = Some (mkNotification "" "edited" None None None).
Proof.
  apply (Put_then_GetByID 0%nat someNotification (mkNState notificationHeap ∅) afterPut
           (mkNotification "" "edited" None None None)).
  - apply notificationHeap_fresh.
  - vm_compute. reflexivity.
  - vm_compute. reflexivity.
Defined.

Lemma Emoji_Get_aliases_Set_witness :
  let written := mkEState (store 0%nat ("01OTHER", "renamed") (eheap afterESet)) (ec afterESet) in
  snd (EGet (fst blobcat) 1 written) = Some 0%nat ∧
  cells (eheap (fst (EGet (fst blobcat) 1 written))) !! 0%nat = Some ("01OTHER", "renamed").
Proof.
  apply (Emoji_Get_aliases_Set fst 0%nat blobcat ("01OTHER", "renamed") 0 1
           (NewEmoji emojiHeap) afterESet).
  - vm_compute. reflexivity.
  - vm_compute. reflexivity.
Defined.
End CopyFacts.

(* --------------------------------------------------------------------- *)
(** ** The Create handlers outside the approval gate *)
(* --------------------------------------------------------------------- *)

Module FediAPIFlowFacts.
Import FediAPI FediAPIFacts FediAPIExamples.

(** X20. Once the object of a Create for a reply, like or boost is
    resolved with PendingApproval unset or false, the handler makes no
    approval call: it goes through the normal processing of that kind of
    interaction, every step whatever became of the ones before it, and
    returns success. *)
Theorem ungated_interaction_processes_normally (k : Interaction) (fMsg : FromFediAPI)
    (w : World) (t0 t1 : Trace) (r : Resolved) :
  resolveOf k fMsg w t0 = (t1, Ret (Some r)) →
  pendingApprovalOf r = false →
  snd (handlerOf k fMsg w t0) = Ret tt ∧
  calls (fst (handlerOf k fMsg w t0)) = calls t1 ++ normalProcessing fMsg r.
Proof.
  intros Hres Hpending. apply resolveOf_Some in Hres.
  destruct r as [s|f|b]; simpl in Hpending |- *.
  - destruct Hres as [-> [sb Hres]]. simpl.
    unfold CreateStatus, mbind, M_bind. rewrite Hres. simpl.
    rewrite Hpending. simpl. run. split; finish w.
  - destruct Hres as [-> Hres]. simpl.
    unfold CreateLike, mbind, M_bind. rewrite Hres. simpl.
    rewrite Hpending. simpl. run. split; finish w.
  - destruct Hres as [-> Hres]. simpl.
    unfold CreateAnnounce, mbind, M_bind. rewrite Hres. simpl.
    rewrite Hpending. simpl. run. split; finish w.
Qed.

(** X21. When the resolution step of a Create handler ends in an error,
    the handler returns that error, and when it ends with nothing to
    process, the handler returns success; in both cases the handler's
    trace is that of the resolution step, with no call after it. *)
Theorem handler_stops_without_object (k : Interaction) (fMsg : FromFediAPI)
    (w : World) (t0 : Trace) :
  (∀ t1 err, resolveOf k fMsg w t0 = (t1, Abort err) →
             handlerOf k fMsg w t0 = (t1, Abort err)) ∧
  (∀ t1, resolveOf k fMsg w t0 = (t1, Ret None) →
         handlerOf k fMsg w t0 = (t1, Ret tt)).
Proof.
  destruct k; simpl; unfold resolveOf, mbind, M_bind, mret, M_ret.
  - unfold CreateStatus, mbind, M_bind.
    destruct (resolveStatus fMsg w t0) as [t [[s [sb|]]|e]];
      split; intros; simplify_eq; done.
  - unfold CreateLike, mbind, M_bind.
    destruct (resolveFave fMsg w t0) as [t [f|e]];
      split; intros; simplify_eq; done.
  - unfold CreateAnnounce, mbind, M_bind.
    destruct (resolveBoost fMsg w t0) as [t [[b|]|e]];
      split; intros; simplify_eq; done.
Qed.

(** X22. When EnrichAnnounce fails on a boost, CreateAnnounce makes no
    further call: for an error that is unretrievable or not permitted it
    writes a debug line and returns success, for any other error it
    returns an error that wraps it. *)
Theorem CreateAnnounce_skips_unreachable_target fMsg boost w t0 err :
  GTSModel fMsg = Some (MStatus boost) →
  let enrich := EnrichAnnounce boost (Username (Receiving fMsg)) in
  errOf w t0 enrich = Some err →
  CreateAnnounce fMsg w t0 =
    if unretrievable err || notPermitted err
    then (t0 ++ [Called enrich; Logged DEBUG ("skipping announce: " +:+ text err)], Ret tt)
    else (t0 ++ [Called enrich], Abort (Wrapf "error dereferencing announce: " err)).
Proof.
  intros Hmodel enrich Herr. unfold CreateAnnounce, resolveBoost. rewrite Hmodel.
  run. fold enrich. rewrite Herr. simpl.
  destruct (unretrievable err || notPermitted err); simpl; [|done].
  by rewrite <- app_assoc.
Qed.

Lemma ungated_interaction_processes_normally_witness :
  snd (handlerOf Like createPlainLike (calmWorld newStatus None) []) = Ret tt ∧
  calls (fst (handlerOf Like createPlainLike (calmWorld newStatus None) []))
    = calls [Called (PopulateStatusFave plainFave)]
        ++ normalProcessing createPlainLike (RLike plainFave).
Proof.
  apply (ungated_interaction_processes_normally Like createPlainLike
           (calmWorld newStatus None) [] _ (RLike plainFave)).
  - reflexivity.
  - reflexivity.
Defined.

Lemma CreateAnnounce_skips_unreachable_target_witness :
  CreateAnnounce createAnnounce boostTargetGone []
    = if unretrievable targetGone || notPermitted targetGone
      then ([] ++ [Called (EnrichAnnounce someBoost (Username (Receiving createAnnounce)));
                   Logged DEBUG ("skipping announce: " +:+ text targetGone)], Ret tt)
      else ([] ++ [Called (EnrichAnnounce someBoost (Username (Receiving createAnnounce)))],
            Abort (Wrapf "error dereferencing announce: " targetGone)).
Proof.
  apply (CreateAnnounce_skips_unreachable_target createAnnounce someBoost boostTargetGone
           [] targetGone).
  - reflexivity.
  - reflexivity.
Defined.

(** The boost whose target is gone: one call, one debug line, success. *)
Example announce_of_gone_target_is_skipped :
  CreateAnnounce createAnnounce boostTargetGone []
    = ([Called (EnrichAnnounce someBoost "local");
        Logged DEBUG "skipping announce: status is gone"],
       Ret tt).
Proof. reflexivity. Qed.
End FediAPIFlowFacts.

(* --------------------------------------------------------------------- *)
(** ** The other handlers: which failures end a handler *)
(* --------------------------------------------------------------------- *)

Module HandlersFacts.
Import Handlers.

Lemma hcalls_app t1 t2 : calls (t1 ++ t2) = calls t1 ++ calls t2.
Proof. unfold calls. apply omap_app. Qed.

Lemma hcalls_Called t c : calls (t ++ [Called c]) = calls t ++ [c].
Proof. by rewrite hcalls_app. Qed.

Lemma hcalls_Errorf t line : calls (t ++ [Errorf line]) = calls t.
Proof. rewrite hcalls_app. simpl. by rewrite app_nil_r. Qed.

(** Unfold the monad and the call primitives. *)
Ltac hrun :=
  unfold orLog, orAbort, invoke, invokeFor, perform, logError, abort;
  unfold mbind, H_bind, mret, H_ret; simpl.

(** Split on every remaining answer of the world and compare the calls. *)
Ltac hfinish w :=
  repeat first
    [ progress (case_bool_decide; simpl)
    | match goal with
      | |- context [errOf w ?t ?c] => destruct (errOf w t c); simpl
      end ];
  rewrite ?hcalls_app; simpl; rewrite <- ?app_assoc; simpl; done.

(** X23. DeleteStatus gives up only on a failure to populate the status
    that is not "no entries", and then it has purged no queue and wiped
    nothing. Otherwise, also when the status is no longer in the
    database, it purges the four queues, then wipes the status, then
    updates the counter, then invalidates the status replied to if there
    is one, each step whatever became of the ones before it, and returns
    success. *)
Theorem DeleteStatus_tolerates_missing_status fMsg status w t0 :
  GTSModel fMsg = Some (MStatus status) →
  let out := DeleteStatus fMsg w t0 in
  let deleted :=
    snd out = Ret tt ∧
    calls (fst out) = calls t0 ++ [PopulateStatus status] ++ statusDeletion fMsg status in
  match errOf w t0 (PopulateStatus status) with
  | None => deleted
  | Some err =>
      if noEntries err then deleted
      else out = (t0 ++ [Called (PopulateStatus status)],
                  Abort (Wrapf "db error populating status: " err))
  end.
Proof.
  intros Hmodel. cbv zeta. unfold DeleteStatus, statusDeletion. rewrite Hmodel. hrun.
  destruct (errOf w t0 (PopulateStatus status)) as [err|]; simpl.
  - destruct (noEntries err); simpl; [|done]. split; hfinish w.
  - split; hfinish w.
Qed.

(** X24. DeleteAccount purges the six queue indices of the account
    before it deletes the account, and returns success whether or not
    the deletion fails. *)
Theorem DeleteAccount_purges_before_deleting fMsg account w t0 :
  GTSModel fMsg = Some (MAccount account) →
  let out := DeleteAccount fMsg w t0 in
  snd out = Ret tt ∧
  calls (fst out)
    = calls t0 ++ accountPurge account ++ [accountDelete account (AccountID account)].
Proof.
  intros Hmodel. cbv zeta. unfold DeleteAccount, accountPurge. rewrite Hmodel. hrun.
  split; hfinish w.
Qed.

(** X25. Once the follow request is populated: for a locked target
    CreateFollowReq notifies and counts the request and never accepts
    it; for an unlocked target it accepts the request first, returns an
    error with no counter changed if that fails, and otherwise updates
    both counters, federates the accept and notifies, each step whatever
    became of the ones before it. *)
Theorem CreateFollowReq_locked_or_accepted fMsg fr w t0 :
  GTSModel fMsg = Some (MFollowRequest fr) →
  errOf w t0 (PopulateFollowRequest fr) = None →
  let out := CreateFollowReq fMsg w t0 in
  let t1 := t0 ++ [Called (PopulateFollowRequest fr)] in
  let accept := AcceptFollowRequest (FRAccountID fr) (FRTargetAccountID fr) in
  if lockedOf w t0 (PopulateFollowRequest fr) then
    snd out = Ret tt ∧
    calls (fst out)
      = calls t1 ++ [notifyFollowRequest fr; incrementFollowRequestsCount (Receiving fMsg)]
  else
    match errOf w t1 accept with
    | Some err =>
        out = (t1 ++ [Called accept], Abort (Wrapf "error accepting follow request: " err))
    | None =>
        let follow := followOf w t1 accept in
        snd out = Ret tt ∧
        calls (fst out)
          = calls t1 ++ [accept;
                         incrementFollowersCount (Receiving fMsg);
                         incrementFollowingCount (Requesting fMsg);
                         federateAcceptFollow follow;
                         notifyFollow follow]
    end.
Proof.
  intros Hmodel Hpop. cbv zeta. unfold CreateFollowReq. rewrite Hmodel. hrun.
  rewrite Hpop. simpl.
  destruct (lockedOf w t0 (PopulateFollowRequest fr)); simpl.
  - split; hfinish w.
  - destruct (errOf w (t0 ++ [Called (PopulateFollowRequest fr)]) _); simpl; [done|].
    split; hfinish w.
Qed.

(** X26. AcceptReply and AcceptAnnounce on a status make the same four
    calls, each whatever became of the ones before it, and return
    success: the counter of the status's own account, the timelining,
    the unconditional invalidation of the status replied to
    (respectively boosted), and the federation of the status
    (respectively the boost). *)
Theorem Accept_timelines_and_federates fMsg status w t0 :
  GTSModel fMsg = Some (MStatus status) →
  let reply := AcceptReply fMsg w t0 in
  let boost := AcceptAnnounce fMsg w t0 in
  (snd reply = Ret tt ∧
   calls (fst reply)
     = calls t0 ++ [incrementStatusesCount (StatusAccount status) status;
                    timelineAndNotifyStatus status;
                    invalidateStatusFromTimelines (InReplyToID status);
                    federateCreateStatus status]) ∧
  (snd boost = Ret tt ∧
   calls (fst boost)
     = calls t0 ++ [incrementStatusesCount (StatusAccount status) status;
                    timelineAndNotifyStatus status;
                    invalidateStatusFromTimelines (BoostOfID status);
                    federateAnnounce status]).
Proof.
  intros Hmodel. cbv zeta. unfold AcceptReply, AcceptAnnounce. rewrite Hmodel. hrun.
  split_and!; hfinish w.
Qed.

(** X27. CreatePollVote needs its three storage steps: the first of
    them that fails ends the handler with an error and no later call;
    only after all three does it invalidate the poll's status, and for a
    local status count the votes and federate the update, whose failure
    is logged. *)
Theorem CreatePollVote_requires_storage fMsg vote w t0 :
  GTSModel fMsg = Some (MPollVote vote) →
  let out := CreatePollVote fMsg w t0 in
  let t1 := t0 ++ [Called (PutPollVote vote)] in
  let t2 := t1 ++ [Called (PopulatePollVote vote)] in
  let t3 := t2 ++ [Called (PopulatePoll (PollID vote))] in
  match errOf w t0 (PutPollVote vote) with
  | Some err => out = (t1, Abort (Wrapf "error inserting poll vote in db: " err))
  | None =>
      match errOf w t1 (PopulatePollVote vote) with
      | Some err => out = (t2, Abort (Wrapf "error populating poll vote from db: " err))
      | None =>
          match errOf w t2 (PopulatePoll (PollID vote)) with
          | Some err => out = (t3, Abort (Wrapf "error populating poll from db: " err))
          | None => snd out = Ret tt ∧ calls (fst out) = calls t3 ++ voteEffects vote
          end
      end
  end.
Proof.
  intros Hmodel. cbv zeta. unfold CreatePollVote, voteEffects. rewrite Hmodel. hrun.
  destruct (errOf w t0 (PutPollVote vote)); simpl; [done|].
  destruct (errOf w (t0 ++ [Called (PutPollVote vote)]) (PopulatePollVote vote));
    simpl; [done|].
  destruct (errOf w _ (PopulatePoll (PollID vote))); simpl; [done|].
  destruct (PollStatusLocal vote); simpl; split; hfinish w.
Qed.

(** X28. A handler whose message does not carry what it casts to
    returns an error and calls no collaborator. *)
Theorem cast_failure_makes_no_call h fMsg w t0 :
  castable h fMsg = false →
  ∃ err, handler h fMsg w t0 = (t0, Abort err) ∧ noEntries err = false.
Proof.
  unfold castable.
  destruct h, (GTSModel fMsg) as [[]|] eqn:Hm, (APObject_ fMsg) as [[]|] eqn:Ho;
    try done; intros _; simpl;
    unfold CreatePollVote, CreateFollowReq, CreateFlag, UpdateAccount, AcceptReply,
      AcceptAnnounce, DeleteStatus, DeleteAccount; rewrite Hm, ?Ho;
    by eexists.
Qed.

(** X29. CreateFlag, UpdateAccount, AcceptFollow, AcceptLike,
    AcceptReply, AcceptAnnounce and DeleteAccount return success on
    every message that passes their casts, whatever the collaborators
    answer. *)
Theorem best_effort_handlers_succeed h fMsg w t0 :
  castable h fMsg = true → bestEffort h = true →
  snd (handler h fMsg w t0) = Ret tt.
Proof.
  unfold castable.
  destruct h; try done; simpl;
    destruct (GTSModel fMsg) as [[]|] eqn:Hm; try done;
    destruct (APObject_ fMsg) as [[]|] eqn:Ho; try done; intros _ _;
    unfold CreateFlag, UpdateAccount, AcceptFollow, AcceptLike, AcceptReply,
      AcceptAnnounce, DeleteAccount; rewrite ?Hm, ?Ho; hrun;
    repeat match goal with
           | |- context [errOf w ?t ?c] => destruct (errOf w t c); simpl
           end; done.
Qed.

Lemma DeleteStatus_tolerates_missing_status_witness :
  snd (DeleteStatus (messageWith (Some (MStatus someReply))) statusGone []) = Ret tt ∧
  calls (fst (DeleteStatus (messageWith (Some (MStatus someReply))) statusGone []))
    = calls [] ++ [PopulateStatus someReply]
        ++ statusDeletion (messageWith (Some (MStatus someReply))) someReply.
Proof.
  apply (DeleteStatus_tolerates_missing_status (messageWith (Some (MStatus someReply)))
           someReply statusGone []).
  reflexivity.
Defined.

Lemma DeleteAccount_purges_before_deleting_witness :
  snd (DeleteAccount (messageWith (Some (MAccount remoteAccount))) (calm false) []) = Ret tt ∧
  calls (fst (DeleteAccount (messageWith (Some (MAccount remoteAccount))) (calm false) []))
    = calls [] ++ accountPurge remoteAccount
        ++ [accountDelete remoteAccount (AccountID remoteAccount)].
Proof.
  apply (DeleteAccount_purges_before_deleting
           (messageWith (Some (MAccount remoteAccount))) remoteAccount (calm false) []).
  reflexivity.
Defined.

Lemma CreateFollowReq_locked_or_accepted_witness :
  snd (CreateFollowReq (messageWith (Some (MFollowRequest someFollowRequest))) (calm true) [])
    = Ret tt ∧
  calls (fst (CreateFollowReq (messageWith (Some (MFollowRequest someFollowRequest)))
                (calm true) []))
    = calls ([] ++ [Called (PopulateFollowRequest someFollowRequest)])
        ++ [notifyFollowRequest someFollowRequest; incrementFollowRequestsCount localAccount].
Proof.
  apply (CreateFollowReq_locked_or_accepted
           (messageWith (Some (MFollowRequest someFollowRequest))) someFollowRequest
           (calm true) []).
  - reflexivity.
  - reflexivity.
Defined.

Lemma Accept_timelines_and_federates_witness :
  (snd (AcceptReply (messageWith (Some (MStatus someReply))) (calm false) []) = Ret tt ∧
   calls (fst (AcceptReply (messageWith (Some (MStatus someReply))) (calm false) []))
     = calls [] ++ [incrementStatusesCount (StatusAccount someReply) someReply;
                    timelineAndNotifyStatus someReply;
                    invalidateStatusFromTimelines (InReplyToID someReply);
                    federateCreateStatus someReply]) ∧
  (snd (AcceptAnnounce (messageWith (Some (MStatus someReply))) (calm false) []) = Ret tt ∧
   calls (fst (AcceptAnnounce (messageWith (Some (MStatus someReply))) (calm false) []))
     = calls [] ++ [incrementStatusesCount (StatusAccount someReply) someReply;
                    timelineAndNotifyStatus someReply;
                    invalidateStatusFromTimelines (BoostOfID someReply);
                    federateAnnounce someReply]).
Proof.
  apply (Accept_timelines_and_federates (messageWith (Some (MStatus someReply))) someReply
           (calm false) []).
  reflexivity.
Defined.

Lemma CreatePollVote_requires_storage_witness :
  snd (CreatePollVote (messageWith (Some (MPollVote someVote))) (calm false) []) = Ret tt ∧
  calls (fst (CreatePollVote (messageWith (Some (MPollVote someVote))) (calm false) []))
    = calls ((([] ++ [Called (PutPollVote someVote)])
                ++ [Called (PopulatePollVote someVote)])
               ++ [Called (PopulatePoll (PollID someVote))])
        ++ voteEffects someVote.
Proof.
  apply (CreatePollVote_requires_storage (messageWith (Some (MPollVote someVote))) someVote
           (calm false) []).
  reflexivity.
Defined.

Lemma cast_failure_makes_no_call_witness :
  ∃ err,
    handler hDeleteAccount (messageWith (Some (MStatus someReply))) (calm false) []
      = ([], Abort err) ∧
    noEntries err = false.
Proof.
  apply (cast_failure_makes_no_call hDeleteAccount (messageWith (Some (MStatus someReply)))
           (calm false) []).
  reflexivity.
Defined.

Lemma best_effort_handlers_succeed_witness :
  snd (handler hAcceptReply (messageWith (Some (MStatus someReply))) statusGone []) = Ret tt.
Proof.
  apply (best_effort_handlers_succeed hAcceptReply (messageWith (Some (MStatus someReply)))
           statusGone []).
  - reflexivity.
  - reflexivity.
Defined.

(** The status is gone from the database: the queues are purged and the
    wipe is attempted all the same. *)
Example delete_of_missing_status :
  calls (fst (DeleteStatus (messageWith (Some (MStatus someReply))) statusGone []))
    = [PopulateStatus someReply;
       QueueDelete Delivery "ObjectID" "https://remote.example/statuses/01REPLY";
       QueueDelete Delivery "TargetID" "https://remote.example/statuses/01REPLY";
       QueueDelete Client "TargetURI" "https://remote.example/statuses/01REPLY";
       QueueDelete Federator "TargetURI" "https://remote.example/statuses/01REPLY";
       wipeStatus someReply true;
       decrementStatusesCount remoteAccount;
       invalidateStatusFromTimelines "01PARENT"].
Proof. reflexivity. Qed.
End HandlersFacts.
